(** * Constrained portfolio optimisation by a genetic algorithm

    A shallow embedding of the C++ sources (Matrix.cpp, Portfolio.cpp,
    Constraints.hpp, Utils.hpp, Optimiser.cpp, Daily Returns.cpp and the
    loading of the returns in main.cpp), the properties of the
    specification that were checked against it, and further properties of
    the sources.

    Numbers.  The program computes with C++ [double].  It is modelled by
    Rocq's primitive binary64 floats: every arithmetic operation below is
    the IEEE 754 operation with round-to-nearest-even, comparisons are the
    IEEE comparisons (every comparison with a NaN is false, [+0 == -0]),
    and there is one NaN.  Decimal literals denote the nearest binary64
    value, as they do for the C++ compiler.  Rounding errors are bounded in
    one place, the renormalisation of weights, where the value of a finite
    double is taken as a real number.

    Failure.  A C++ function that can throw returns an [outcome]: a value,
    a thrown exception, or [Undefined] where the C++ standard leaves the
    behaviour undefined (a violated library precondition, an index out of
    range). *)

From Stdlib Require Import ZArith List Bool Lia PeanoNat.
From Stdlib Require Import Floats.
From Stdlib Require String.
From Stdlib Require Reals Lra.
Import ListNotations.

Set Warnings "-inexact-float".

Open Scope float_scope.

(* ================================================================= *)
(** * Doubles *)

Definition double : Set := float.

(** [std::numeric_limits<double>::max()], [lowest()], [infinity()]. *)
Definition DBL_MAX : double := 0x1.fffffffffffffp+1023.
Definition DBL_LOWEST : double := - DBL_MAX.
Definition DBL_INF : double := infinity.

(* [std::fabs], [std::isnan] and [std::sqrt] are [abs], [is_nan] and [sqrt]. *)

(** [std::max(a, b)]: [(a < b) ? b : a]. *)
Definition std_max (a b : double) : double := if a <? b then b else a.

(** [std::accumulate(first, last, init)]: a running sum from the left. *)
Definition accumulate (l : list double) (init : double) : double :=
  fold_left add l init.

(** Conversion of a [size_t] to [double] (exact below 2^53). *)
Definition double_of_size (n : nat) : double :=
  of_uint63 (Uint63.of_Z (Z.of_nat n)).

(* ================================================================= *)
(** * Outcomes of C++ calls *)

(** The [throw] sites of the sources.  The C++ exception type is given by
    [exn]; the site stands for the message. *)
Inductive site : Set :=
| RowsDiffer            (* Matrix(d): "All rows must have the same number of columns." *)
| DotMismatch           (* Matrix::dot *)
| CholeskyNotSquare     (* "Cholesky decomposition requires a square matrix." *)
| NotPositiveDefinite   (* "Matrix is not positive-definite." *)
| CovarianceRows        (* "At least 2 rows required for covariance matrix." *)
| PortfolioRows         (* Portfolio(R): fewer than 2 rows *)
| PortfolioCols         (* Portfolio(R): no asset column *)
| ReturnSizeMismatch    (* portfolio_return: "Weight vector size mismatch ..." *)
| VarianceSizeMismatch  (* portfolio_variance: "Weight vector size mismatch ..." *)
| SumNotOne             (* validate_weights_sum_to_one *)
| BoundsViolated        (* validate_bounds *)
| TargetSizeMismatch    (* validate_target_return: "... must match in size." *)
| TargetShortfall       (* validate_target_return: "Expected return ... is below target" *)
| RandomWeightsEmpty    (* random_weights: "Weight vector size must be > 0." *)
| NormalizeZeroSum.     (* normalize: "Cannot normalize: sum ~ 0." *)

Inductive exn : Set :=
| invalid_argument (s : site)   (* std::invalid_argument *)
| runtime_error (s : site).     (* std::runtime_error *)

Inductive outcome (A : Type) : Type :=
| Ok (a : A)
| Throw (e : exn)
| Undefined.

Arguments Ok {A} a.
Arguments Throw {A} e.
Arguments Undefined {A}.

Definition bind {A B : Type} (c : outcome A) (k : A -> outcome B) : outcome B :=
  match c with
  | Ok a => k a
  | Throw e => Throw e
  | Undefined => Undefined
  end.

Notation "x <- c ;; k" := (bind c (fun x => k))
  (at level 61, c at next level, right associativity).
Notation "' p <- c ;; k" := (bind c (fun p => k))
  (at level 61, p pattern, c at next level, right associativity).

(** [for (size_t i = 0; i < n; ++i) body], threading the mutated state. *)
Definition for_ {S : Type} (n : nat) (body : nat -> S -> S) (s : S) : S :=
  fold_left (fun acc i => body i acc) (seq 0 n) s.

(** The same loop with a body that can throw: the first failure ends it. *)
Fixpoint for_from {S : Type} (start n : nat) (body : nat -> S -> outcome S)
    (s : S) : outcome S :=
  match n with
  | O => Ok s
  | Datatypes.S n' => s' <- body start s ;; for_from (Datatypes.S start) n' body s'
  end.

Definition forM {S : Type} (n : nat) (body : nat -> S -> outcome S) (s : S) :=
  for_from 0 n body s.

(** A range-based loop [for (double w : ws) body] that can throw. *)
Fixpoint foreachM {A S : Type} (ws : list A) (body : A -> S -> outcome S)
    (s : S) : outcome S :=
  match ws with
  | [] => Ok s
  | w :: ws' => s' <- body w s ;; foreachM ws' body s'
  end.

(** [v[i] = x] on a vector (no effect out of range; every write below is
    in range). *)
Fixpoint upd {A : Type} (l : list A) (i : nat) (x : A) : list A :=
  match l, i with
  | [], _ => []
  | _ :: t, O => x :: t
  | h :: t, Datatypes.S i' => h :: upd t i' x
  end.

(** [for (size_t i = a; i < b; ++i) body]. *)
Definition for_range {S : Type} (a b : nat) (body : nat -> S -> S) (s : S) : S :=
  fold_left (fun acc i => body i acc) (seq a (b - a)) s.

(* ================================================================= *)
(** * Matrix (Matrix.cpp) *)

Module Matrix.

Record t : Set := mk { rows : nat; cols : nat; data : list (list double) }.

(** [Matrix()] *)
Definition empty : t := mk 0 0 [].

(** [Matrix(r, c)]: zero matrix. *)
Definition zeros (r c : nat) : t := mk r c (repeat (repeat 0 c) r).

(** [Matrix(d)]: every row must be as long as the first. *)
Definition of_rows (d : list (list double)) : outcome t :=
  match d with
  | [] => Ok (mk 0 0 d)
  | r0 :: _ =>
      let c := length r0 in
      if forallb (fun row => Nat.eqb (length row) c) d
      then Ok (mk (length d) c d)
      else Throw (invalid_argument RowsDiffer)
  end.

(** [operator()(r, c)]: [data[r][c]].  The class invariant (every row has
    [cols] entries, there are [rows] rows) keeps the reads of this file
    in range. *)
Definition get (m : t) (r c : nat) : double := nth c (nth r (data m) []) 0.

Definition set (m : t) (r c : nat) (x : double) : t :=
  mk (rows m) (cols m) (upd (data m) r (upd (nth r (data m) []) c x)).

Definition transpose (m : t) : t :=
  for_ (rows m) (fun i res =>
    for_ (cols m) (fun j res => set res j i (get m i j)) res)
    (zeros (cols m) (rows m)).

Definition dot (m other : t) : outcome t :=
  if negb (Nat.eqb (cols m) (rows other))
  then Throw (invalid_argument DotMismatch)
  else Ok (for_ (rows m) (fun i res =>
             for_ (cols other) (fun j res =>
               for_ (cols m) (fun k res =>
                 set res i j (get res i j + get m i k * get other k j)) res) res)
             (zeros (rows m) (cols other))).

(** One pass of the innermost loop of [cholesky_decompose]:
    [sum += L(i,k) * L(j,k)] for [k < j]. *)
Definition inner_sum (L : t) (i j : nat) : double :=
  for_ j (fun k sum => sum + get L i k * get L j k) 0.

(** The body of the [j] loop. *)
Definition cholesky_cell (m : t) (i j : nat) (L : t) : outcome t :=
  let sum := inner_sum L i j in
  if Nat.eqb i j then
    let val := get m i i - sum in
    if val <=? 0 then Throw (runtime_error NotPositiveDefinite)
    else Ok (set L i j (sqrt val))
  else Ok (set L i j ((get m i j - sum) / get L j j)).

Definition cholesky_row (m : t) (i : nat) (L : t) : outcome t :=
  forM (Datatypes.S i) (cholesky_cell m i) L.

Definition cholesky_decompose (m : t) : outcome t :=
  if negb (Nat.eqb (rows m) (cols m))
  then Throw (invalid_argument CholeskyNotSquare)
  else
    let n := rows m in
    forM n (cholesky_row m) (zeros n n).

Definition mean_per_column (m : t) : list double :=
  if Nat.eqb (rows m) 0 || Nat.eqb (cols m) 0 then []
  else
    let mean :=
      for_ (cols m) (fun j mean =>
        for_ (rows m) (fun i mean => upd mean j (nth j mean 0 + get m i j)) mean)
        (repeat 0 (cols m)) in
    map (fun x => x / double_of_size (rows m)) mean.

Definition covariance_matrix (m : t) : outcome t :=
  if Nat.ltb (rows m) 2 then Throw (runtime_error CovarianceRows)
  else
    let means := mean_per_column m in
    Ok (for_ (cols m) (fun i cov =>
          for_ (cols m) (fun j cov =>
            let sum :=
              for_ (rows m) (fun k sum =>
                sum + (get m k i - nth i means 0) * (get m k j - nth j means 0)) 0 in
            set cov i j (sum / double_of_size (rows m - 1))) cov)
          (zeros (cols m) (cols m))).

(** [operator*(double)]: every entry of a copy is multiplied in place. *)
Definition operator_mul (m : t) (scalar : double) : t :=
  for_ (rows m) (fun i result =>
    for_ (cols m) (fun j result =>
      set result i j (get result i j * scalar)) result) m.

(** [operator+] and [operator-].  Each has one [throw], of a
    [std::invalid_argument] on a dimension mismatch: [None]. *)
Definition operator_add (m other : t) : option t :=
  if negb (Nat.eqb (rows m) (rows other)) || negb (Nat.eqb (cols m) (cols other))
  then None
  else Some (for_ (rows m) (fun i result =>
               for_ (cols m) (fun j result =>
                 set result i j (get result i j + get other i j)) result) m).

Definition operator_sub (m other : t) : option t :=
  if negb (Nat.eqb (rows m) (rows other)) || negb (Nat.eqb (cols m) (cols other))
  then None
  else Some (for_ (rows m) (fun i result =>
               for_ (cols m) (fun j result =>
                 set result i j (get result i j - get other i j)) result) m).

(** The forward substitution of [inverse]: the inverse of the factor [L],
    column by column. *)
Definition forward_substitution (L : t) : t :=
  let n := rows L in
  for_ n (fun i invL =>
    let invL := set invL i i (1 / get L i i) in
    for_range (S i) n (fun j invL =>
      let sum :=
        for_range i j (fun k sum => sum - get L j k * get invL k i) 0 in
      set invL j i (sum / get L j j)) invL)
    (zeros n n).

(** [inverse()]: through the Cholesky factor, [(L^-1)^T * L^-1]. *)
Definition inverse (m : t) : outcome t :=
  L <- cholesky_decompose m ;;
  let invL := forward_substitution L in
  dot (transpose invL) invL.

End Matrix.

(* ================================================================= *)
(** * Portfolio (Portfolio.cpp) *)

Module Portfolio.

Record t : Set := mk {
  returns : Matrix.t;
  cov_matrix : Matrix.t;
  means : list double;
  num_assets : nat
}.

(** [Portfolio(R)] *)
Definition new (R : Matrix.t) : outcome t :=
  if Nat.ltb (Matrix.rows R) 2 then Throw (invalid_argument PortfolioRows)
  else
    let n := Matrix.cols R in
    if Nat.eqb n 0 then Throw (invalid_argument PortfolioCols)
    else
      let mu := Matrix.mean_per_column R in
      cov <- Matrix.covariance_matrix R ;;
      Ok (mk R cov mu n).

Definition portfolio_return (p : t) (weights : list double) : outcome double :=
  if negb (Nat.eqb (length weights) (num_assets p))
  then Throw (invalid_argument ReturnSizeMismatch)
  else Ok (for_ (num_assets p)
             (fun i ret => ret + nth i weights 0 * nth i (means p) 0) 0).

Definition excess_return (p : t) (weights : list double) (risk_free : double) :=
  r <- portfolio_return p weights ;; Ok (r - risk_free).

Definition portfolio_variance (p : t) (weights : list double) : outcome double :=
  if negb (Nat.eqb (length weights) (num_assets p))
  then Throw (invalid_argument VarianceSizeMismatch)
  else Ok (for_ (num_assets p) (fun i var =>
             for_ (num_assets p) (fun j var =>
               var + nth i weights 0 * nth j weights 0 * Matrix.get (cov_matrix p) i j)
               var) 0).

Definition portfolio_risk (p : t) (weights : list double) : outcome double :=
  var <- portfolio_variance p weights ;;
  Ok (sqrt (std_max 0 var)).

Definition sharpe_ratio (p : t) (weights : list double) (risk_free : double)
  : outcome double :=
  port_ret <- portfolio_return p weights ;;
  port_risk <- portfolio_risk p weights ;;
  let excess_ret := port_ret - risk_free in
  if port_risk <? 1e-12 then
    if 1e-12 <? excess_ret then Ok DBL_INF else Ok 0
  else Ok (excess_ret / port_risk).

End Portfolio.

(* ================================================================= *)
(** * Constraints (Constraints.hpp) *)

Module Constraints.

(** Tolerance for floating-point comparisons. *)
Definition EPSILON : double := 1e-8.

Definition validate_weights_sum_to_one (weights : list double) : outcome unit :=
  let sum := accumulate weights 0 in
  if EPSILON <? abs (sum - 1) then Throw (invalid_argument SumNotOne)
  else Ok tt.

Definition validate_bounds (weights : list double) (lower upper : double)
  : outcome unit :=
  foreachM weights (fun w _ =>
    if (w <? lower - EPSILON) || (upper + EPSILON <? w)
    then Throw (invalid_argument BoundsViolated)
    else Ok tt) tt.

(** The loop [expected_return += weights[i] * mean_returns[i]] over
    [i < weights.size()], as written in [validate_target_return] and in
    [constraint_penalty]. *)
Definition expected_return (weights mean_returns : list double) : double :=
  for_ (length weights)
    (fun i er => er + nth i weights 0 * nth i mean_returns 0) 0.

Definition validate_target_return (weights mean_returns : list double)
    (target_return : double) : outcome unit :=
  if negb (Nat.eqb (length weights) (length mean_returns))
  then Throw (invalid_argument TargetSizeMismatch)
  else
    let er := expected_return weights mean_returns in
    if er + EPSILON <? target_return
    then Throw (invalid_argument TargetShortfall)
    else Ok tt.

Definition validate_weights (weights mean_returns : list double)
    (lower upper target_return : double) : outcome unit :=
  _ <- validate_weights_sum_to_one weights ;;
  _ <- validate_bounds weights lower upper ;;
  if DBL_LOWEST + EPSILON <? target_return
  then validate_target_return weights mean_returns target_return
  else Ok tt.

(** [try { validate_weights(...); return true; } catch (...) { return false; }]
    Undefined behaviour is not an exception and is not caught. *)
Definition is_feasible (weights mean_returns : list double)
    (lower upper target_return : double) : outcome bool :=
  match validate_weights weights mean_returns lower upper target_return with
  | Ok _ => Ok true
  | Throw _ => Ok false
  | Undefined => Undefined
  end.

(** The first two stages of [constraint_penalty]: sum deviation and bounds
    violation. *)
Definition sum_and_bounds_penalty (weights : list double) (lower upper : double)
  : double :=
  let penalty := 0 in
  let sum := accumulate weights 0 in
  let penalty := penalty + abs (sum - 1) in
  fold_left (fun penalty w =>
    let penalty := if w <? lower - EPSILON then penalty + (lower - w) else penalty in
    if upper + EPSILON <? w then penalty + (w - upper) else penalty)
    weights penalty.

Definition constraint_penalty (weights mean_returns : list double)
    (lower upper target_return : double) : double :=
  let penalty := sum_and_bounds_penalty weights lower upper in
  if DBL_LOWEST + EPSILON <? target_return then
    if negb (Nat.eqb (length weights) (length mean_returns))
    then penalty + 1000
    else
      let er := expected_return weights mean_returns in
      if er + EPSILON <? target_return
      then penalty + (target_return - er)
      else penalty
  else penalty.

End Constraints.

(* ================================================================= *)
(** * Pseudo-random draws

    [std::mt19937] and the distributions applied to it are kept abstract:
    a generator state and, for each distribution, some function of that
    state.  Nothing is assumed of them, so what is proved of the optimiser
    holds for every sequence of random choices.  [std::normal_distribution]
    keeps a value between calls, hence its own state. *)

Record random_source : Type := {
  rng : Type;
  (** [uniform_real_distribution<>(0.0, 1.0)] *)
  uniform_real : rng -> double * rng;
  (** [uniform_int_distribution<>(0, n - 1)], given [n] *)
  uniform_index : nat -> rng -> nat * rng;
  (** [bernoulli_distribution(p)] *)
  bernoulli : double -> rng -> bool * rng;
  (** [normal_distribution<>(0.0, 0.05)]: the fresh object and one draw *)
  normal_dist : Type;
  normal_init : normal_dist;
  normal_draw : normal_dist -> rng -> double * normal_dist * rng
}.

(** [v[i]] where the index is not known to be in range. *)
Definition index {A : Type} (v : list A) (i : nat) : outcome A :=
  match nth_error v i with
  | Some x => Ok x
  | None => Undefined
  end.

(* ================================================================= *)
(** * Utils (Utils.hpp) *)

Module Utils.

(** [n] draws [w = dis(gen)], in order. *)
Fixpoint draw_uniform (R : random_source) (n : nat) (g : rng R)
  : list double * rng R :=
  match n with
  | O => ([], g)
  | S n' =>
      let (w, g1) := uniform_real R g in
      let (ws, g2) := draw_uniform R n' g1 in
      (w :: ws, g2)
  end.

(** [random_weights(n, gen)] *)
Definition random_weights (R : random_source) (n : nat) (g : rng R)
  : outcome (list double * rng R) :=
  if Nat.eqb n 0 then Throw (invalid_argument RandomWeightsEmpty)
  else
    let (weights, g') := draw_uniform R n g in
    let sum := accumulate weights 0 in
    if sum <? 1e-12
    then Ok (map (fun _ => 1 / double_of_size n) weights, g')
    else Ok (map (fun w => w / sum) weights, g').

(** [std::clamp(v, lo, hi)]; the behaviour is undefined if [hi < lo]. *)
Definition std_clamp (v lo hi : double) : outcome double :=
  if hi <? lo then Undefined
  else Ok (if v <? lo then lo else if hi <? v then hi else v).

Fixpoint clip_weights (weights : list double) (min_val max_val : double)
  : outcome (list double) :=
  match weights with
  | [] => Ok []
  | w :: ws =>
      w' <- std_clamp w min_val max_val ;;
      ws' <- clip_weights ws min_val max_val ;;
      Ok (w' :: ws')
  end.

Definition normalize (weights : list double) : outcome (list double) :=
  let sum := accumulate weights 0 in
  if sum <? 1e-12 then Throw (invalid_argument NormalizeZeroSum)
  else Ok (map (fun w => w / sum) weights).

(** [random_weights(n)]: the same with a generator of its own, freshly
    seeded from [std::random_device] and dropped on return. *)
Definition random_weights_fresh (R : random_source) (n : nat) (seeded : rng R)
  : outcome (list double) :=
  r <- random_weights R n seeded ;; Ok (fst r).

(** [dot_product(a, b)].  Its one [throw], of a [std::invalid_argument] when
    the sizes differ, is [None]. *)
Definition dot_product (a b : list double) : option double :=
  if negb (Nat.eqb (length a) (length b)) then None
  else Some (for_ (length a) (fun i result => result + nth i a 0 * nth i b 0) 0).

(** [almost_equal(a, b, eps)] *)
Definition almost_equal (a b eps : double) : bool := abs (a - b) <? eps.

End Utils.

(* ================================================================= *)
(** * GeneticOptimiser (Optimiser.cpp) *)

Module GeneticOptimiser.

Import Constraints Utils.

(** The data members set by the constructor, the generator apart. *)
Record config : Set := {
  portfolio : Portfolio.t;
  population_size : nat;
  generations : nat;
  mutation_rate : double;
  crossover_rate : double;
  lower_bound : double;
  upper_bound : double;
  target_return : double;
  sum_penalty_multiplier : double;
  bounds_penalty_multiplier : double;
  target_return_penalty_multiplier : double;
  risk_free_rate_ : double
}.

(** Lines 45-52 of [calculate_fitness]: the bounds loop. *)
Definition bounds_penalty_loop (c : config) (weights : list double) : double :=
  fold_left (fun bounds_penalty w =>
    let bounds_penalty :=
      if w <? lower_bound c then bounds_penalty + (lower_bound c - w)
      else bounds_penalty in
    if upper_bound c <? w then bounds_penalty + (w - upper_bound c)
    else bounds_penalty) weights 0.

(** Lines 54-66 of [calculate_fitness]: the target-return block. *)
Definition target_ret_penalty_block (c : config) (weights : list double)
  : outcome double :=
  if DBL_LOWEST + EPSILON <? target_return c then
    if negb (Nat.eqb (length weights) (Portfolio.num_assets (portfolio c)))
    then Ok 100
    else
      current_return <- Portfolio.portfolio_return (portfolio c) weights ;;
      if current_return + EPSILON <? target_return c
      then Ok (target_return c - current_return)
      else Ok 0
  else Ok 0.

Definition calculate_fitness (c : config) (weights : list double)
  : outcome double :=
  let sum_penalty := abs (accumulate weights 0 - 1) in
  sharpe <- Portfolio.sharpe_ratio (portfolio c) weights (risk_free_rate_ c) ;;
  let bounds_penalty := bounds_penalty_loop c weights in
  target_ret_penalty <- target_ret_penalty_block c weights ;;
  let total_penalty :=
    sum_penalty * sum_penalty_multiplier c +
    bounds_penalty * bounds_penalty_multiplier c +
    target_ret_penalty * target_return_penalty_multiplier c in
  if sharpe =? DBL_INF then Ok (- DBL_INF)
  else if is_nan sharpe then Ok DBL_MAX
  else Ok (- sharpe + total_penalty).

(** [std::min_element(first, last) - first]: the first smallest element;
    0 on an empty range. *)
Fixpoint min_element_from (l : list double) (i best_idx : nat) (best : double)
  : nat :=
  match l with
  | [] => best_idx
  | x :: l' =>
      if x <? best then min_element_from l' (S i) i x
      else min_element_from l' (S i) best_idx best
  end.

Definition min_element (l : list double) : nat :=
  match l with
  | [] => 0
  | x :: l' => min_element_from l' 1 0 x
  end.

(** [operator<] of [std::vector<double>] (lexicographical) and of
    [std::pair<double, std::vector<double>>]. *)
Fixpoint vector_lt (a b : list double) : bool :=
  match a, b with
  | _, [] => false
  | [], _ :: _ => true
  | x :: a', y :: b' =>
      if x <? y then true else if y <? x then false else vector_lt a' b'
  end.

Definition pair_lt (a b : double * list double) : bool :=
  (fst a <? fst b) || (negb (fst b <? fst a) && vector_lt (snd a) (snd b)).

(** [std::sort] with [operator<], as an insertion sort.  The order of
    equivalent elements, which [std::sort] leaves unspecified, does not
    matter here: equivalent pairs differ at most in the sign of a zero.
    With a NaN among the fitnesses [operator<] is no strict weak order and
    the standard does not say what [std::sort] does; nothing proved below
    depends on the order of the sorted pairs. *)
Fixpoint insert_sorted (x : double * list double)
    (l : list (double * list double)) : list (double * list double) :=
  match l with
  | [] => [x]
  | y :: l' => if pair_lt y x then y :: insert_sorted x l' else x :: l
  end.

Definition sort (l : list (double * list double)) :=
  fold_right insert_sorted [] l.

Section WithRandomness.

Variable R : random_source.
Variable c : config.

(** Tournament selection ([k = 3]). *)
Definition select_parent (population : list (list double))
    (fitnesses : list double) (g : rng R)
  : outcome (list double * rng R) :=
  if Nat.eqb (length population) 0
  then Undefined  (* dis(0, size - 1): the bounds must satisfy a <= b *)
  else
    let dis := uniform_index R (length population) in
    let (best_idx, g) := dis g in
    '(best_idx, g) <-
      forM 2 (fun _ '(best_idx, g) =>
        let (current_idx, g) := dis g in
        f_cur <- index fitnesses current_idx ;;
        f_best <- index fitnesses best_idx ;;
        Ok (if f_cur <? f_best then current_idx else best_idx, g))
        (best_idx, g) ;;
    p <- index population best_idx ;;
    Ok (p, g).

(** Uniform crossover, then both children are normalised.
    [std::bernoulli_distribution coin(crossover_rate)] requires
    [0 <= crossover_rate <= 1]; the behaviour is undefined otherwise. *)
Definition crossover (parent1 parent2 : list double) (g : rng R)
  : outcome (list double * list double * rng R) :=
  if negb ((0 <=? crossover_rate c) && (crossover_rate c <=? 1)) then Undefined
  else
  '(child1, child2, g) <-
    forM (length parent1) (fun i '(child1, child2, g) =>
      let (swap, g) := bernoulli R (crossover_rate c) g in
      if swap then
        x <- index child1 i ;;
        y <- index child2 i ;;
        Ok (upd child1 i y, upd child2 i x, g)
      else Ok (child1, child2, g))
      (parent1, parent2, g) ;;
  child1 <- normalize child1 ;;
  child2 <- normalize child2 ;;
  Ok (child1, child2, g).

(** The loop of [mutate] over the genes, threading the flag [mutated],
    the noise distribution and the generator. *)
Fixpoint mutate_genes (individual : list double) (mutated : bool)
    (noise : normal_dist R) (g : rng R)
  : list double * bool * rng R :=
  match individual with
  | [] => ([], mutated, g)
  | w :: ws =>
      let (u, g) := uniform_real R g in
      if u <? mutation_rate c then
        let '(z, noise, g) := normal_draw R noise g in
        let '(ws', mutated', g) := mutate_genes ws true noise g in
        (w + z :: ws', mutated', g)
      else
        let '(ws', mutated', g) := mutate_genes ws mutated noise g in
        (w :: ws', mutated', g)
  end.

Definition mutate (individual : list double) (g : rng R)
  : outcome (list double * rng R) :=
  let '(individual, mutated, g) :=
    mutate_genes individual false (normal_init R) g in
  if mutated then
    individual <- clip_weights individual (lower_bound c) (upper_bound c) ;;
    individual <- normalize individual ;;
    Ok (individual, g)
  else Ok (individual, g).

(** The initial population: [population_size] individuals, each drawn,
    clipped and normalised. *)
Fixpoint init_population (n : nat) (g : rng R)
  : outcome (list (list double) * rng R) :=
  match n with
  | O => Ok ([], g)
  | S n' =>
      '(ind, g) <- random_weights R (Portfolio.num_assets (portfolio c)) g ;;
      ind <- clip_weights ind (lower_bound c) (upper_bound c) ;;
      ind <- normalize ind ;;
      '(rest, g) <- init_population n' g ;;
      Ok (ind :: rest, g)
  end.

(** [for (i < population_size) fitnesses[i] = calculate_fitness(population[i])];
    the population has [population_size] individuals throughout
    ([generation_population_size] below). *)
Fixpoint evaluate (population : list (list double)) : outcome (list double) :=
  match population with
  | [] => Ok []
  | ind :: rest =>
      f <- calculate_fitness c ind ;;
      fs <- evaluate rest ;;
      Ok (f :: fs)
  end.

(** The [while (new_pop.size() < population_size)] loop, by the number
    of free slots [population_size - new_pop.size()]. *)
Fixpoint reproduce (slots : nat) (population : list (list double))
    (fitnesses : list double) (new_pop : list (list double)) (g : rng R)
  : outcome (list (list double) * rng R) :=
  match slots with
  | O => Ok (new_pop, g)
  | S slots1 =>
      '(p1, g) <- select_parent population fitnesses g ;;
      '(p2, g) <- select_parent population fitnesses g ;;
      '(c1, c2, g) <- crossover p1 p2 g ;;
      '(c1, g) <- mutate c1 g ;;
      '(c2, g) <- mutate c2 g ;;
      let new_pop := new_pop ++ [c1] in
      match slots1 with
      | O => Ok (new_pop, g)
      | S slots2 => reproduce slots2 population fitnesses (new_pop ++ [c2]) g
      end
  end.

(** What [optimise] carries from one generation to the next. *)
Record state : Type := {
  population : list (list double);
  best_weights : list double;
  best_fitness : double;
  generator : rng R
}.

(** One pass of the generation loop (the progress line apart). *)
Definition generation (st : state) : outcome state :=
  fitnesses <- evaluate (population st) ;;
  let best_idx := min_element fitnesses in
  f_best <- index fitnesses best_idx ;;
  let improved := f_best <? best_fitness st in
  best_w <- (if improved then index (population st) best_idx
             else Ok (best_weights st)) ;;
  let best_f := if improved then f_best else best_fitness st in
  let sorted := sort (combine fitnesses (population st)) in
  let elite_count := Nat.div (population_size c) 20 in
  let new_pop := map snd (firstn elite_count sorted) in
  '(new_pop, g) <-
    reproduce (population_size c - length new_pop) (population st)
      fitnesses new_pop (generator st) ;;
  Ok {| population := new_pop; best_weights := best_w;
        best_fitness := best_f; generator := g |}.

Fixpoint run_generations (gens : nat) (st : state) : outcome state :=
  match gens with
  | O => Ok st
  | S gens' => st' <- generation st ;; run_generations gens' st'
  end.

(** The state on entry to the generation loop, from the seeded
    generator [g0]. *)
Definition initial_state (g0 : rng R) : outcome state :=
  '(pop, g) <- init_population (population_size c) g0 ;;
  Ok {| population := pop; best_weights := [];
        best_fitness := DBL_MAX; generator := g |}.

(** [optimise()], with the final value of [best_fitness] next to the
    returned vector. *)
Definition optimise_with_fitness (g0 : rng R) : outcome (list double * double) :=
  st0 <- initial_state g0 ;;
  st <- run_generations (generations c) st0 ;;
  final_fitness <- calculate_fitness c (best_weights st) ;;
  let best_f :=
    if final_fitness <? best_fitness st then final_fitness
    else best_fitness st in
  Ok (best_weights st, best_f).

Definition optimise (g0 : rng R) : outcome (list double) :=
  r <- optimise_with_fitness g0 ;; Ok (fst r).

End WithRandomness.

Arguments population {R} s.
Arguments best_weights {R} s.
Arguments best_fitness {R} s.
Arguments generator {R} s.

End GeneticOptimiser.

(* ================================================================= *)
(** * DataReader (Daily Returns.cpp)

    The text of the price file is read outside the model: a call is given
    the tickers of the header line and, for each later line, the prices
    that [safeStod] made of its cells.  [std::log] is kept abstract. *)

Module DataReader.

Record t : Set := mk {
  assetTickers : list String.string;
  prices : list (list double);
  dailyReturns : list (list double)
}.

Section WithLog.

Variable log : double -> double.

(** Lines 115-117: the log return of one asset, 0.0 unless both prices are
    positive. *)
Definition log_ret (prev curr : double) : double :=
  if (0 <? prev) && (0 <? curr) then log (curr / prev) else 0.

(** Lines 113-120: the returns of a line after the first.  [prev_prices[i]]
    is read for every [i < curr_prices.size()]. *)
Definition log_returns (prev_prices curr_prices : list double)
  : outcome (list double) :=
  forM (length curr_prices) (fun i curr_returns =>
    prev <- index prev_prices i ;;
    curr <- index curr_prices i ;;
    Ok (curr_returns ++ [log_ret prev curr])) [].

(** The loop over the lines after the header. *)
Fixpoint process_lines (lines : list (list double)) (first : bool)
    (prev_prices : list double) (d : t) : outcome t :=
  match lines with
  | [] => Ok d
  | curr_prices :: rest =>
      let d := mk (assetTickers d) (prices d ++ [curr_prices]) (dailyReturns d) in
      curr_returns <-
        (if first then Ok (repeat 0 (length curr_prices))
         else log_returns prev_prices curr_prices) ;;
      let d := mk (assetTickers d) (prices d) (dailyReturns d ++ [curr_returns]) in
      process_lines rest false curr_prices d
  end.

(** [processAndSaveDailyReturns]: [opened] tells whether both files (and
    the output directory) could be opened; if not, the call returns false
    before it touches a member. *)
Definition processAndSaveDailyReturns (opened : bool)
    (tickers : list String.string) (lines : list (list double)) (d : t)
  : outcome (bool * t) :=
  if negb opened then Ok (false, d)
  else
    let d := mk tickers (prices d) (dailyReturns d) in
    d <- process_lines lines true [] d ;;
    Ok (true, d).

End WithLog.

End DataReader.

(* ================================================================= *)
(** * main.cpp

    [load_returns_csv], from the cells of the lines after the header: each
    cell has been converted to a double (0.0 when [std::stod] throws). *)

Module Main.

Definition is_empty {A : Type} (v : list A) : bool :=
  match v with [] => true | _ => false end.

(** The test of lines 55-58 and the [push_back]. *)
Definition keep_row (data : list (list double)) (row : list double)
  : list (list double) :=
  if negb (is_empty row) &&
     (is_empty data || Nat.eqb (length row) (length (hd [] data)))
  then data ++ [row]
  else data.

(** [None] is the [std::runtime_error] "No valid data"; otherwise the
    outcome is that of the constructor [Matrix(data)]. *)
Definition load_returns_csv (lines : list (list double))
  : option (outcome Matrix.t) :=
  let data := fold_left keep_row lines [] in
  if is_empty data then None else Some (Matrix.of_rows data).

(** Lines 163-164 of [main]: the portfolio of the loaded returns. *)
Definition load_portfolio (lines : list (list double))
  : option (outcome Portfolio.t) :=
  match load_returns_csv lines with
  | None => None
  | Some r => Some (returns <- r ;; Portfolio.new returns)
  end.

End Main.

(* ================================================================= *)
(** * The formulas of the specification

    Sections 4.3 and 4.4 of the specification, written on doubles.  A sum
    over the assets is the running sum in index order, as
    [std::accumulate] computes it. *)

Module Spec.

Import Constraints.

(** [sum_penalty = |sum(w) - 1|] *)
Definition sum_penalty (w : list double) : double :=
  abs (accumulate w 0 - 1).

(** [bounds_penalty = sum_i max(0, lower - w_i) + max(0, w_i - upper)],
    each asset adding its two terms to the running sum in turn. *)
Definition bounds_penalty (lower upper : double) (w : list double) : double :=
  fold_left (fun acc wi =>
    acc + std_max 0 (lower - wi) + std_max 0 (wi - upper)) w 0.

(** The target is the "unconstrained" sentinel, the most negative
    representable value. *)
Definition is_sentinel (target : double) : bool := target =? DBL_LOWEST.

(** The test of the code for an expected return that reaches the target up
    to the tolerance: [expected_return + epsilon] is not below the target
    (the comparison of the fitness function and of
    [validate_target_return]). *)
Definition reaches_target (expected_return target : double) : bool :=
  negb (expected_return + EPSILON <? target).

(** [target_penalty]: 0 when the target is the sentinel or the expected
    return reaches it, otherwise [target - expected_return]. *)
Definition target_penalty (target expected_return : double) : double :=
  if is_sentinel target || reaches_target expected_return target then 0
  else target - expected_return.

(** Section 4.3 of the specification word for word:
    [expected_return >= target - epsilon].  In double arithmetic this is
    another test than [reaches_target]: the two differ by the rounding of
    the sum and of the difference, and on a NaN. *)
Definition reaches_target_as_worded (expected_return target : double) : bool :=
  target - EPSILON <=? expected_return.

Definition target_penalty_as_worded (target expected_return : double) : double :=
  if is_sentinel target || reaches_target_as_worded expected_return target
  then 0
  else target - expected_return.




(** Lower-triangular: all entries above the diagonal are 0. *)
Definition lower_triangular (L : Matrix.t) : Prop :=
  forall i j, (i < j)%nat -> (j < Matrix.cols L)%nat -> Matrix.get L i j = 0.

(** The diagonal term of the factorisation at row [i]: [data[i][i]] minus
    the accumulated inner-product sum of row [i] of [L]. *)
Definition pivot (A L : Matrix.t) (i : nat) : double :=
  Matrix.get A i i - Matrix.inner_sum L i i.

Definition symmetric (A : Matrix.t) : Prop :=
  forall i j, Matrix.get A i j = Matrix.get A j i.

End Spec.

(* ================================================================= *)
(** * Concrete inputs *)

Module Examples.

(** The returns matrix of the specification's scenario: 4 periods, 3 assets. *)
Definition scenario_returns : Matrix.t :=
  Matrix.mk 4 3
    [[0.01; 0.02; -0.01]; [0.02; 0.01; 0.00]; [-0.01; 0.03; 0.02]; [0.00; 0.01; 0.01]].

(** One asset returning +1 then -1: mean 0, variance 2. *)
Definition zero_mean_returns : Matrix.t := Matrix.mk 2 1 [[1]; [-1]].

(** A constant return of 1e300 next to an asset of tiny variance. *)
Definition huge_mean_returns : Matrix.t :=
  Matrix.mk 2 2 [[1e300; 1e-11]; [1e300; -1e-11]].

(** The portfolio that [Portfolio(R)] builds (an empty one if it throws). *)
Definition portfolio_of (R : Matrix.t) : Portfolio.t :=
  match Portfolio.new R with
  | Ok p => p
  | _ => Portfolio.mk R Matrix.empty [] 0
  end.

(** The optimiser with the default arguments of its constructor. *)
Definition default_config (p : Portfolio.t) : GeneticOptimiser.config :=
  {| GeneticOptimiser.portfolio := p;
     GeneticOptimiser.population_size := 100;
     GeneticOptimiser.generations := 1000;
     GeneticOptimiser.mutation_rate := 0.05;
     GeneticOptimiser.crossover_rate := 0.7;
     GeneticOptimiser.lower_bound := 0;
     GeneticOptimiser.upper_bound := 1;
     GeneticOptimiser.target_return := DBL_LOWEST;
     GeneticOptimiser.sum_penalty_multiplier := 100;
     GeneticOptimiser.bounds_penalty_multiplier := 100;
     GeneticOptimiser.target_return_penalty_multiplier := 1000;
     GeneticOptimiser.risk_free_rate_ := 0 |}.

(** The same with a target return and the multipliers that main.cpp passes
    for a single run. *)
Definition target_config (p : Portfolio.t) (target : double)
  : GeneticOptimiser.config :=
  {| GeneticOptimiser.portfolio := p;
     GeneticOptimiser.population_size := 100;
     GeneticOptimiser.generations := 1000;
     GeneticOptimiser.mutation_rate := 0.05;
     GeneticOptimiser.crossover_rate := 0.7;
     GeneticOptimiser.lower_bound := 0;
     GeneticOptimiser.upper_bound := 1;
     GeneticOptimiser.target_return := target;
     GeneticOptimiser.sum_penalty_multiplier := 1000;
     GeneticOptimiser.bounds_penalty_multiplier := 1000;
     GeneticOptimiser.target_return_penalty_multiplier := 5000;
     GeneticOptimiser.risk_free_rate_ := 0 |}.

(** A deterministic stand-in for the generator: a counter, from which each
    distribution derives its draw. *)
Definition counter_source : random_source :=
  {| rng := nat;
     uniform_real := fun g => (double_of_size (g mod 7 + 1) / 8, S g);
     uniform_index := fun n g => (Nat.modulo g n, S g);
     bernoulli := fun p g => (double_of_size (g mod 4) / 4 <? p, S g);
     normal_dist := unit;
     normal_init := tt;
     normal_draw := fun _ g => ((double_of_size (g mod 5) - 2) * 0.05, tt, S g) |}.

(** A population of four over the scenario's portfolio. *)
Definition small_config (gens : nat) : GeneticOptimiser.config :=
  {| GeneticOptimiser.portfolio := portfolio_of scenario_returns;
     GeneticOptimiser.population_size := 4;
     GeneticOptimiser.generations := gens;
     GeneticOptimiser.mutation_rate := 0.3;
     GeneticOptimiser.crossover_rate := 0.7;
     GeneticOptimiser.lower_bound := 0;
     GeneticOptimiser.upper_bound := 1;
     GeneticOptimiser.target_return := 0.01;
     GeneticOptimiser.sum_penalty_multiplier := 1000;
     GeneticOptimiser.bounds_penalty_multiplier := 1000;
     GeneticOptimiser.target_return_penalty_multiplier := 5000;
     GeneticOptimiser.risk_free_rate_ := 0 |}.

(** One asset returning 0 then 0.00097656: mean 0.00048828. *)
Definition near_target_returns : Matrix.t :=
  Matrix.mk 2 1 [[0]; [0.00097656]].

(** A target that the mean of [near_target_returns] reaches by the test of
    the code and misses by [expected_return >= target - epsilon]. *)
Definition near_target : double := 0.00048828 + Constraints.EPSILON.

Definition near_target_config : GeneticOptimiser.config :=
  target_config (portfolio_of near_target_returns) near_target.

(** [small_config 0] with both bounds at 0: every clipped weight is 0. *)
Definition pinned_config : GeneticOptimiser.config :=
  {| GeneticOptimiser.portfolio := portfolio_of scenario_returns;
     GeneticOptimiser.population_size := 4;
     GeneticOptimiser.generations := 0;
     GeneticOptimiser.mutation_rate := 0.3;
     GeneticOptimiser.crossover_rate := 0.7;
     GeneticOptimiser.lower_bound := 0;
     GeneticOptimiser.upper_bound := 0;
     GeneticOptimiser.target_return := 0.01;
     GeneticOptimiser.sum_penalty_multiplier := 1000;
     GeneticOptimiser.bounds_penalty_multiplier := 1000;
     GeneticOptimiser.target_return_penalty_multiplier := 5000;
     GeneticOptimiser.risk_free_rate_ := 0 |}.

End Examples.

(* ================================================================= *)
(** * Sentences of the specification that fail, as they are stated *)

(** The two halves of the specification's sentence on [sharpe_ratio],
    read as equivalences on every constructed portfolio. *)
Definition sharpe_infinite_iff : Prop :=
  forall R p w rf ret risk s,
    Portfolio.new R = Ok p ->
    length w = Portfolio.num_assets p ->
    Portfolio.portfolio_return p w = Ok ret ->
    Portfolio.portfolio_risk p w = Ok risk ->
    Portfolio.sharpe_ratio p w rf = Ok s ->
    (s = DBL_INF <-> (risk <? 1e-12) = true /\ (1e-12 <? ret - rf) = true).

Definition sharpe_zero_iff : Prop :=
  forall R p w rf ret risk s,
    Portfolio.new R = Ok p ->
    length w = Portfolio.num_assets p ->
    Portfolio.portfolio_return p w = Ok ret ->
    Portfolio.portfolio_risk p w = Ok risk ->
    Portfolio.sharpe_ratio p w rf = Ok s ->
    (s = 0 <-> (risk <? 1e-12) = true /\ (ret - rf <=? 1e-12) = true).


(** The two properties of renormalisation in the specification. *)
Definition normalize_idempotent : Prop :=
  forall w v,
    (1e-12 <? accumulate w 0) = true ->
    Utils.normalize w = Ok v ->
    Utils.normalize v = Ok v.

Definition normalize_sums_to_one : Prop :=
  forall w v,
    (1e-12 <? accumulate w 0) = true ->
    Utils.normalize w = Ok v ->
    (abs (accumulate v 0 - 1) <=? 1e-9) = true.

(** The second property, of the inputs whose running sum does not
    overflow. *)
Definition normalize_sums_to_one_finite : Prop :=
  forall w v,
    is_finite (accumulate w 0) = true ->
    (1e-12 <? accumulate w 0) = true ->
    Utils.normalize w = Ok v ->
    (abs (accumulate v 0 - 1) <=? 1e-9) = true.

(** The sentence of the specification on the Cholesky factor, for every
    square matrix and for every symmetric one. *)
Definition cholesky_reconstructs : Prop :=
  forall A L,
    Matrix.rows A = Matrix.cols A ->
    Matrix.cholesky_decompose A = Ok L ->
    Spec.lower_triangular L /\ Matrix.dot L (Matrix.transpose L) = Ok A.

Definition cholesky_reconstructs_symmetric : Prop :=
  forall A L,
    Matrix.rows A = Matrix.cols A ->
    Spec.symmetric A ->
    Matrix.cholesky_decompose A = Ok L ->
    Matrix.dot L (Matrix.transpose L) = Ok A.

(** The formula of the fitness with the target penalty of section 4.3 as
    it is worded. *)
Definition fitness_as_worded : Prop :=
  forall (c : GeneticOptimiser.config) (w : list double)
         (sharpe expected_return : double),
    length w = Portfolio.num_assets (GeneticOptimiser.portfolio c) ->
    Portfolio.sharpe_ratio (GeneticOptimiser.portfolio c) w
      (GeneticOptimiser.risk_free_rate_ c) = Ok sharpe ->
    is_finite sharpe = true ->
    Portfolio.portfolio_return (GeneticOptimiser.portfolio c) w =
      Ok expected_return ->
    GeneticOptimiser.calculate_fitness c w =
      Ok (- sharpe +
          (Spec.sum_penalty w * GeneticOptimiser.sum_penalty_multiplier c +
           Spec.bounds_penalty (GeneticOptimiser.lower_bound c)
             (GeneticOptimiser.upper_bound c) w
             * GeneticOptimiser.bounds_penalty_multiplier c +
           Spec.target_penalty_as_worded (GeneticOptimiser.target_return c)
             expected_return
             * GeneticOptimiser.target_return_penalty_multiplier c)).

(** The sentence of the specification on a run of no generation: over a
    constructed portfolio [optimise] ends in the size-mismatch error of
    [portfolio_return]. *)
Definition zero_generations_size_mismatch : Prop :=
  forall (R : random_source) (c : GeneticOptimiser.config) (g0 : rng R)
         (Rm : Matrix.t),
    Portfolio.new Rm = Ok (GeneticOptimiser.portfolio c) ->
    GeneticOptimiser.generations c = 0%nat ->
    GeneticOptimiser.optimise R c g0 =
      Throw (invalid_argument ReturnSizeMismatch).

(* ================================================================= *)
(** * Vocabulary of the proofs *)

(** A binary64 value of sign [s]; one that is moreover not a zero. *)
Definition signed_as (s : bool) (x : spec_float) : Prop :=
  match x with
  | S754_zero s' | S754_infinity s' | S754_finite s' _ _ => s' = s
  | S754_nan => False
  end.

Definition nonzero_as (s : bool) (x : spec_float) : Prop :=
  match x with
  | S754_infinity s' | S754_finite s' _ _ => s' = s
  | _ => False
  end.

(** The mantissa of [m * 2^e] rewritten at the smaller exponent [ez]. *)
Definition aligned (m : positive) (e ez : Z) : Z :=
  Z.pos (fst (shl_align m e ez)).

Definition pzero : spec_float := S754_zero false.

(** A double other than [-0.0]. *)
Definition not_negzero (x : double) : Prop := Prim2SF x <> S754_zero true.

(** The class invariant of an [n] by [n] matrix. *)
Definition square (n : nat) (L : Matrix.t) : Prop :=
  Matrix.rows L = n /\ Matrix.cols L = n /\
  length (Matrix.data L) = n /\
  forall r, (r < n)%nat -> length (nth r (Matrix.data L) []) = n.

(** The Cholesky recurrence at the cell [(i, j)], [j <= i]. *)
Definition factor_cell (A L : Matrix.t) (i j : nat) : Prop :=
  if Nat.eqb i j
  then (Spec.pivot A L i <=? 0) = false /\
       Matrix.get L i i = sqrt (Spec.pivot A L i)
  else Matrix.get L i j =
       (Matrix.get A i j - Matrix.inner_sum L i j) / Matrix.get L j j.

(** The cells written before the pass [(i, j)] of the two loops. *)
Definition written (i j a b : nat) : Prop :=
  (a < i /\ b <= a)%nat \/ (a = i /\ b < j)%nat.

(** The invariant of the two loops of [cholesky_decompose]: the cells
    written so far satisfy the recurrence, the others are still 0. *)
Definition partial_factor (n : nat) (A L : Matrix.t) (i j : nat) : Prop :=
  square n L /\
  (forall a b, written i j a b -> factor_cell A L a b) /\
  (forall a b, ~ written i j a b -> Matrix.get L a b = 0).

(** An integer that orders the valid binary64 values as [SFcompare] does:
    the value scaled by [2^1074], an infinity beyond every finite value. *)
Definition rank (x : spec_float) : Z :=
  match x with
  | S754_zero _ | S754_nan => 0
  | S754_infinity s => cond_Zopp s (2 ^ 2200)
  | S754_finite s m e => cond_Zopp s (Z.pos m * 2 ^ (e - emin))
  end.

Definition order_key (x : double) : Z := rank (Prim2SF x).

(** A value that is not below zero: a NaN, a zero of either sign, or a
    positive value. *)
Definition not_negative (x : spec_float) : Prop :=
  match x with
  | S754_infinity true | S754_finite true _ _ => False
  | _ => True
  end.

(** The class invariant of an [r] by [c] matrix. *)
Definition shaped (r c : nat) (m : Matrix.t) : Prop :=
  Matrix.rows m = r /\ Matrix.cols m = c /\
  length (Matrix.data m) = r /\
  forall i, (i < r)%nat -> length (nth i (Matrix.data m) []) = c.

(** The class invariant of [Matrix], established by its constructors. *)
Definition well_formed (m : Matrix.t) : Prop :=
  shaped (Matrix.rows m) (Matrix.cols m) m.


(** A population whose individuals have [n] genes each. *)
Definition genes (n : nat) (population : list (list double)) : Prop :=
  Forall (fun ind => length ind = n) population.

(** The return that [processAndSaveDailyReturns] computes at position [i]
    of a line, from the line before it. *)
Definition returns_at (log : double -> double)
    (prev_prices curr_prices : list double) (i : nat) : double :=
  DataReader.log_ret log (nth i prev_prices 0) (nth i curr_prices 0).

(** No line has more prices than the line before it, [prev_prices] being
    the line before the first. *)
Definition steady (prev_prices : list double) (lines : list (list double))
  : Prop :=
  forall k, (k < length lines)%nat ->
    (length (nth k lines []) <= length (nth k (prev_prices :: lines) []))%nat.

(** Concrete configurations and states for the properties of a run. *)
(** The real number that a finite binary64 value stands for (0 for an
    infinity or a NaN), on which the rounding errors are stated. *)
Module Exact.

Import Reals.
Local Open Scope R_scope.

Definition pow2 (e : Z) : R := powerRZ 2 e.

Definition sgn (s : bool) : R := if s then -1 else 1.

Definition SF2R (x : spec_float) : R :=
  match x with
  | S754_finite s m e => IZR (cond_Zopp s (Z.pos m)) * pow2 e
  | _ => 0
  end.

Definition val (x : float) : R := SF2R (Prim2SF x).

Definition finite_sf (x : spec_float) : bool :=
  match x with
  | S754_zero _ | S754_finite _ _ _ => true
  | _ => false
  end.

(** The exact sum of the values of a list. *)
Definition rsum (l : list float) : R :=
  fold_right (fun x acc => val x + acc) 0 l.

(** One rounding adds a relative error of at most [u] or, below the normal
    range, an absolute error of at most [eta]. *)
Definition u : R := pow2 (-52).

Definition eta : R := pow2 (-1074).

(** The bound proved on the deviation from 1 of the running sum of
    normalised weights: 8e-10. *)
Definition delta : R := / 1250000000.

End Exact.

Module Runs.

(** The configuration of [Examples.small_config] with no individual. *)
Definition empty_population_config : GeneticOptimiser.config :=
  {| GeneticOptimiser.portfolio := Examples.portfolio_of Examples.scenario_returns;
     GeneticOptimiser.population_size := 0;
     GeneticOptimiser.generations := 3;
     GeneticOptimiser.mutation_rate := 0.3;
     GeneticOptimiser.crossover_rate := 0.7;
     GeneticOptimiser.lower_bound := 0;
     GeneticOptimiser.upper_bound := 1;
     GeneticOptimiser.target_return := 0.01;
     GeneticOptimiser.sum_penalty_multiplier := 1000;
     GeneticOptimiser.bounds_penalty_multiplier := 1000;
     GeneticOptimiser.target_return_penalty_multiplier := 5000;
     GeneticOptimiser.risk_free_rate_ := 0 |}.

(** The first two states of the run of [Examples.small_config] over
    [Examples.counter_source], and the fitnesses of the first population. *)
Definition state_of
    (o : outcome (GeneticOptimiser.state Examples.counter_source))
  : GeneticOptimiser.state Examples.counter_source :=
  match o with
  | Ok st => st
  | _ => GeneticOptimiser.Build_state Examples.counter_source [] [] DBL_MAX 0%nat
  end.




(** A population of twenty, the least with an elite. *)
Definition elite_config : GeneticOptimiser.config :=
  {| GeneticOptimiser.portfolio := Examples.portfolio_of Examples.scenario_returns;
     GeneticOptimiser.population_size := 20;
     GeneticOptimiser.generations := 1;
     GeneticOptimiser.mutation_rate := 0.3;
     GeneticOptimiser.crossover_rate := 0.7;
     GeneticOptimiser.lower_bound := 0;
     GeneticOptimiser.upper_bound := 1;
     GeneticOptimiser.target_return := 0.01;
     GeneticOptimiser.sum_penalty_multiplier := 1000;
     GeneticOptimiser.bounds_penalty_multiplier := 1000;
     GeneticOptimiser.target_return_penalty_multiplier := 5000;
     GeneticOptimiser.risk_free_rate_ := 0 |}.

Definition elite_first_state : GeneticOptimiser.state Examples.counter_source :=
  state_of (GeneticOptimiser.initial_state Examples.counter_source
              elite_config 0%nat).

Definition elite_second_state : GeneticOptimiser.state Examples.counter_source :=
  state_of (GeneticOptimiser.generation Examples.counter_source
              elite_config elite_first_state).

Definition elite_fitnesses : list double :=
  match GeneticOptimiser.evaluate elite_config
          (GeneticOptimiser.population elite_first_state) with
  | Ok fitnesses => fitnesses
  | _ => []
  end.

End Runs.

(* ================================================================= *)
(** * Facts of binary64 arithmetic

    What the proofs below use of IEEE arithmetic, derived from the bit-level
    specification of the operations ([SpecFloat]) to which the primitive
    floats are tied by [FloatAxioms]. *)

Module FloatFacts.

Local Open Scope Z_scope.

(** ** Shifting and digit counts *)

Lemma shr_1_m (r : shr_record) :
  0 <= shr_m r -> shr_m (shr_1 r) = shr_m r / 2.
Proof.
  destruct r as [m b s]; simpl; intros Hm.
  destruct m as [|p|p]; try lia; [reflexivity|].
  destruct p as [p|p|]; simpl.
  - change (Z.pos p~1) with (2 * Z.pos p + 1). apply Z.div_unique with (r := 1); lia.
  - change (Z.pos p~0) with (2 * Z.pos p). apply Z.div_unique with (r := 0); lia.
  - reflexivity.
Qed.

Lemma pow2_xI (p : positive) : 2 ^ Z.pos p~1 = 2 * (2 ^ Z.pos p * 2 ^ Z.pos p).
Proof.
  change (Z.pos p~1) with (2 * Z.pos p + 1). rewrite Z.pow_add_r by lia.
  rewrite Z.pow_twice_r, Z.pow_1_r. ring.
Qed.

Lemma pow2_xO (p : positive) : 2 ^ Z.pos p~0 = 2 ^ Z.pos p * 2 ^ Z.pos p.
Proof. change (Z.pos p~0) with (2 * Z.pos p). apply Z.pow_twice_r. Qed.

Lemma pow2_pos (n : Z) : 0 <= n -> 0 < 2 ^ n.
Proof. intros; apply Z.pow_pos_nonneg; lia. Qed.

Lemma iter_shr_1_m (p : positive) : forall r,
  0 <= shr_m r -> shr_m (iter_pos shr_1 p r) = shr_m r / 2 ^ Zpos p.
Proof.
  assert (Hnn : forall r, 0 <= shr_m r -> 0 <= shr_m (shr_1 r)).
  { intros r Hr. rewrite shr_1_m by exact Hr. apply Z.div_pos; lia. }
  induction p as [p IH|p IH|]; intros r Hr.
  - rewrite pow2_xI. cbn [iter_pos].
    assert (Hp := pow2_pos (Z.pos p) ltac:(lia)).
    assert (H1 := Hnn r Hr).
    assert (H2 : 0 <= shr_m (iter_pos shr_1 p (shr_1 r))).
    { rewrite IH by exact H1. apply Z.div_pos; assumption. }
    rewrite IH by exact H2. rewrite IH by exact H1. rewrite shr_1_m by exact Hr.
    rewrite Z.div_div by lia. rewrite Z.div_div by nia. reflexivity.
  - rewrite pow2_xO. cbn [iter_pos].
    assert (Hp := pow2_pos (Z.pos p) ltac:(lia)).
    assert (H2 : 0 <= shr_m (iter_pos shr_1 p r)).
    { rewrite IH by exact Hr. apply Z.div_pos; assumption. }
    rewrite IH by exact H2. rewrite IH by exact Hr.
    rewrite Z.div_div by lia. reflexivity.
  - cbn [iter_pos]. rewrite shr_1_m by exact Hr. reflexivity.
Qed.

Lemma digits2_pos_bounds (m : positive) :
  2 ^ (Zpos (digits2_pos m) - 1) <= Zpos m < 2 ^ Zpos (digits2_pos m).
Proof.
  induction m as [m IH|m IH|]; cbn [digits2_pos].
  - rewrite Pos2Z.inj_succ.
    replace (Z.succ (Z.pos (digits2_pos m)) - 1) with (Z.succ (Z.pos (digits2_pos m) - 1)) by lia.
    rewrite !Z.pow_succ_r by lia. change (Z.pos m~1) with (2 * Z.pos m + 1). lia.
  - rewrite Pos2Z.inj_succ.
    replace (Z.succ (Z.pos (digits2_pos m)) - 1) with (Z.succ (Z.pos (digits2_pos m) - 1)) by lia.
    rewrite !Z.pow_succ_r by lia. change (Z.pos m~0) with (2 * Z.pos m). lia.
  - simpl. lia.
Qed.

Lemma shr_record_of_loc_m m l : shr_m (shr_record_of_loc m l) = m.
Proof. destruct l as [|[ | | ]]; reflexivity. Qed.

(** The mantissa that [shr_fexp] leaves. *)
Lemma shr_fexp_nonneg m e l :
  0 <= m -> 0 <= shr_m (fst (shr_fexp prec emax m e l)).
Proof.
  intros Hm. unfold shr_fexp, shr.
  destruct (fexp prec emax (Zdigits2 m + e) - e) as [|p|p]; simpl;
    rewrite ?iter_shr_1_m; rewrite ?shr_record_of_loc_m; try exact Hm.
  apply Z.div_pos; [exact Hm | apply Z.pow_pos_nonneg; lia].
Qed.

Lemma shr_fexp_pos m e l :
  0 < m -> emin <= e ->
  0 < shr_m (fst (shr_fexp prec emax m e l)) /\
  emin <= snd (shr_fexp prec emax m e l).
Proof.
  intros Hm He. unfold shr_fexp, shr.
  destruct m as [|m|m]; try lia. simpl Zdigits2.
  destruct (fexp prec emax (Z.pos (digits2_pos m) + e) - e) as [|p|p] eqn:Hn; simpl;
    rewrite ?iter_shr_1_m; rewrite ?shr_record_of_loc_m; try lia.
  unfold fexp, emin, SpecFloat.emin, prec, emax in *.
  assert (Hp : Z.pos p = Z.pos (digits2_pos m) - 53) by lia.
  destruct (digits2_pos_bounds m) as [Hlo _].
  split; [|lia].
  apply Z.div_str_pos. split; [apply Z.pow_pos_nonneg; lia|].
  eapply Z.le_trans; [|exact Hlo]. apply Z.pow_le_mono_r; lia.
Qed.

Lemma round_nearest_even_ge m l : m <= round_nearest_even m l.
Proof. destruct l as [|[ | | ]]; simpl; try lia. destruct (Z.even m); lia. Qed.

Lemma binary_round_aux_sign s m e l :
  0 <= m -> signed_as s (binary_round_aux prec emax s m e l).
Proof.
  intros Hm. unfold binary_round_aux.
  pose proof (shr_fexp_nonneg m e l Hm) as H1.
  destruct (shr_fexp prec emax m e l) as [r1 e1]. simpl in H1.
  pose proof (round_nearest_even_ge (shr_m r1) (loc_of_shr_record r1)) as H2.
  assert (H3 : 0 <= round_nearest_even (shr_m r1) (loc_of_shr_record r1)) by lia.
  pose proof (shr_fexp_nonneg _ e1 loc_Exact H3) as H4.
  destruct (shr_fexp prec emax _ e1 loc_Exact) as [r2 e2]. simpl in H4.
  destruct (shr_m r2) as [|q|q]; [reflexivity| |lia].
  destruct (Z.leb _ _); reflexivity.
Qed.

Lemma binary_round_aux_nonzero s m e l :
  0 < m -> emin <= e -> nonzero_as s (binary_round_aux prec emax s m e l).
Proof.
  intros Hm He. unfold binary_round_aux.
  destruct (shr_fexp_pos m e l Hm He) as [H1 H1e].
  destruct (shr_fexp prec emax m e l) as [r1 e1]. simpl in H1, H1e.
  pose proof (round_nearest_even_ge (shr_m r1) (loc_of_shr_record r1)) as H2.
  assert (H3 : 0 < round_nearest_even (shr_m r1) (loc_of_shr_record r1)) by lia.
  destruct (shr_fexp_pos _ e1 loc_Exact H3 H1e) as [H4 _].
  destruct (shr_fexp prec emax _ e1 loc_Exact) as [r2 e2]. simpl in H4.
  destruct (shr_m r2) as [|q|q]; [lia| |lia].
  destruct (Z.leb _ _); reflexivity.
Qed.

(** ** Comparison of valid values *)

Lemma SFcompare_refl x : x <> S754_nan -> SFcompare x x = Some Eq.
Proof.
  destruct x as [s|s| |s m e]; simpl; intros H; try congruence.
  - destruct s; reflexivity.
  - rewrite Z.compare_refl, Pos.compare_cont_refl. destruct s; reflexivity.
Qed.

Lemma SFcompare_antisym x y :
  SFcompare y x = option_map CompOpp (SFcompare x y).
Proof.
  destruct x as [sx|sx| |sx mx ex], y as [sy|sy| |sy my ey]; simpl;
    try reflexivity; try (destruct sx; reflexivity); try (destruct sy; reflexivity);
    try (destruct sx, sy; reflexivity).
  f_equal. rewrite (Z.compare_antisym ex ey).
  destruct sx, sy; try reflexivity;
    destruct (ex ?= ey) eqn:He; simpl; try reflexivity;
    rewrite (Pos.compare_cont_antisym mx my Eq); reflexivity.
Qed.

Lemma shift_pos_value (d m : positive) :
  Z.pos (Pos.iter xO m d) = Z.pos m * 2 ^ Z.pos d.
Proof.
  revert m. induction d as [d IH|d IH|]; intros m.
  - rewrite pow2_xI. cbn [Pos.iter].
    rewrite (Pos2Z.inj_xO (Pos.iter xO (Pos.iter xO m d) d)).
    rewrite IH, IH. ring.
  - rewrite pow2_xO. cbn [Pos.iter]. rewrite IH, IH. ring.
  - cbn [Pos.iter]. rewrite (Pos2Z.inj_xO m), Z.pow_1_r. ring.
Qed.

Lemma aligned_value m e ez : ez <= e -> aligned m e ez = Z.pos m * 2 ^ (e - ez).
Proof.
  intros H. unfold aligned, shl_align.
  destruct (ez - e) as [|d|d] eqn:Hd; try lia; cbn [fst].
  - replace (e - ez) with 0 by lia. simpl; lia.
  - rewrite shift_pos_value. replace (e - ez) with (Z.pos d) by lia. reflexivity.
Qed.

Lemma bounded_facts m e :
  bounded prec emax m e = true ->
  emin <= e /\ Z.pos m < 2 ^ 53 /\ (emin < e -> 2 ^ 52 <= Z.pos m).
Proof.
  unfold bounded, canonical_mantissa, fexp, emin, SpecFloat.emin, prec, emax.
  intros H. apply andb_true_iff in H. destruct H as [H _].
  apply Z.eqb_eq in H.
  destruct (digits2_pos_bounds m) as [Hlo Hhi].
  split; [lia|]. split.
  - eapply Z.lt_le_trans; [exact Hhi|]. apply Z.pow_le_mono_r; lia.
  - intros He. replace (Z.pos (digits2_pos m)) with 53 in Hlo by lia. exact Hlo.
Qed.

Lemma aligned_lt mx ex my ey :
  bounded prec emax mx ex = true -> bounded prec emax my ey = true ->
  ex < ey -> aligned mx ex ex < aligned my ey ex.
Proof.
  intros Hx Hy Hlt.
  rewrite !aligned_value by lia. rewrite Z.sub_diag, Z.mul_1_r.
  destruct (bounded_facts _ _ Hx) as (Hxe & Hxm & _).
  destruct (bounded_facts _ _ Hy) as (_ & _ & Hym).
  specialize (Hym ltac:(lia)).
  assert (H2 : 2 ^ 1 <= 2 ^ (ey - ex)) by (apply Z.pow_le_mono_r; lia).
  change (2 ^ 53) with (2 ^ 52 * 2 ^ 1) in Hxm. nia.
Qed.

Lemma SFcompare_aligned sx mx ex sy my ey :
  bounded prec emax mx ex = true -> bounded prec emax my ey = true ->
  SFcompare (S754_finite sx mx ex) (S754_finite sy my ey) =
  Some (cond_Zopp sx (aligned mx ex (Z.min ex ey)) ?=
        cond_Zopp sy (aligned my ey (Z.min ex ey))).
Proof.
  intros Hx Hy. cbn [SFcompare]. f_equal.
  assert (Hpx : forall ez, 0 < aligned mx ex ez) by (intros; unfold aligned; lia).
  assert (Hpy : forall ez, 0 < aligned my ey ez) by (intros; unfold aligned; lia).
  destruct (ex ?= ey) eqn:He.
  - apply Z.compare_eq in He. subst ey. rewrite Z.min_id.
    rewrite !aligned_value by lia. rewrite Z.sub_diag, !Z.mul_1_r.
    destruct sx, sy; reflexivity.
  - rewrite Z.compare_lt_iff in He. rewrite Z.min_l by lia.
    pose proof (aligned_lt _ _ _ _ Hx Hy He) as Hlt.
    specialize (Hpx ex).
    destruct sx, sy; cbn [cond_Zopp]; symmetry;
      first [apply Z.compare_lt_iff; lia | apply Z.compare_gt_iff; lia].
  - rewrite Z.compare_gt_iff in He. rewrite Z.min_r by lia.
    pose proof (aligned_lt _ _ _ _ Hy Hx He) as Hlt.
    specialize (Hpy ey).
    destruct sx, sy; cbn [cond_Zopp]; symmetry;
      first [apply Z.compare_lt_iff; lia | apply Z.compare_gt_iff; lia].
Qed.

(** ** Signs of rounded results *)

Lemma binary_round_nonzero s m e :
  emin <= e -> nonzero_as s (binary_round prec emax s m e).
Proof.
  intros He. unfold binary_round.
  destruct (shl_align m e (fexp prec emax (Z.pos (digits2_pos m) + e)))
    as [mz ez] eqn:Hs.
  apply binary_round_aux_nonzero; [lia|].
  unfold shl_align in Hs.
  destruct (fexp prec emax (Z.pos (digits2_pos m) + e) - e) eqn:Hd;
    inversion Hs; subst; try exact He.
  unfold fexp, emin, SpecFloat.emin, prec, emax in *. lia.
Qed.

Lemma binary_normalize_shape D e :
  emin <= e ->
  match D ?= 0 with
  | Eq => binary_normalize prec emax D e false = S754_zero false
  | Gt => nonzero_as false (binary_normalize prec emax D e false)
  | Lt => nonzero_as true (binary_normalize prec emax D e false)
  end.
Proof.
  intros He. destruct D as [|p|p]; cbn [Z.compare binary_normalize];
    [reflexivity | |]; apply binary_round_nonzero; exact He.
Qed.

Lemma nonzero_as_pos x : nonzero_as false x -> SFltb pzero x = true.
Proof. destruct x as [s|s| |s m e]; simpl; intros H; subst; tauto || reflexivity. Qed.

Lemma nonzero_as_neg x : nonzero_as true x -> SFltb pzero x = false.
Proof. destruct x as [s|s| |s m e]; simpl; intros H; subst; tauto || reflexivity. Qed.

Lemma signed_as_nonneg x : signed_as false x -> SFleb pzero x = true.
Proof. destruct x as [s|s| |s m e]; simpl; intros H; subst; tauto || reflexivity. Qed.

(** [x < y] exactly when [y - x] is positive (gradual underflow). *)
Lemma SFsub_pos x y :
  valid_binary x = true -> valid_binary y = true ->
  SFltb pzero (SF64sub y x) = SFltb x y.
Proof.
  intros Hx Hy.
  destruct x as [sx|sx| |sx mx ex], y as [sy|sy| |sy my ey];
    try reflexivity;
    try (destruct sx; reflexivity); try (destruct sy; reflexivity);
    try (destruct sx, sy; reflexivity).
  unfold SF64sub, SFsub, SFltb. cbn [valid_binary] in Hx, Hy.
  rewrite (SFcompare_aligned sx mx ex sy my ey Hx Hy).
  fold (aligned my ey (Z.min ey ex)). fold (aligned mx ex (Z.min ey ex)).
  rewrite (Z.min_comm ey ex).
  set (X := cond_Zopp sx (aligned mx ex (Z.min ex ey))).
  set (Y := cond_Zopp sy (aligned my ey (Z.min ex ey))).
  assert (He : emin <= Z.min ex ey).
  { destruct (bounded_facts _ _ Hx) as [? _], (bounded_facts _ _ Hy) as [? _]. lia. }
  pose proof (binary_normalize_shape (Y - X) _ He) as Hs.
  fold (SFltb pzero (binary_normalize prec emax (Y - X) (Z.min ex ey) false)).
  destruct (Y - X ?= 0) eqn:Hc.
  - rewrite Hs. apply Z.compare_eq in Hc.
    replace (X ?= Y) with Eq by (symmetry; apply Z.compare_eq_iff; lia). reflexivity.
  - rewrite (nonzero_as_neg _ Hs). rewrite Z.compare_lt_iff in Hc.
    replace (X ?= Y) with Gt by (symmetry; apply Z.compare_gt_iff; lia). reflexivity.
  - rewrite (nonzero_as_pos _ Hs). rewrite Z.compare_gt_iff in Hc.
    replace (X ?= Y) with Lt by (symmetry; apply Z.compare_lt_iff; lia). reflexivity.
Qed.

(** Adding [+0] changes nothing but [-0], and a sum is [-0] only if its
    first term is. *)
Lemma SFadd_pzero_r x : x <> S754_zero true -> SF64add x pzero = x.
Proof. destruct x as [[|]|s| |s m e]; simpl; congruence. Qed.

(** The square root of a non-negative value is non-negative. *)
Lemma SFsqrt_nonneg x :
  SFleb pzero x = true -> SFleb pzero (SF64sqrt x) = true.
Proof.
  intros H.
  destruct x as [[|]|[|]| |[|] m e]; try discriminate H; try reflexivity.
  unfold SF64sqrt, SFsqrt, SFsqrt_core_binary.
  match goal with |- context [Z.sqrtrem ?a] => set (m' := a) end.
  assert (Hm' : 0 <= m').
  { unfold m'. match goal with |- 0 <= match ?sh with _ => _ end =>
      destruct sh end; try lia. apply Z.shiftl_nonneg. lia. }
  pose proof (Z.sqrtrem_spec m' Hm') as Hq.
  destruct (Z.sqrtrem m') as [q r].
  apply signed_as_nonneg, binary_round_aux_sign. lia.
Qed.

Lemma SFcompare_not_nan x y c :
  SFcompare x y = Some c -> x <> S754_nan /\ y <> S754_nan.
Proof. destruct x, y; simpl; intros H; split; congruence. Qed.

Lemma SFadd_negzero_inv x d :
  valid_binary x = true -> valid_binary d = true ->
  SF64add x d = S754_zero true -> x = S754_zero true.
Proof.
  intros Hx Hd.
  destruct x as [[|]|sx| |sx mx ex], d as [[|]|sd| |sd md ed]; try discriminate;
    try reflexivity; try (destruct sx; discriminate); try (destruct sx, sd; discriminate).
  unfold SF64add, SFadd. cbn [valid_binary] in Hx, Hd.
  assert (He : emin <= Z.min ex ed).
  { destruct (bounded_facts _ _ Hx) as [? _], (bounded_facts _ _ Hd) as [? _]. lia. }
  match goal with |- binary_normalize _ _ ?D _ _ = _ -> _ =>
    pose proof (binary_normalize_shape D _ He) as Hs; destruct (D ?= 0) end;
  intros E; rewrite E in Hs; try discriminate; contradiction.
Qed.

(** ** Division by one *)

Lemma div_eucl_exact a b : 0 < b -> Z.div_eucl (a * b) b = (a, 0).
Proof.
  intros Hb. pose proof (Z.div_mul a b ltac:(lia)) as Hq.
  pose proof (Z.mod_mul a b ltac:(lia)) as Hr.
  unfold Z.div, Z.modulo in Hq, Hr.
  destruct (Z.div_eucl (a * b) b) as [q r]. simpl in *. congruence.
Qed.

Lemma binary_round_aux_exact s m e :
  bounded prec emax m e = true ->
  binary_round_aux prec emax s (Z.pos m) e loc_Exact = S754_finite s m e.
Proof.
  intros Hv. unfold bounded, canonical_mantissa in Hv.
  apply andb_true_iff in Hv. destruct Hv as [Hc Hmax]. apply Z.eqb_eq in Hc.
  unfold binary_round_aux, shr_fexp. cbn [Zdigits2].
  rewrite Hc, Z.sub_diag. cbn [shr shr_record_of_loc shr_m loc_of_shr_record round_nearest_even].
  cbn [Zdigits2]. rewrite Hc, Z.sub_diag. cbn [shr shr_record_of_loc shr_m].
  rewrite Hmax. reflexivity.
Qed.

Lemma binary_round_aux_exact_double s m e :
  bounded prec emax m e = true -> emin < e ->
  binary_round_aux prec emax s (Z.pos m~0) (e - 1) loc_Exact = S754_finite s m e.
Proof.
  intros Hv He. assert (Hb := Hv). unfold bounded, canonical_mantissa in Hb.
  apply andb_true_iff in Hb. destruct Hb as [Hc Hmax]. apply Z.eqb_eq in Hc.
  unfold binary_round_aux, shr_fexp. cbn [Zdigits2 digits2_pos].
  assert (Hs : fexp prec emax (Z.pos (Pos.succ (digits2_pos m)) + (e - 1)) - (e - 1) = 1).
  { rewrite Pos2Z.inj_succ.
    replace (Z.succ (Z.pos (digits2_pos m)) + (e - 1)) with (Z.pos (digits2_pos m) + e) by lia.
    rewrite Hc. lia. }
  rewrite Hs. cbn [shr shr_record_of_loc iter_pos shr_1 shr_m loc_of_shr_record orb].
  replace (e - 1 + 1) with e by lia.
  cbn [round_nearest_even Zdigits2]. rewrite Hc, Z.sub_diag. cbn [shr shr_record_of_loc shr_m].
  rewrite Hmax. reflexivity.
Qed.

Lemma SFdiv_one x :
  valid_binary x = true ->
  SF64div x (S754_finite false 4503599627370496 (-52)) = x.
Proof.
  intros Hv. destruct x as [[|]|[|]| |s m e]; try reflexivity.
  cbn [valid_binary] in Hv.
  unfold SF64div, SFdiv, SFdiv_core_binary.
  change (Zdigits2 (Z.pos 4503599627370496)) with 53.
  cbn [Zdigits2].
  assert (Hb := Hv). unfold bounded, canonical_mantissa in Hb.
  apply andb_true_iff in Hb. destruct Hb as [Hc Hmax].
  apply Z.eqb_eq in Hc. apply Z.leb_le in Hmax.
  replace (xorb s false) with s by (destruct s; reflexivity).
  assert (Hcases :
    Z.min (fexp prec emax (Z.pos (digits2_pos m) + e - (53 + -52))) (e - -52) = e \/
    (emin < e /\
     Z.min (fexp prec emax (Z.pos (digits2_pos m) + e - (53 + -52))) (e - -52) = e - 1)).
  { unfold fexp, emin, SpecFloat.emin, prec, emax in *. lia. }
  destruct Hcases as [E | [He E]]; rewrite E.
  - replace (e - -52 - e) with 52 by lia.
    rewrite Z.shiftl_mul_pow2 by lia.
    change (2 ^ 52) with 4503599627370496.
    rewrite div_eucl_exact by lia.
    change (new_location 4503599627370496 0) with loc_Exact.
    apply binary_round_aux_exact, Hv.
  - replace (e - -52 - (e - 1)) with 53 by lia.
    rewrite Z.shiftl_mul_pow2 by lia.
    change (2 ^ 53) with (2 * 4503599627370496).
    rewrite Z.mul_assoc. rewrite div_eucl_exact by lia.
    change (new_location 4503599627370496 0) with loc_Exact.
    replace (Z.pos m * 2) with (Z.pos m~0) by lia.
    apply binary_round_aux_exact_double; assumption.
Qed.

End FloatFacts.

(** ** The same facts on doubles *)

Import FloatFacts.

Lemma ltb_sub_pos (x y : float) : (x <? y) = (0 <? y - x).
Proof.
  rewrite !ltb_spec, sub_spec. symmetry.
  apply SFsub_pos; apply Prim2SF_valid.
Qed.

Lemma add_zero_r (x : float) : not_negzero x -> x + 0 = x.
Proof.
  intros H. apply Prim2SF_inj. rewrite add_spec. apply SFadd_pzero_r, H.
Qed.

Lemma sqrt_nonneg (x : float) : (0 <=? x) = true -> (0 <=? sqrt x) = true.
Proof.
  rewrite !leb_spec, sqrt_spec. apply SFsqrt_nonneg.
Qed.

Lemma Prim2SF_one : Prim2SF 1 = S754_finite false 4503599627370496 (-52).
Proof. reflexivity. Qed.

Lemma div_one (x : float) : x / 1 = x.
Proof.
  apply Prim2SF_inj. rewrite div_spec, Prim2SF_one.
  apply SFdiv_one, Prim2SF_valid.
Qed.

Lemma is_nan_spec (x : float) : is_nan x = true <-> Prim2SF x = S754_nan.
Proof.
  unfold is_nan. rewrite eqb_spec. unfold SFeqb. split.
  - intros H. destruct (Prim2SF x) eqn:E; try reflexivity;
      rewrite SFcompare_refl in H by discriminate; discriminate.
  - intros ->. reflexivity.
Qed.

Lemma is_nan_false_spec (x : float) : is_nan x = false <-> Prim2SF x <> S754_nan.
Proof.
  rewrite <- is_nan_spec. destruct (is_nan x); split; congruence.
Qed.

Lemma eqb_nan_l (x y : float) : is_nan x = true -> (x =? y) = false.
Proof. intros H. apply is_nan_spec in H. rewrite eqb_spec, H. reflexivity. Qed.

Lemma ltb_leb (x y : float) : (x <? y) = true -> (x <=? y) = true.
Proof.
  rewrite ltb_spec, leb_spec. unfold SFltb, SFleb.
  destruct (SFcompare _ _) as [[ | | ]|]; congruence.
Qed.

Lemma leb_refl (x : float) : is_nan x = false -> (x <=? x) = true.
Proof.
  intros H. apply is_nan_false_spec in H. rewrite leb_spec. unfold SFleb.
  rewrite SFcompare_refl by exact H. reflexivity.
Qed.

Lemma ltb_not_nan (x y : float) :
  (x <? y) = true -> is_nan x = false /\ is_nan y = false.
Proof.
  rewrite ltb_spec. unfold SFltb. rewrite !is_nan_false_spec.
  destruct (SFcompare _ _) as [c|] eqn:E; [|discriminate].
  intros _. eapply SFcompare_not_nan, E.
Qed.

Lemma eqb_infinity (x : float) : (x =? infinity) = true -> x = infinity.
Proof.
  rewrite eqb_spec. change (Prim2SF infinity) with (S754_infinity false).
  intros H. apply Prim2SF_inj. change (Prim2SF infinity) with (S754_infinity false).
  destruct (Prim2SF x) as [s|[|]| |s m e]; simpl in H; try discriminate; try reflexivity.
Qed.

Lemma is_finite_facts (x : float) :
  is_finite x = true -> is_nan x = false /\ (x =? infinity) = false.
Proof.
  unfold is_finite, is_infinity. intros H.
  apply negb_true_iff, orb_false_iff in H. destruct H as [Hn Hi].
  split; [exact Hn|].
  destruct (x =? infinity) eqn:E; [|reflexivity].
  apply eqb_infinity in E. subst x. discriminate Hi.
Qed.

(** Every double that exceeds some double is the sentinel or above it. *)
Lemma above_lowest (x t : float) :
  (x <? t) = true -> (DBL_LOWEST <? t) = negb (t =? DBL_LOWEST).
Proof.
  rewrite !ltb_spec, eqb_spec. unfold SFltb, SFeqb.
  rewrite (SFcompare_antisym (Prim2SF DBL_LOWEST) (Prim2SF t)).
  pose proof (Prim2SF_valid t) as Hv.
  change (Prim2SF DBL_LOWEST) with (S754_finite true 9007199254740991 971).
  destruct (Prim2SF t) as [s|[|]| |[|] m e]; try reflexivity.
  - destruct (Prim2SF x) as [?|[|]| |[|] ? ?]; discriminate.
  - destruct (Prim2SF x) as [?|[|]| |[|] ? ?]; discriminate.
  - intros _. cbn [valid_binary] in Hv.
    destruct (bounded_facts _ _ Hv) as (_ & Hm & _).
    unfold bounded in Hv. apply andb_true_iff in Hv. destruct Hv as [_ He].
    apply Z.leb_le in He. unfold emax, prec in He.
    cbn [SFcompare option_map].
    destruct (971 ?= e)%Z eqn:Hc.
    + apply Z.compare_eq in Hc. subst e. 
      change (Pos.compare_cont Eq 9007199254740991 m) with (9007199254740991 ?= m)%positive.
      destruct (9007199254740991 ?= m)%positive eqn:Hp; try reflexivity.
      assert (Hlt : (9007199254740991 < m)%positive) by exact Hp.
      change (2 ^ 53)%Z with 9007199254740992%Z in Hm. lia.
    + assert (Hlt : (971 < e)%Z) by exact Hc. lia.
    + reflexivity.
Qed.

Lemma lowest_absorbs : DBL_LOWEST + Constraints.EPSILON = DBL_LOWEST.
Proof. reflexivity. Qed.

Lemma add_not_negzero (x d : float) : not_negzero x -> not_negzero (x + d).
Proof.
  unfold not_negzero. intros H E. apply H. rewrite add_spec in E.
  eapply SFadd_negzero_inv; eauto using Prim2SF_valid.
Qed.

Lemma zero_not_negzero : not_negzero 0.
Proof. discriminate. Qed.

Lemma leb_not_gt (x y : float) : (x <=? y) = true -> (y <? x) = false.
Proof.
  rewrite leb_spec, ltb_spec. unfold SFleb, SFltb.
  rewrite (SFcompare_antisym (Prim2SF x) (Prim2SF y)).
  destruct (SFcompare _ _) as [[ | | ]|]; simpl; congruence.
Qed.

Lemma std_max_zero_nonneg (v : double) : (0 <=? std_max 0 v) = true.
Proof.
  unfold std_max. destruct (0 <? v) eqn:E; [apply ltb_leb, E | reflexivity].
Qed.

(* ================================================================= *)
(** * Outcomes, loops and matrices *)

(** ** Outcomes *)

Lemma Ok_inj {A : Type} (a b : A) : Ok a = Ok b -> a = b.
Proof.
  intros H.
  apply (f_equal (fun o => match o with Ok x => x | _ => a end)) in H.
  exact H.
Qed.

(** Taking apart a hypothesis [(x <- c ;; k) = Ok r]: the call [c]
    returned.  The equation on [c] is kept, a returned tuple is split. *)
Ltac bind_ok H :=
  lazymatch type of H with
  | bind ?c _ = Ok _ =>
      let E := fresh "E" in
      destruct c as [?| |] eqn:E; cbn [bind] in H;
      [|discriminate H|discriminate H];
      repeat match type of H with
             | context [match ?p with pair _ _ => _ end] => is_var p; destruct p
             end
  end.

(** ** Loops *)

Lemma for_from_app {S : Type} (body : nat -> S -> outcome S) (a b : nat) :
  forall start s,
    for_from start (a + b) body s =
    (s' <- for_from start a body s ;; for_from (start + a) b body s').
Proof.
  induction a as [|a IH]; intros start s.
  - cbn. rewrite Nat.add_0_r. reflexivity.
  - cbn [Nat.add for_from]. destruct (body start s) as [s1| |]; cbn [bind];
      try reflexivity.
    rewrite IH. rewrite Nat.add_succ_r. reflexivity.
Qed.

Lemma forM_succ {S : Type} (body : nat -> S -> outcome S) (n : nat) (s : S) :
  forM (Datatypes.S n) body s = (s' <- forM n body s ;; body n s').
Proof.
  unfold forM. replace (Datatypes.S n) with (n + 1)%nat by lia.
  rewrite for_from_app. cbn [Nat.add].
  destruct (for_from 0 n body s) as [s'| |]; cbn [bind for_from]; try reflexivity.
  destruct (body n s'); reflexivity.
Qed.

(** A loop fails at its first failing pass. *)
Lemma forM_throw {S : Type} (body : nat -> S -> outcome S) (e : exn) (n : nat) :
  forall s,
    forM n body s = Throw e <->
    exists k s_k, (k < n)%nat /\ forM k body s = Ok s_k /\ body k s_k = Throw e.
Proof.
  induction n as [|n IH]; intros s.
  - split; [discriminate | intros (k & ? & Hk & _); lia].
  - rewrite forM_succ. split.
    + destruct (forM n body s) as [s'| |] eqn:Hn; cbn [bind]; intros H.
      * exists n, s'. auto.
      * injection H as ->. apply IH in Hn.
        destruct Hn as (k & sk & Hk & H1 & H2). exists k, sk. auto.
      * discriminate H.
    + intros (k & sk & Hk & H1 & H2).
      destruct (Nat.eq_dec k n) as [->|Hne].
      * rewrite H1. exact H2.
      * assert (Hn : forM n body s = Throw e) by (apply IH; exists k, sk; split; [lia|auto]).
        rewrite Hn. reflexivity.
Qed.

Lemma forM_defined {S : Type} (body : nat -> S -> outcome S) (n : nat) :
  (forall k s, body k s <> Undefined) -> forall s, forM n body s <> Undefined.
Proof.
  intros Hb. induction n as [|n IH]; intros s; [discriminate|].
  rewrite forM_succ. specialize (IH s).
  destruct (forM n body s) as [s'| |]; cbn [bind]; [apply Hb | discriminate | exact IH].
Qed.

(** An invariant indexed by the pass number. *)
Lemma forM_invariant {S : Type} (body : nat -> S -> outcome S)
    (P : nat -> S -> Prop) (n : nat) :
  (forall k s s', (k < n)%nat -> P k s -> body k s = Ok s' -> P (Datatypes.S k) s') ->
  forall s s', P 0%nat s -> forM n body s = Ok s' -> P n s'.
Proof.
  induction n as [|n IH]; intros Hstep s s' H0 Hrun.
  - cbn in Hrun. injection Hrun as <-. exact H0.
  - rewrite forM_succ in Hrun.
    destruct (forM n body s) as [s1| |] eqn:Hn; cbn [bind] in Hrun;
      try discriminate Hrun.
    apply (Hstep n s1 s'); [lia | | exact Hrun].
    apply (IH (fun k a b Hk => Hstep k a b (Nat.lt_lt_succ_r _ _ Hk)) s s1 H0 Hn).
Qed.

Lemma forM_ext {S : Type} (body body' : nat -> S -> outcome S) (n : nat) :
  (forall k s, (k < n)%nat -> body k s = body' k s) ->
  forall s, forM n body s = forM n body' s.
Proof.
  induction n as [|n IH]; intros Hb s; [reflexivity|].
  rewrite !forM_succ. rewrite IH by (intros; apply Hb; lia).
  destruct (forM n body' s); cbn [bind]; try reflexivity. apply Hb. lia.
Qed.

Lemma for_succ {S : Type} (body : nat -> S -> S) (n : nat) (s : S) :
  for_ (Datatypes.S n) body s = body n (for_ n body s).
Proof.
  unfold for_. rewrite seq_S, fold_left_app. reflexivity.
Qed.

Lemma for_ext {S : Type} (body body' : nat -> S -> S) (n : nat) :
  (forall k s, (k < n)%nat -> body k s = body' k s) ->
  forall s, for_ n body s = for_ n body' s.
Proof.
  induction n as [|n IH]; intros Hb s; [reflexivity|].
  rewrite !for_succ. rewrite IH by (intros; apply Hb; lia). apply Hb. lia.
Qed.

Lemma for_invariant {S : Type} (body : nat -> S -> S) (P : S -> Prop) (n : nat) :
  (forall k s, (k < n)%nat -> P s -> P (body k s)) ->
  forall s, P s -> P (for_ n body s).
Proof.
  induction n as [|n IH]; intros Hb s Hs; [exact Hs|].
  rewrite for_succ. apply Hb; [lia|]. apply IH; [|exact Hs].
  intros k s' Hk. apply Hb. lia.
Qed.

(** ** Vectors and matrices *)

Lemma length_upd {A : Type} (l : list A) : forall i x, length (upd l i x) = length l.
Proof. induction l as [|h t IH]; intros [|i] x; cbn; auto. Qed.

Lemma nth_upd_same {A : Type} (l : list A) : forall i x d,
  (i < length l)%nat -> nth i (upd l i x) d = x.
Proof.
  induction l as [|h t IH]; intros [|i] x d H; cbn in *; try lia; auto with arith.
Qed.

Lemma nth_upd_other {A : Type} (l : list A) : forall i j x d,
  i <> j -> nth j (upd l i x) d = nth j l d.
Proof.
  induction l as [|h t IH]; intros [|i] [|j] x d H; cbn; auto; congruence.
Qed.

Lemma square_zeros (n : nat) : square n (Matrix.zeros n n).
Proof.
  unfold square, Matrix.zeros. cbn. rewrite repeat_length.
  repeat split; auto. intros r Hr.
  rewrite nth_repeat_lt by exact Hr. apply repeat_length.
Qed.

Lemma get_zeros (r c i j : nat) : Matrix.get (Matrix.zeros r c) i j = 0.
Proof.
  unfold Matrix.get, Matrix.zeros. cbn.
  destruct (Nat.lt_ge_cases i r) as [H|H].
  - rewrite nth_repeat_lt by exact H.
    destruct (Nat.lt_ge_cases j c) as [H'|H'].
    + apply nth_repeat_lt, H'.
    + apply nth_overflow. rewrite repeat_length. exact H'.
  - rewrite (nth_overflow _ []) by (rewrite repeat_length; exact H).
    destruct j; reflexivity.
Qed.

Lemma square_set (n : nat) (L : Matrix.t) (i j : nat) (x : double) :
  square n L -> square n (Matrix.set L i j x).
Proof.
  intros (Hr & Hc & Hl & Hrow). unfold square, Matrix.set. cbn.
  rewrite length_upd. repeat split; auto.
  intros r Hrn. destruct (Nat.eq_dec i r) as [->|Hne].
  - rewrite nth_upd_same by lia. rewrite length_upd. auto.
  - rewrite nth_upd_other by exact Hne. auto.
Qed.

Lemma get_set_same (n : nat) (L : Matrix.t) (i j : nat) (x : double) :
  square n L -> (i < n)%nat -> (j < n)%nat -> Matrix.get (Matrix.set L i j x) i j = x.
Proof.
  intros (Hr & Hc & Hl & Hrow) Hi Hj. unfold Matrix.get, Matrix.set. cbn.
  rewrite nth_upd_same by lia. apply nth_upd_same. rewrite Hrow; assumption.
Qed.

Lemma get_set_other (L : Matrix.t) (i j a b : nat) (x : double) :
  a <> i \/ b <> j -> Matrix.get (Matrix.set L i j x) a b = Matrix.get L a b.
Proof.
  intros H. unfold Matrix.get, Matrix.set. cbn.
  destruct (Nat.eq_dec i a) as [->|Hne].
  - destruct H as [H|H]; [congruence|].
    destruct (Nat.lt_ge_cases a (length (Matrix.data L))) as [Ha|Ha].
    + rewrite nth_upd_same by exact Ha. apply nth_upd_other. congruence.
    + rewrite (nth_overflow (upd _ _ _)) by (rewrite length_upd; exact Ha).
      rewrite (nth_overflow (Matrix.data L)) by exact Ha. reflexivity.
  - rewrite nth_upd_other by exact Hne. reflexivity.
Qed.

Lemma inner_sum_ext (L L' : Matrix.t) (i j : nat) :
  (forall k, (k < j)%nat -> Matrix.get L i k = Matrix.get L' i k) ->
  (forall k, (k < j)%nat -> Matrix.get L j k = Matrix.get L' j k) ->
  Matrix.inner_sum L i j = Matrix.inner_sum L' i j.
Proof.
  intros Hi Hj. unfold Matrix.inner_sum. apply for_ext.
  intros k s Hk. rewrite Hi, Hj by exact Hk. reflexivity.
Qed.

(** ** The class invariant of a portfolio *)

Lemma mean_per_column_length (m : Matrix.t) :
  Matrix.rows m <> 0%nat -> Matrix.cols m <> 0%nat ->
  length (Matrix.mean_per_column m) = Matrix.cols m.
Proof.
  intros Hr Hc. unfold Matrix.mean_per_column.
  apply Nat.eqb_neq in Hr, Hc. rewrite Hr, Hc. cbn [orb].
  rewrite length_map.
  apply (for_invariant _ (fun mean => length mean = Matrix.cols m)).
  - intros j mean _ Hmean.
    apply (for_invariant _ (fun mean => length mean = Matrix.cols m));
      [|exact Hmean].
    intros i mean' _ H. rewrite length_upd. exact H.
  - apply repeat_length.
Qed.

Lemma covariance_matrix_square (m cov : Matrix.t) :
  Matrix.covariance_matrix m = Ok cov -> square (Matrix.cols m) cov.
Proof.
  unfold Matrix.covariance_matrix.
  destruct (Nat.ltb (Matrix.rows m) 2); [discriminate|].
  intros H. injection H as <-.
  apply (for_invariant _ (square (Matrix.cols m))); [|apply square_zeros].
  intros i cov' _ Hcov.
  apply (for_invariant _ (square (Matrix.cols m))); [|exact Hcov].
  intros j cov'' _ H. apply square_set, H.
Qed.

(** The class invariant of a constructed portfolio: one mean per asset and
    a covariance matrix of that size, so that every read of
    [portfolio_return] and [portfolio_variance] is in range. *)
Lemma new_invariant (Rm : Matrix.t) (p : Portfolio.t) :
  Portfolio.new Rm = Ok p ->
  Portfolio.num_assets p = Matrix.cols Rm /\
  length (Portfolio.means p) = Portfolio.num_assets p /\
  square (Portfolio.num_assets p) (Portfolio.cov_matrix p).
Proof.
  unfold Portfolio.new.
  destruct (Nat.ltb (Matrix.rows Rm) 2) eqn:Hrows; [discriminate|].
  destruct (Nat.eqb (Matrix.cols Rm) 0) eqn:Hcols; [discriminate|].
  destruct (Matrix.covariance_matrix Rm) as [cov| |] eqn:Hcov; cbn [bind];
    try discriminate.
  intros H. injection H as <-. cbn.
  apply Nat.ltb_ge in Hrows. apply Nat.eqb_neq in Hcols.
  split; [reflexivity|]. split.
  - apply mean_per_column_length; lia.
  - apply covariance_matrix_square, Hcov.
Qed.

(** ** The invariant of the Cholesky loops *)

Lemma cholesky_cell_cases (A L : Matrix.t) (i j : nat) :
  (Nat.eqb i j = true /\ (Spec.pivot A L i <=? 0) = true /\
   Matrix.cholesky_cell A i j L = Throw (runtime_error NotPositiveDefinite)) \/
  (Nat.eqb i j = true /\ (Spec.pivot A L i <=? 0) = false /\
   Matrix.cholesky_cell A i j L = Ok (Matrix.set L i j (sqrt (Spec.pivot A L i)))) \/
  (Nat.eqb i j = false /\
   Matrix.cholesky_cell A i j L =
   Ok (Matrix.set L i j
         ((Matrix.get A i j - Matrix.inner_sum L i j) / Matrix.get L j j))).
Proof.
  unfold Matrix.cholesky_cell. cbv zeta.
  destruct (Nat.eqb i j) eqn:E; [|auto].
  apply Nat.eqb_eq in E. subst j. fold (Spec.pivot A L i).
  destruct (Spec.pivot A L i <=? 0); auto.
Qed.

Lemma written_succ (i j a b : nat) :
  written i (S j) a b <-> written i j a b \/ (a = i /\ b = j).
Proof. unfold written. lia. Qed.

Lemma partial_factor_cell (n : nat) (A L L' : Matrix.t) (i j : nat) :
  (j <= i)%nat -> (i < n)%nat ->
  partial_factor n A L i j ->
  Matrix.cholesky_cell A i j L = Ok L' ->
  partial_factor n A L' i (S j).
Proof.
  intros Hji Hin (Hsq & Hdone & Hrest) Hcell.
  assert (Hset : exists v, L' = Matrix.set L i j v /\
            factor_cell A (Matrix.set L i j v) i j).
  { destruct (cholesky_cell_cases A L i j) as [(E & Hp & H)|[(E & Hp & H)|(E & H)]];
      rewrite H in Hcell; try discriminate Hcell;
      injection Hcell as <-; eexists; (split; [reflexivity|]);
      unfold factor_cell; rewrite E.
    - apply Nat.eqb_eq in E. subst j.
      assert (Hpiv : Spec.pivot A (Matrix.set L i i (sqrt (Spec.pivot A L i))) i
                     = Spec.pivot A L i).
      { unfold Spec.pivot. f_equal. apply inner_sum_ext;
          intros k Hk; apply get_set_other; lia. }
      rewrite Hpiv. split; [exact Hp|].
      apply (get_set_same n); assumption.
    - apply Nat.eqb_neq in E.
      rewrite (get_set_same n) by (assumption || lia).
      rewrite (get_set_other L i j j j) by lia.
      f_equal. f_equal. apply inner_sum_ext;
        intros k Hk; symmetry; apply get_set_other; lia. }
  destruct Hset as (v & -> & Hnew).
  split; [apply square_set, Hsq|]. split.
  - intros a b Hw. apply written_succ in Hw.
    destruct Hw as [Hw|[-> ->]]; [|exact Hnew].
    specialize (Hdone a b Hw). unfold factor_cell in *.
    assert (Hab : (b <= a)%nat /\ (a <= i)%nat /\ (a = i -> b < j)%nat)
      by (unfold written in Hw; lia).
    assert (Hsum : Matrix.inner_sum (Matrix.set L i j v) a b = Matrix.inner_sum L a b).
    { apply inner_sum_ext; intros k Hk; apply get_set_other; lia. }
    destruct (Nat.eqb a b) eqn:E.
    + apply Nat.eqb_eq in E. subst b. unfold Spec.pivot in *.
      rewrite Hsum. rewrite get_set_other by lia. exact Hdone.
    + apply Nat.eqb_neq in E.
      rewrite Hsum. rewrite !get_set_other by lia. exact Hdone.
  - intros a b Hw. rewrite written_succ in Hw.
    rewrite get_set_other by lia. apply Hrest. tauto.
Qed.

Lemma partial_factor_row (n : nat) (A L L' : Matrix.t) (i : nat) :
  (i < n)%nat ->
  partial_factor n A L i 0 ->
  Matrix.cholesky_row A i L = Ok L' ->
  partial_factor n A L' (S i) 0.
Proof.
  intros Hin H0 Hrow. unfold Matrix.cholesky_row in Hrow.
  pose proof (forM_invariant (Matrix.cholesky_cell A i)
                (fun j M => partial_factor n A M i j) (S i)) as Hinv.
  assert (H : partial_factor n A L' i (S i)).
  { apply (Hinv (fun j M M' Hj HP HM =>
              partial_factor_cell n A M M' i j ltac:(lia) Hin HP HM) L L' H0 Hrow). }
  destruct H as (Hsq & Hdone & Hrest).
  split; [exact Hsq|]. split.
  - intros a b Hw. apply Hdone. unfold written in *. lia.
  - intros a b Hw. apply Hrest. unfold written in *. lia.
Qed.

Lemma partial_factor_all (n : nat) (A L : Matrix.t) :
  forM n (Matrix.cholesky_row A) (Matrix.zeros n n) = Ok L ->
  partial_factor n A L n 0.
Proof.
  intros Hrun.
  apply (forM_invariant (Matrix.cholesky_row A)
           (fun i M => partial_factor n A M i 0) n
           (fun i M M' Hi HP HM => partial_factor_row n A M M' i Hi HP HM)
           (Matrix.zeros n n) L); [|exact Hrun].
  split; [apply square_zeros|]. split.
  - intros a b Hw. unfold written in Hw. lia.
  - intros a b _. apply get_zeros.
Qed.

Lemma cholesky_cell_defined (A : Matrix.t) (i j : nat) (L : Matrix.t) :
  Matrix.cholesky_cell A i j L <> Undefined.
Proof.
  destruct (cholesky_cell_cases A L i j) as [(_ & _ & H)|[(_ & _ & H)|(_ & H)]];
    rewrite H; discriminate.
Qed.

Lemma cholesky_cell_throw (A : Matrix.t) (i j : nat) (L : Matrix.t) (e : exn) :
  Matrix.cholesky_cell A i j L = Throw e <->
  e = runtime_error NotPositiveDefinite /\ i = j /\ (Spec.pivot A L i <=? 0) = true.
Proof.
  destruct (cholesky_cell_cases A L i j) as [(E & Hp & H)|[(E & Hp & H)|(E & H)]];
    rewrite H; split.
  - intros He. injection He as <-. apply Nat.eqb_eq in E. auto.
  - intros (-> & _). reflexivity.
  - discriminate.
  - intros (_ & _ & Hp'). congruence.
  - discriminate.
  - intros (_ & -> & _). rewrite Nat.eqb_refl in E. discriminate E.
Qed.

Lemma cholesky_row_throw (A : Matrix.t) (i : nat) (L : Matrix.t) (e : exn) :
  Matrix.cholesky_row A i L = Throw e <->
  e = runtime_error NotPositiveDefinite /\
  exists L', forM i (Matrix.cholesky_cell A i) L = Ok L' /\
             (Spec.pivot A L' i <=? 0) = true.
Proof.
  unfold Matrix.cholesky_row. rewrite forM_throw. split.
  - intros (j & L' & Hj & Hrun & Hcell).
    apply cholesky_cell_throw in Hcell. destruct Hcell as (-> & <- & Hp).
    split; [reflexivity|]. exists L'. auto.
  - intros (-> & L' & Hrun & Hp). exists i, L'.
    split; [lia|]. split; [exact Hrun|]. apply cholesky_cell_throw. auto.
Qed.

Lemma cholesky_row_defined (A : Matrix.t) (i : nat) (L : Matrix.t) :
  Matrix.cholesky_row A i L <> Undefined.
Proof. apply forM_defined. intros k s. apply cholesky_cell_defined. Qed.

(** The entries of the matrix above its diagonal are never read. *)
Lemma cholesky_reads_lower (A A' : Matrix.t) :
  Matrix.rows A' = Matrix.rows A -> Matrix.cols A' = Matrix.cols A ->
  (forall i j, (j <= i)%nat -> Matrix.get A' i j = Matrix.get A i j) ->
  Matrix.cholesky_decompose A' = Matrix.cholesky_decompose A.
Proof.
  intros Hr Hc Hlow. unfold Matrix.cholesky_decompose. rewrite Hr, Hc.
  destruct (negb (Nat.eqb (Matrix.rows A) (Matrix.cols A))); [reflexivity|].
  apply forM_ext. intros i L _. unfold Matrix.cholesky_row.
  apply forM_ext. intros j M Hj. unfold Matrix.cholesky_cell.
  rewrite !Hlow by lia. reflexivity.
Qed.

(** C5 fails as stated.  The factorisation of [[1, 5], [0, 1]] succeeds
    with the identity matrix, whose product with its transpose is not the
    input: the entry 5 above the diagonal is never read.  On the symmetric
    positive-definite matrix [[2]] the factor is [sqrt 2], whose square in
    double arithmetic is 2.0000000000000004. *)
Lemma cholesky_reconstruction_fails :
  ~ cholesky_reconstructs /\ ~ cholesky_reconstructs_symmetric.
Proof.
  split; intros H.
  - destruct (H (Matrix.mk 2 2 [[1; 5]; [0; 1]]) (Matrix.mk 2 2 [[1; 0]; [0; 1]])
                eq_refl eq_refl) as [_ E].
    apply (f_equal (fun o => match o with
                             | Ok M => Matrix.get M 0 1 =? 5
                             | _ => false
                             end)) in E.
    vm_compute in E. discriminate E.
  - assert (HL : exists L, Matrix.cholesky_decompose (Matrix.mk 1 1 [[2]]) = Ok L)
      by (eexists; vm_compute; reflexivity).
    destruct HL as [L HL].
    assert (Hsym : Spec.symmetric (Matrix.mk 1 1 [[2]])).
    { intros [|[|i]] [|[|j]]; try reflexivity; destruct i; reflexivity. }
    pose proof (H (Matrix.mk 1 1 [[2]]) L eq_refl Hsym HL) as E.
    apply (f_equal (fun o => match o with Ok M => M | _ => Matrix.empty end)) in HL.
    cbv beta iota in HL. subst L.
    apply (f_equal (fun o => match o with
                             | Ok M => Matrix.get M 0 0 =? 2
                             | _ => false
                             end)) in E.
    vm_compute in E. discriminate E.
Qed.

(** C5, as amended.  [cholesky_decompose] throws the invalid-argument error
    exactly when the matrix is not square.  On a square matrix it throws
    the not-positive-definite error exactly when, at some row [i], once the
    rows before [i] and the entries of row [i] left of the diagonal are
    computed, the diagonal term [data[i][i]] minus the accumulated
    inner-product sum is [<= 0]; it fails in no other way.  When it
    succeeds, [L] is square of the same size, its entries above the diagonal
    are 0, and its other entries satisfy the Cholesky recurrences in double
    arithmetic: [L(i,i) = sqrt(A(i,i) - sum_k L(i,k)^2)] with a diagonal
    term that is not [<= 0], and
    [L(i,j) = (A(i,j) - sum_k L(i,k) L(j,k)) / L(j,j)] for [j < i].  The
    result depends on the lower triangle of the input only. *)
Theorem cholesky_cases (A : Matrix.t) :
  (Matrix.cholesky_decompose A = Throw (invalid_argument CholeskyNotSquare) <->
   Matrix.rows A <> Matrix.cols A) /\
  (Matrix.cholesky_decompose A = Throw (runtime_error NotPositiveDefinite) <->
   Matrix.rows A = Matrix.cols A /\
   exists i L_rows L,
     (i < Matrix.rows A)%nat /\
     forM i (Matrix.cholesky_row A)
       (Matrix.zeros (Matrix.rows A) (Matrix.rows A)) = Ok L_rows /\
     forM i (Matrix.cholesky_cell A i) L_rows = Ok L /\
     (Spec.pivot A L i <=? 0) = true) /\
  ((exists L, Matrix.cholesky_decompose A = Ok L) \/
   Matrix.cholesky_decompose A = Throw (invalid_argument CholeskyNotSquare) \/
   Matrix.cholesky_decompose A = Throw (runtime_error NotPositiveDefinite)) /\
  (forall L,
     Matrix.cholesky_decompose A = Ok L ->
     Matrix.rows L = Matrix.rows A /\ Matrix.cols L = Matrix.rows A /\
     Spec.lower_triangular L /\
     (forall i, (i < Matrix.rows A)%nat ->
        (Spec.pivot A L i <=? 0) = false /\
        Matrix.get L i i = sqrt (Spec.pivot A L i)) /\
     (forall i j, (j < i)%nat -> (i < Matrix.rows A)%nat ->
        Matrix.get L i j =
        (Matrix.get A i j - Matrix.inner_sum L i j) / Matrix.get L j j)) /\
  (forall A',
     Matrix.rows A' = Matrix.rows A -> Matrix.cols A' = Matrix.cols A ->
     (forall i j, (j <= i)%nat -> Matrix.get A' i j = Matrix.get A i j) ->
     Matrix.cholesky_decompose A' = Matrix.cholesky_decompose A).
Proof.
  set (n := Matrix.rows A).
  assert (Hloop : Matrix.rows A = Matrix.cols A ->
    Matrix.cholesky_decompose A =
    forM n (Matrix.cholesky_row A) (Matrix.zeros n n)).
  { intros E. unfold Matrix.cholesky_decompose.
    rewrite <- E, Nat.eqb_refl. reflexivity. }
  assert (Hthrow : forall e,
    forM n (Matrix.cholesky_row A) (Matrix.zeros n n) = Throw e <->
    e = runtime_error NotPositiveDefinite /\
    exists i L_rows L,
      (i < n)%nat /\
      forM i (Matrix.cholesky_row A) (Matrix.zeros n n) = Ok L_rows /\
      forM i (Matrix.cholesky_cell A i) L_rows = Ok L /\
      (Spec.pivot A L i <=? 0) = true).
  { intros e. rewrite forM_throw. split.
    - intros (i & L_rows & Hi & Hrun & Hrow).
      apply cholesky_row_throw in Hrow. destruct Hrow as (-> & L & HL & Hp).
      split; [reflexivity|]. exists i, L_rows, L. auto.
    - intros (-> & i & L_rows & L & Hi & Hrun & HL & Hp).
      exists i, L_rows. split; [exact Hi|]. split; [exact Hrun|].
      apply cholesky_row_throw. split; [reflexivity|]. exists L. auto. }
  destruct (Nat.eq_dec (Matrix.rows A) (Matrix.cols A)) as [Hsq|Hsq].
  - rewrite (Hloop Hsq).
    split; [split; [intros H; apply Hthrow in H; destruct H as [H _];
                    discriminate H | contradiction]|].
    split; [rewrite Hthrow; split;
              [intros [_ H]; split; [exact Hsq | exact H]
              | intros [_ H]; split; [reflexivity | exact H]]|].
    split.
    { assert (Hcases : forall o,
        forM n (Matrix.cholesky_row A) (Matrix.zeros n n) = o ->
        (exists L, o = Ok L) \/
        o = Throw (invalid_argument CholeskyNotSquare) \/
        o = Throw (runtime_error NotPositiveDefinite)).
      { intros [L|e|] Hrun.
        - left. exists L. reflexivity.
        - right. right. apply Hthrow in Hrun. destruct Hrun as [-> _]. reflexivity.
        - exfalso. revert Hrun. apply forM_defined. intros k s.
          apply cholesky_row_defined. }
      apply Hcases. reflexivity. }
    split; [|intros A' Hr Hc Hlow; rewrite <- (Hloop Hsq);
              apply cholesky_reads_lower; assumption].
    intros L Hrun. apply partial_factor_all in Hrun.
    destruct Hrun as ((Hr & Hc & _) & Hdone & Hrest).
    split; [exact Hr|]. split; [exact Hc|]. split.
    + intros i j Hij _. apply Hrest. unfold written. lia.
    + split.
      * intros i Hi. specialize (Hdone i i). unfold factor_cell in Hdone.
        rewrite Nat.eqb_refl in Hdone. apply Hdone. unfold written. fold n in Hi. lia.
      * intros i j Hji Hi. specialize (Hdone i j). unfold factor_cell in Hdone.
        replace (Nat.eqb i j) with false in Hdone
          by (symmetry; apply Nat.eqb_neq; lia).
        apply Hdone. unfold written. fold n in Hi. lia.
  - assert (Hfail : Matrix.cholesky_decompose A =
                    Throw (invalid_argument CholeskyNotSquare)).
    { unfold Matrix.cholesky_decompose.
      apply Nat.eqb_neq in Hsq. rewrite Hsq. reflexivity. }
    rewrite Hfail.
    split; [split; [intros _; exact Hsq | reflexivity]|].
    split; [split; [discriminate | intros [E _]; contradiction]|].
    split; [right; left; reflexivity|].
    split; [discriminate|].
    intros A' Hr Hc Hlow. rewrite <- Hfail. apply cholesky_reads_lower; assumption.
Qed.

(* ================================================================= *)
(** * Portfolio statistics *)

Section PortfolioFacts.

Variable p : Portfolio.t.
Variable w : list double.
Hypothesis size_matched : length w = Portfolio.num_assets p.

Lemma size_test : negb (Nat.eqb (length w) (Portfolio.num_assets p)) = false.
Proof. rewrite size_matched, Nat.eqb_refl. reflexivity. Qed.

Lemma portfolio_return_matched :
  exists ret, Portfolio.portfolio_return p w = Ok ret.
Proof. unfold Portfolio.portfolio_return. rewrite size_test. eauto. Qed.

Lemma portfolio_variance_matched :
  exists var, Portfolio.portfolio_variance p w = Ok var.
Proof. unfold Portfolio.portfolio_variance. rewrite size_test. eauto. Qed.

Lemma portfolio_risk_matched :
  exists risk, Portfolio.portfolio_risk p w = Ok risk.
Proof.
  unfold Portfolio.portfolio_risk.
  destruct portfolio_variance_matched as [var ->]. simpl. eauto.
Qed.

Lemma sharpe_ratio_matched (rf : double) :
  exists s, Portfolio.sharpe_ratio p w rf = Ok s.
Proof.
  unfold Portfolio.sharpe_ratio.
  destruct portfolio_return_matched as [ret ->].
  destruct portfolio_risk_matched as [risk ->]. simpl.
  destruct (risk <? 1e-12); [destruct (1e-12 <? ret - rf)|]; eauto.
Qed.

End PortfolioFacts.

(** C9.  For a weight vector of the portfolio's size, [portfolio_risk]
    returns the square root of [max(0, variance)]; the argument of the
    square root is never negative and neither is the risk, whatever the
    variance is (negative, NaN or infinite included). *)
Theorem portfolio_risk_nonneg (p : Portfolio.t) (w : list double) :
  length w = Portfolio.num_assets p ->
  exists var risk,
    Portfolio.portfolio_variance p w = Ok var /\
    Portfolio.portfolio_risk p w = Ok risk /\
    risk = sqrt (std_max 0 var) /\
    (0 <=? std_max 0 var) = true /\
    (0 <=? risk) = true.
Proof.
  intros Hsize.
  destruct (portfolio_variance_matched p w Hsize) as [var Hvar].
  exists var, (sqrt (std_max 0 var)).
  unfold Portfolio.portfolio_risk. rewrite Hvar. cbn [bind].
  repeat split; auto using std_max_zero_nonneg, sqrt_nonneg.
Qed.

(** C4, as amended.  With a risk below 1e-12, [sharpe_ratio] returns
    [+infinity] when the excess return is above 1e-12 (and only then) and
    exactly [0.0] otherwise, in particular when the excess return is at
    most 1e-12; with any other risk it returns the quotient of the excess
    return by the risk. *)
Theorem sharpe_ratio_cases (p : Portfolio.t) (w : list double) (rf : double) :
  length w = Portfolio.num_assets p ->
  exists ret risk,
    Portfolio.portfolio_return p w = Ok ret /\
    Portfolio.portfolio_risk p w = Ok risk /\
    ((risk <? 1e-12) = true -> (1e-12 <? ret - rf) = true ->
       Portfolio.sharpe_ratio p w rf = Ok DBL_INF) /\
    ((risk <? 1e-12) = true -> (ret - rf <=? 1e-12) = true ->
       Portfolio.sharpe_ratio p w rf = Ok 0) /\
    ((risk <? 1e-12) = true ->
       (Portfolio.sharpe_ratio p w rf = Ok DBL_INF <-> (1e-12 <? ret - rf) = true) /\
       (Portfolio.sharpe_ratio p w rf = Ok 0 <-> (1e-12 <? ret - rf) = false)) /\
    ((risk <? 1e-12) = false ->
       Portfolio.sharpe_ratio p w rf = Ok ((ret - rf) / risk)).
Proof.
  intros Hsize.
  destruct (portfolio_return_matched p w Hsize) as [ret Hret].
  destruct (portfolio_risk_matched p w Hsize) as [risk Hrisk].
  exists ret, risk. unfold Portfolio.sharpe_ratio.
  rewrite Hret, Hrisk. cbn [bind].
  split; [reflexivity|]. split; [reflexivity|].
  split; [intros Hlow Hex; rewrite Hlow, Hex; reflexivity|].
  split; [intros Hlow Hex; rewrite Hlow, (leb_not_gt _ _ Hex); reflexivity|].
  split; [|intros Hlow; rewrite Hlow; reflexivity].
  intros Hlow. rewrite Hlow.
  destruct (1e-12 <? ret - rf); (split; split; intros H);
    try reflexivity; try discriminate H;
    exfalso; injection H as E; apply (f_equal is_zero) in E; discriminate E.
Qed.

(** C4 fails as an equivalence.  With returns +1, -1 the excess return of
    the whole-asset portfolio is 0 and its risk is sqrt 2, so the quotient
    is exactly 0.0 without a near-zero risk; with a mean return of 1e300
    and a risk of 1.4e-11 the quotient overflows to +infinity. *)
Lemma sharpe_ratio_iff_fails : ~ sharpe_zero_iff /\ ~ sharpe_infinite_iff.
Proof.
  split; intros H.
  - assert (Hrisk : exists risk,
      Portfolio.portfolio_risk
        (Examples.portfolio_of Examples.zero_mean_returns) [1] = Ok risk /\
      (risk <? 1e-12) = false)
      by (eexists; split; vm_compute; reflexivity).
    destruct Hrisk as (risk & Hrisk & Hhigh).
    specialize (H Examples.zero_mean_returns
                  (Examples.portfolio_of Examples.zero_mean_returns)
                  [1] 0 0 risk 0 eq_refl eq_refl eq_refl Hrisk eq_refl).
    destruct H as [H _]. destruct (H eq_refl) as [Hlow _]. congruence.
  - assert (Hrisk : exists risk,
      Portfolio.portfolio_risk
        (Examples.portfolio_of Examples.huge_mean_returns) [1; 1] = Ok risk /\
      (risk <? 1e-12) = false)
      by (eexists; split; vm_compute; reflexivity).
    destruct Hrisk as (risk & Hrisk & Hhigh).
    specialize (H Examples.huge_mean_returns
                  (Examples.portfolio_of Examples.huge_mean_returns)
                  [1; 1] 0 1e300 risk DBL_INF
                  eq_refl eq_refl eq_refl Hrisk eq_refl).
    destruct H as [H _]. destruct (H eq_refl) as [Hlow _]. congruence.
Qed.

Lemma sharpe_ratio_cases_witness :
  length [1; 0; 0] =
    Portfolio.num_assets (Examples.portfolio_of Examples.scenario_returns) /\
  exists ret risk,
    Portfolio.portfolio_return
      (Examples.portfolio_of Examples.scenario_returns) [1; 0; 0] = Ok ret /\
    Portfolio.portfolio_risk
      (Examples.portfolio_of Examples.scenario_returns) [1; 0; 0] = Ok risk /\
    ((risk <? 1e-12) = true -> (1e-12 <? ret - 0) = true ->
       Portfolio.sharpe_ratio
         (Examples.portfolio_of Examples.scenario_returns) [1; 0; 0] 0 = Ok DBL_INF) /\
    ((risk <? 1e-12) = true -> (ret - 0 <=? 1e-12) = true ->
       Portfolio.sharpe_ratio
         (Examples.portfolio_of Examples.scenario_returns) [1; 0; 0] 0 = Ok 0) /\
    ((risk <? 1e-12) = true ->
       (Portfolio.sharpe_ratio
          (Examples.portfolio_of Examples.scenario_returns) [1; 0; 0] 0 = Ok DBL_INF
        <-> (1e-12 <? ret - 0) = true) /\
       (Portfolio.sharpe_ratio
          (Examples.portfolio_of Examples.scenario_returns) [1; 0; 0] 0 = Ok 0
        <-> (1e-12 <? ret - 0) = false)) /\
    ((risk <? 1e-12) = false ->
       Portfolio.sharpe_ratio
         (Examples.portfolio_of Examples.scenario_returns) [1; 0; 0] 0 =
       Ok ((ret - 0) / risk)).
Proof.
  split; [reflexivity|].
  apply (sharpe_ratio_cases
           (Examples.portfolio_of Examples.scenario_returns) [1; 0; 0] 0).
  reflexivity.
Defined.

Lemma portfolio_risk_nonneg_witness :
  length [1; 0; 0] =
    Portfolio.num_assets (Examples.portfolio_of Examples.scenario_returns) /\
  exists var risk,
    Portfolio.portfolio_variance
      (Examples.portfolio_of Examples.scenario_returns) [1; 0; 0] = Ok var /\
    Portfolio.portfolio_risk
      (Examples.portfolio_of Examples.scenario_returns) [1; 0; 0] = Ok risk /\
    risk = sqrt (std_max 0 var) /\
    (0 <=? std_max 0 var) = true /\
    (0 <=? risk) = true.
Proof.
  split; [reflexivity|].
  apply (portfolio_risk_nonneg
           (Examples.portfolio_of Examples.scenario_returns) [1; 0; 0]).
  reflexivity.
Defined.

(** A covariance entry of -1 gives the variance -1 and the risk 0. *)
Example negative_variance_risk :
  let p := Portfolio.mk (Matrix.mk 2 1 [[0]; [0]]) (Matrix.mk 1 1 [[-1]]) [0] 1 in
  Portfolio.portfolio_variance p [1] = Ok (-1) /\
  Portfolio.portfolio_risk p [1] = Ok 0.
Proof. split; reflexivity. Qed.

(* ================================================================= *)
(** * The fitness function *)

Section FitnessFacts.

Import GeneticOptimiser.

Variable c : config.
Variable w : list double.
Hypothesis size_matched : length w = Portfolio.num_assets (portfolio c).

(** On a vector of the right size the target-return block does not throw. *)
Lemma target_block_matched :
  exists ret,
    Portfolio.portfolio_return (portfolio c) w = Ok ret /\
    target_ret_penalty_block c w =
    Ok (if DBL_LOWEST + Constraints.EPSILON <? target_return c then
          if ret + Constraints.EPSILON <? target_return c
          then target_return c - ret else 0
        else 0).
Proof.
  destruct (portfolio_return_matched (portfolio c) w size_matched) as [ret Hret].
  exists ret. split; [exact Hret|].
  unfold target_ret_penalty_block.
  rewrite (size_test (portfolio c) w size_matched), Hret. cbn [bind].
  destruct (DBL_LOWEST + Constraints.EPSILON <? target_return c);
    [destruct (ret + Constraints.EPSILON <? target_return c)|]; reflexivity.
Qed.

End FitnessFacts.

(** C3.  On a vector of the portfolio's size, a Sharpe ratio of +infinity
    gives the fitness -infinity and a NaN Sharpe ratio gives the largest
    finite double, for every configuration: two optimisers over the same
    portfolio and risk-free rate agree on it whatever their bounds, target
    and penalty multipliers are. *)
Theorem fitness_sentinels (c : GeneticOptimiser.config) (w : list double) :
  length w = Portfolio.num_assets (GeneticOptimiser.portfolio c) ->
  forall sharpe,
    Portfolio.sharpe_ratio (GeneticOptimiser.portfolio c) w
      (GeneticOptimiser.risk_free_rate_ c) = Ok sharpe ->
    (sharpe = DBL_INF ->
       GeneticOptimiser.calculate_fitness c w = Ok (- DBL_INF)) /\
    (is_nan sharpe = true ->
       GeneticOptimiser.calculate_fitness c w = Ok DBL_MAX) /\
    (sharpe = DBL_INF \/ is_nan sharpe = true ->
       forall c',
         GeneticOptimiser.portfolio c' = GeneticOptimiser.portfolio c ->
         GeneticOptimiser.risk_free_rate_ c' = GeneticOptimiser.risk_free_rate_ c ->
         GeneticOptimiser.calculate_fitness c' w =
         GeneticOptimiser.calculate_fitness c w).
Proof.
  intros Hsize sharpe Hsharpe.
  assert (Hfit : forall c',
    GeneticOptimiser.portfolio c' = GeneticOptimiser.portfolio c ->
    GeneticOptimiser.risk_free_rate_ c' = GeneticOptimiser.risk_free_rate_ c ->
    (sharpe = DBL_INF ->
       GeneticOptimiser.calculate_fitness c' w = Ok (- DBL_INF)) /\
    (is_nan sharpe = true ->
       GeneticOptimiser.calculate_fitness c' w = Ok DBL_MAX)).
  { intros c' Hp Hrf.
    assert (Hsize' : length w = Portfolio.num_assets (GeneticOptimiser.portfolio c'))
      by (rewrite Hp; exact Hsize).
    destruct (target_block_matched c' w Hsize') as (ret & _ & Hblock).
    unfold GeneticOptimiser.calculate_fitness.
    rewrite Hp, Hrf, Hsharpe. cbn [bind]. rewrite Hblock. cbn [bind].
    split.
    - intros ->. reflexivity.
    - intros Hnan. rewrite (eqb_nan_l sharpe DBL_INF Hnan), Hnan. reflexivity. }
  destruct (Hfit c eq_refl eq_refl) as [Hinf Hnan].
  split; [exact Hinf|]. split; [exact Hnan|].
  intros Hcase c' Hp Hrf. destruct (Hfit c' Hp Hrf) as [Hinf' Hnan'].
  destruct Hcase as [E|E].
  - rewrite (Hinf E), (Hinf' E). reflexivity.
  - rewrite (Hnan E), (Hnan' E). reflexivity.
Qed.

Lemma fitness_sentinels_witness :
  length [1; 1] =
    Portfolio.num_assets (Examples.portfolio_of Examples.huge_mean_returns) /\
  Portfolio.sharpe_ratio (Examples.portfolio_of Examples.huge_mean_returns)
    [1; 1] 0 = Ok DBL_INF /\
  GeneticOptimiser.calculate_fitness
    (Examples.default_config (Examples.portfolio_of Examples.huge_mean_returns))
    [1; 1] = Ok (- DBL_INF).
Proof.
  split; [reflexivity|]. split; [vm_compute; reflexivity|].
  exact (proj1 (fitness_sentinels
                  (Examples.default_config
                     (Examples.portfolio_of Examples.huge_mean_returns))
                  [1; 1] eq_refl DBL_INF eq_refl) eq_refl).
Defined.

(** The bounds loop of the fitness function is the sum of the
    specification: a term that is not added is a term [max(0, d)] with
    [d] not positive, and the running sum is never [-0]. *)
Lemma bounds_step (lower upper acc wi : double) :
  not_negzero acc ->
  let acc1 := if wi <? lower then acc + (lower - wi) else acc in
  let acc2 := if upper <? wi then acc1 + (wi - upper) else acc1 in
  acc2 = acc + std_max 0 (lower - wi) + std_max 0 (wi - upper) /\
  not_negzero acc2.
Proof.
  intros Hacc. cbv zeta. unfold std_max.
  rewrite (ltb_sub_pos wi lower), (ltb_sub_pos upper wi).
  pose proof (add_not_negzero acc (lower - wi) Hacc) as H1.
  destruct (0 <? lower - wi); destruct (0 <? wi - upper).
  - split; [reflexivity | apply add_not_negzero, H1].
  - rewrite (add_zero_r _ H1). split; [reflexivity | exact H1].
  - rewrite (add_zero_r _ Hacc).
    split; [reflexivity | apply add_not_negzero, Hacc].
  - rewrite (add_zero_r _ Hacc), (add_zero_r _ Hacc).
    split; [reflexivity | exact Hacc].
Qed.

Lemma bounds_fold (lower upper : double) (w : list double) : forall acc,
  not_negzero acc ->
  fold_left (fun bounds_penalty wi =>
      let bounds_penalty :=
        if wi <? lower then bounds_penalty + (lower - wi) else bounds_penalty in
      if upper <? wi then bounds_penalty + (wi - upper) else bounds_penalty)
    w acc =
  fold_left (fun acc wi => acc + std_max 0 (lower - wi) + std_max 0 (wi - upper))
    w acc.
Proof.
  induction w as [|wi w IH]; intros acc Hacc; [reflexivity|].
  cbn [fold_left]. destruct (bounds_step lower upper acc wi Hacc) as [Heq Hnz].
  cbv zeta in Heq, Hnz. rewrite <- Heq. apply IH, Hnz.
Qed.

Lemma bounds_penalty_loop_spec (c : GeneticOptimiser.config) (w : list double) :
  GeneticOptimiser.bounds_penalty_loop c w =
  Spec.bounds_penalty (GeneticOptimiser.lower_bound c)
    (GeneticOptimiser.upper_bound c) w.
Proof. apply bounds_fold, zero_not_negzero. Qed.

(** The sentinel test of the code, [target > lowest() + EPSILON], against
    the specification's "the target is the sentinel". *)
Lemma target_penalty_spec (target ret : double) :
  (if DBL_LOWEST + Constraints.EPSILON <? target then
     if ret + Constraints.EPSILON <? target then target - ret else 0
   else 0) = Spec.target_penalty target ret.
Proof.
  unfold Spec.target_penalty, Spec.is_sentinel, Spec.reaches_target.
  rewrite lowest_absorbs.
  destruct (ret + Constraints.EPSILON <? target) eqn:Hshort.
  - rewrite (above_lowest _ _ Hshort).
    destruct (target =? DBL_LOWEST); reflexivity.
  - rewrite orb_true_r. destruct (DBL_LOWEST <? target); reflexivity.
Qed.

(** C1, as amended.  On a vector of the portfolio's size whose Sharpe ratio
    is finite, the fitness is [-sharpe + total_penalty] with the three
    penalties of the specification, each times its multiplier:
    [|sum(w) - 1|], the sum of [max(0, lower - w_i) + max(0, w_i - upper)],
    and the target penalty, which is 0 when the target is the sentinel or
    [expected_return + epsilon] is not below the target, and
    [target - expected_return] otherwise. *)
Theorem fitness_formula (c : GeneticOptimiser.config) (w : list double)
    (sharpe : double) :
  length w = Portfolio.num_assets (GeneticOptimiser.portfolio c) ->
  Portfolio.sharpe_ratio (GeneticOptimiser.portfolio c) w
    (GeneticOptimiser.risk_free_rate_ c) = Ok sharpe ->
  is_finite sharpe = true ->
  exists expected_return,
    Portfolio.portfolio_return (GeneticOptimiser.portfolio c) w =
      Ok expected_return /\
    GeneticOptimiser.calculate_fitness c w =
      Ok (- sharpe +
          (Spec.sum_penalty w * GeneticOptimiser.sum_penalty_multiplier c +
           Spec.bounds_penalty (GeneticOptimiser.lower_bound c)
             (GeneticOptimiser.upper_bound c) w
             * GeneticOptimiser.bounds_penalty_multiplier c +
           Spec.target_penalty (GeneticOptimiser.target_return c) expected_return
             * GeneticOptimiser.target_return_penalty_multiplier c)).
Proof.
  intros Hsize Hsharpe Hfin.
  destruct (is_finite_facts sharpe Hfin) as [Hnan Hinf].
  destruct (target_block_matched c w Hsize) as (ret & Hret & Hblock).
  exists ret. split; [exact Hret|].
  unfold GeneticOptimiser.calculate_fitness.
  rewrite Hsharpe. cbn [bind]. rewrite Hblock. cbn [bind].
  change DBL_INF with infinity. rewrite Hinf, Hnan.
  rewrite target_penalty_spec, bounds_penalty_loop_spec. reflexivity.
Qed.

Lemma fitness_formula_witness :
  exists sharpe,
    length [1.2; -0.1; 0] =
      Portfolio.num_assets (Examples.portfolio_of Examples.scenario_returns) /\
    Portfolio.sharpe_ratio (Examples.portfolio_of Examples.scenario_returns)
      [1.2; -0.1; 0] 0 = Ok sharpe /\
    is_finite sharpe = true /\
    exists expected_return,
      Portfolio.portfolio_return (Examples.portfolio_of Examples.scenario_returns)
        [1.2; -0.1; 0] = Ok expected_return /\
      GeneticOptimiser.calculate_fitness
        (Examples.target_config
           (Examples.portfolio_of Examples.scenario_returns) 0.01)
        [1.2; -0.1; 0] =
      Ok (- sharpe +
          (Spec.sum_penalty [1.2; -0.1; 0] * 1000 +
           Spec.bounds_penalty 0 1 [1.2; -0.1; 0] * 1000 +
           Spec.target_penalty 0.01 expected_return * 5000)).
Proof.
  eexists. split; [reflexivity|]. split; [vm_compute; reflexivity|].
  split; [vm_compute; reflexivity|].
  apply (fitness_formula
           (Examples.target_config
              (Examples.portfolio_of Examples.scenario_returns) 0.01)
           [1.2; -0.1; 0]);
    [reflexivity | vm_compute; reflexivity | vm_compute; reflexivity].
Defined.

(* ================================================================= *)
(** * Constraint penalties and validators *)

(** C1 fails as stated.  With [expected_return >= target - epsilon] for the
    test of the target the formula fails: a mean return of 0.00048828
    reaches the target [0.00048828 + epsilon] by the test of the code, so
    that the fitness carries no target penalty, while [target - epsilon]
    rounds to a double above 0.00048828.  A NaN for the expected return
    passes the test of the code and fails the other, whose penalty is then a
    NaN. *)
Lemma fitness_as_worded_fails :
  Portfolio.portfolio_return
    (GeneticOptimiser.portfolio Examples.near_target_config) [1] =
    Ok 0.00048828 /\
  Spec.reaches_target 0.00048828 Examples.near_target = true /\
  Spec.reaches_target_as_worded 0.00048828 Examples.near_target = false /\
  Spec.target_penalty 0.01 nan = 0 /\
  is_nan (Spec.target_penalty_as_worded 0.01 nan) = true /\
  ~ fitness_as_worded.
Proof.
  split; [vm_compute; reflexivity|]. split; [vm_compute; reflexivity|].
  split; [vm_compute; reflexivity|]. split; [vm_compute; reflexivity|].
  split; [vm_compute; reflexivity|].
  intros H.
  assert (Hs : Portfolio.sharpe_ratio
                 (GeneticOptimiser.portfolio Examples.near_target_config) [1]
                 (GeneticOptimiser.risk_free_rate_ Examples.near_target_config) =
               Ok 0.70710678118654757) by (vm_compute; reflexivity).
  assert (Hr : Portfolio.portfolio_return
                 (GeneticOptimiser.portfolio Examples.near_target_config) [1] =
               Ok 0.00048828) by (vm_compute; reflexivity).
  specialize (H Examples.near_target_config [1] _ _ eq_refl Hs eq_refl Hr).
  apply (f_equal (fun o => match o with
                           | Ok f => f =? - 0.70710678118654757
                           | _ => false
                           end)) in H.
  vm_compute in H. discriminate H.
Qed.

Lemma sum_and_bounds_not_negzero (w : list double) (lower upper : double) :
  not_negzero (Constraints.sum_and_bounds_penalty w lower upper).
Proof.
  unfold Constraints.sum_and_bounds_penalty. cbv zeta.
  assert (H0 : not_negzero (0 + abs (accumulate w 0 - 1)))
    by apply add_not_negzero, zero_not_negzero.
  revert H0. generalize (0 + abs (accumulate w 0 - 1)).
  induction w as [|wi w' IH]; intros acc Hacc; [exact Hacc|].
  cbn [fold_left]. apply IH.
  destruct (wi <? lower - Constraints.EPSILON);
    destruct (upper + Constraints.EPSILON <? wi);
    auto using add_not_negzero.
Qed.

(** C2 fails as stated: with vectors of different lengths the standalone
    penalty adds 1000.0, not 100.0, and the fitness function adds nothing:
    it throws the size-mismatch error of [portfolio_return]. *)
Lemma mismatch_penalty_is_not_100 :
  Constraints.sum_and_bounds_penalty [1] 0 1 = 0 /\
  Constraints.constraint_penalty [1] [0.5; 0.5] 0 1 0.1 = 1000 /\
  Constraints.constraint_penalty [1] [0.5; 0.5] 0 1 0.1 <>
    Constraints.sum_and_bounds_penalty [1] 0 1 + 100 /\
  GeneticOptimiser.calculate_fitness
    (Examples.target_config (Examples.portfolio_of Examples.scenario_returns) 0.1)
    [1] = Throw (invalid_argument ReturnSizeMismatch).
Proof.
  split; [reflexivity|]. split; [reflexivity|]. split; [|reflexivity].
  intros E. apply (f_equal (fun x => x =? 1000)) in E.
  vm_compute in E. discriminate E.
Qed.

(** C2, as amended.  In [constraint_penalty] the target-return term is 0
    when the target is not above the sentinel; otherwise it is 1000.0 when
    the two vectors differ in length, 0 when the expected return reaches
    the target up to epsilon, and [target - expected_return] otherwise.  In
    the fitness function, on a vector of the portfolio's size, the term is
    0 when the target is the sentinel or the expected return reaches it up
    to epsilon, and [target - expected_return] otherwise. *)
Theorem target_term_cases :
  (forall w mean_returns lower upper target,
     Constraints.constraint_penalty w mean_returns lower upper target =
     Constraints.sum_and_bounds_penalty w lower upper +
     (if DBL_LOWEST <? target then
        if negb (Nat.eqb (length w) (length mean_returns)) then 1000
        else if Spec.reaches_target
                  (Constraints.expected_return w mean_returns) target
             then 0
             else target - Constraints.expected_return w mean_returns
      else 0)) /\
  (forall c w,
     length w = Portfolio.num_assets (GeneticOptimiser.portfolio c) ->
     exists expected_return,
       Portfolio.portfolio_return (GeneticOptimiser.portfolio c) w =
         Ok expected_return /\
       GeneticOptimiser.target_ret_penalty_block c w =
         Ok (if Spec.is_sentinel (GeneticOptimiser.target_return c) ||
                Spec.reaches_target expected_return
                  (GeneticOptimiser.target_return c)
             then 0
             else GeneticOptimiser.target_return c - expected_return)).
Proof.
  split.
  - intros w mean_returns lower upper target.
    unfold Constraints.constraint_penalty, Spec.reaches_target. cbv zeta.
    rewrite lowest_absorbs.
    pose proof (sum_and_bounds_not_negzero w lower upper) as Hnz.
    destruct (DBL_LOWEST <? target);
      [destruct (negb (Nat.eqb (length w) (length mean_returns)));
       [|destruct (Constraints.expected_return w mean_returns
                   + Constraints.EPSILON <? target)]|];
      cbn [negb]; rewrite ?(add_zero_r _ Hnz); reflexivity.
  - intros c w Hsize.
    destruct (target_block_matched c w Hsize) as (ret & Hret & Hblock).
    exists ret. split; [exact Hret|].
    rewrite Hblock, target_penalty_spec. reflexivity.
Qed.




(** The scenario of the specification: the weights [0.5, 0.3, 0.2] within
    [0, 1] and with the target 0 are feasible for the scenario's means. *)
Example scenario_feasible :
  Constraints.is_feasible [0.5; 0.3; 0.2]
    (Portfolio.means (Examples.portfolio_of Examples.scenario_returns))
    0 1 0 = Ok true.
Proof. vm_compute. reflexivity. Qed.

(* ================================================================= *)
(** * The generation loop *)

Section OptimiserFacts.

Import GeneticOptimiser.

Variable R : random_source.
Variable c : config.

(** One generation, taken apart. *)
Lemma generation_inv (st st' : state R) :
  generation R c st = Ok st' ->
  exists fitnesses f_best best_w new_pop g,
    evaluate c (population st) = Ok fitnesses /\
    index fitnesses (min_element fitnesses) = Ok f_best /\
    reproduce R c
      (population_size c -
       length (map snd (firstn (Nat.div (population_size c) 20)
                          (sort (combine fitnesses (population st))))))
      (population st) fitnesses
      (map snd (firstn (Nat.div (population_size c) 20)
                  (sort (combine fitnesses (population st)))))
      (generator st) = Ok (new_pop, g) /\
    st' = {| population := new_pop;
             best_weights := best_w;
             best_fitness :=
               if f_best <? best_fitness st then f_best else best_fitness st;
             generator := g |}.
Proof.
  unfold generation. intros H.
  bind_ok H. bind_ok H. bind_ok H. bind_ok H.
  apply Ok_inj in H. subst st'. eauto 10.
Qed.

(** What one generation does to the tracked best fitness. *)
Lemma generation_best (st st' : state R) :
  generation R c st = Ok st' ->
  exists fitnesses f_best,
    evaluate c (population st) = Ok fitnesses /\
    index fitnesses (min_element fitnesses) = Ok f_best /\
    best_fitness st' =
      (if f_best <? best_fitness st then f_best else best_fitness st).
Proof.
  intros H.
  destruct (generation_inv st st' H)
    as (fitnesses & f_best & best_w & new_pop & g & Hev & Hidx & _ & ->).
  exists fitnesses, f_best. auto.
Qed.

(** The last generation of a run of [k + 1]. *)
Lemma run_generations_last (k : nat) : forall st0 st',
  run_generations R c (S k) st0 = Ok st' ->
  exists st, run_generations R c k st0 = Ok st /\ generation R c st = Ok st'.
Proof.
  induction k as [|k IH]; intros st0 st' H.
  - cbn [run_generations] in H. exists st0. split; [reflexivity|].
    bind_ok H. rewrite H. reflexivity.
  - change (run_generations R c (S (S k)) st0)
      with (st1 <- generation R c st0 ;; run_generations R c (S k) st1) in H.
    bind_ok H.
    destruct (IH _ st' H) as (st & Hrun & Hlast).
    exists st. split; [|exact Hlast].
    cbn [run_generations]. rewrite E. exact Hrun.
Qed.

Lemma generation_not_nan (st st' : state R) :
  generation R c st = Ok st' ->
  is_nan (best_fitness st) = false -> is_nan (best_fitness st') = false.
Proof.
  intros H Hnan. destruct (generation_best st st' H) as (fs & f & _ & _ & Hb).
  rewrite Hb. destruct (f <? best_fitness st) eqn:E; [|exact Hnan].
  apply (ltb_not_nan _ _ E).
Qed.

Lemma run_generations_not_nan (k : nat) : forall st0 st,
  run_generations R c k st0 = Ok st ->
  is_nan (best_fitness st0) = false -> is_nan (best_fitness st) = false.
Proof.
  induction k as [|k IH]; intros st0 st H Hnan.
  - apply Ok_inj in H. subst st. exact Hnan.
  - cbn [run_generations] in H. bind_ok H.
    eapply IH; [exact H|]. eapply generation_not_nan; eauto.
Qed.

Lemma initial_state_inv (g0 : rng R) (st0 : state R) :
  initial_state R c g0 = Ok st0 ->
  exists pop g,
    init_population R c (population_size c) g0 = Ok (pop, g) /\
    st0 = {| population := pop; best_weights := [];
             best_fitness := DBL_MAX; generator := g |}.
Proof.
  unfold initial_state. intros H. bind_ok H.
  apply Ok_inj in H. subst st0. eauto.
Qed.

Lemma initial_state_best (g0 : rng R) (st0 : state R) :
  initial_state R c g0 = Ok st0 ->
  best_weights st0 = [] /\ best_fitness st0 = DBL_MAX.
Proof.
  intros H. destruct (initial_state_inv g0 st0 H) as (pop & g & _ & ->).
  split; reflexivity.
Qed.

(** ** The size of the population *)

Lemma init_population_length (n : nat) : forall g pop g',
  init_population R c n g = Ok (pop, g') -> length pop = n.
Proof.
  induction n as [|n IH]; intros g pop g' H.
  - apply Ok_inj in H. injection H as <- _. reflexivity.
  - cbn [init_population] in H.
    bind_ok H. bind_ok H. bind_ok H. bind_ok H.
    apply Ok_inj in H. injection H as <- _. cbn [length]. f_equal.
    eapply IH. eassumption.
Qed.

Lemma evaluate_length (pop : list (list double)) : forall fs,
  evaluate c pop = Ok fs -> length fs = length pop.
Proof.
  induction pop as [|ind pop IH]; intros fs H.
  - apply Ok_inj in H. subst fs. reflexivity.
  - cbn [evaluate] in H. bind_ok H. bind_ok H.
    apply Ok_inj in H. subst fs. cbn [length]. f_equal. apply IH. reflexivity.
Qed.

Lemma insert_sorted_length x l : length (insert_sorted x l) = S (length l).
Proof.
  induction l as [|y l IH]; [reflexivity|].
  cbn [insert_sorted]. destruct (pair_lt y x); cbn [length]; auto.
Qed.

Lemma sort_length l : length (sort l) = length l.
Proof.
  induction l as [|x l IH]; [reflexivity|].
  cbn [sort fold_right]. fold (sort l).
  rewrite insert_sorted_length, IH. reflexivity.
Qed.

(** The reproduction loop fills every free slot. *)
Lemma reproduce_length (population : list (list double))
    (fitnesses : list double) :
  forall slots new_pop g new_pop' g',
    reproduce R c slots population fitnesses new_pop g = Ok (new_pop', g') ->
    length new_pop' = (length new_pop + slots)%nat.
Proof.
  intros slots.
  induction slots as [slots IH] using (well_founded_induction lt_wf).
  intros new_pop g new_pop' g' H.
  destruct slots as [|[|slots]]; cbn [reproduce] in H.
  - apply Ok_inj in H. injection H as <- _. lia.
  - bind_ok H. bind_ok H. bind_ok H. bind_ok H. bind_ok H.
    apply Ok_inj in H. injection H as <- _. rewrite length_app. cbn [length]. lia.
  - bind_ok H. bind_ok H. bind_ok H. bind_ok H. bind_ok H.
    apply IH in H; [|lia]. rewrite H, !length_app. cbn [length]. lia.
Qed.

(** [population.size() == population_size] holds on entry to the loop and
    after every generation. *)
Lemma generation_population_size (st st' : state R) :
  length (population st) = population_size c ->
  generation R c st = Ok st' ->
  length (population st') = population_size c.
Proof.
  intros Hlen H.
  destruct (generation_inv st st' H)
    as (fitnesses & f_best & best_w & new_pop & g & Hev & _ & Hrep & ->).
  cbn [population]. apply reproduce_length in Hrep. rewrite Hrep.
  rewrite length_map, length_firstn, sort_length, length_combine.
  rewrite (evaluate_length _ _ Hev), Hlen.
  assert (Nat.div (population_size c) 20 <= population_size c)%nat
    by (apply Nat.Div0.div_le_upper_bound; lia).
  lia.
Qed.

Lemma run_population_size (g0 : rng R) (st0 : state R) (k : nat) :
  initial_state R c g0 = Ok st0 ->
  forall st, run_generations R c k st0 = Ok st ->
  length (population st) = population_size c.
Proof.
  intros Hinit.
  assert (H0 : length (population st0) = population_size c).
  { destruct (initial_state_inv g0 st0 Hinit) as (pop & g & Hpop & ->).
    apply (init_population_length _ _ _ _ Hpop). }
  clear Hinit. revert st0 H0.
  induction k as [|k IH]; intros st0 H0 st H.
  - apply Ok_inj in H. subst st. exact H0.
  - cbn [run_generations] in H. bind_ok H.
    eapply IH; [|exact H]. eapply generation_population_size; eauto.
Qed.

End OptimiserFacts.

(** C6.  In every run of [optimise], whatever the configuration and the
    random draws, the tracked best fitness after a generation is at most
    what it was before it: it is either unchanged or it is the smallest
    fitness of that generation, and then strictly lower.  The best fitness
    after the final recomputation is at most the one the loop ended with. *)
Theorem best_fitness_never_regresses (R : random_source)
    (c : GeneticOptimiser.config) (g0 : rng R)
    (st0 : GeneticOptimiser.state R) :
  GeneticOptimiser.initial_state R c g0 = Ok st0 ->
  (forall k st',
     GeneticOptimiser.run_generations R c (S k) st0 = Ok st' ->
     exists st,
       GeneticOptimiser.run_generations R c k st0 = Ok st /\
       GeneticOptimiser.generation R c st = Ok st' /\
       (GeneticOptimiser.best_fitness st' <=? GeneticOptimiser.best_fitness st)
         = true /\
       (GeneticOptimiser.best_fitness st' = GeneticOptimiser.best_fitness st \/
        exists fitnesses,
          GeneticOptimiser.evaluate c (GeneticOptimiser.population st) =
            Ok fitnesses /\
          index fitnesses (GeneticOptimiser.min_element fitnesses) =
            Ok (GeneticOptimiser.best_fitness st') /\
          (GeneticOptimiser.best_fitness st' <? GeneticOptimiser.best_fitness st)
            = true)) /\
  (forall best_w best_f,
     GeneticOptimiser.optimise_with_fitness R c g0 = Ok (best_w, best_f) ->
     exists st,
       GeneticOptimiser.run_generations R c (GeneticOptimiser.generations c) st0
         = Ok st /\
       best_w = GeneticOptimiser.best_weights st /\
       (best_f <=? GeneticOptimiser.best_fitness st) = true).
Proof.
  intros Hinit.
  destruct (initial_state_best R c g0 st0 Hinit) as [_ Hbest0].
  assert (Hnan0 : is_nan (GeneticOptimiser.best_fitness st0) = false)
    by (rewrite Hbest0; reflexivity).
  split.
  - intros k st' Hrun.
    destruct (run_generations_last R c k st0 st' Hrun) as (st & Hk & Hgen).
    exists st. split; [exact Hk|]. split; [exact Hgen|].
    pose proof (run_generations_not_nan R c k st0 st Hk Hnan0) as Hnan.
    destruct (generation_best R c st st' Hgen) as (fs & f & Hev & Hidx & Hb).
    rewrite Hb. destruct (f <? GeneticOptimiser.best_fitness st) eqn:E.
    + split; [apply ltb_leb, E|]. right. exists fs. auto.
    + split; [apply leb_refl, Hnan|]. left. reflexivity.
  - intros best_w best_f Hopt.
    unfold GeneticOptimiser.optimise_with_fitness in Hopt.
    rewrite Hinit in Hopt. cbn [bind] in Hopt.
    destruct (GeneticOptimiser.run_generations R c
                (GeneticOptimiser.generations c) st0) as [st| |] eqn:Hrun;
      cbn [bind] in Hopt; try discriminate Hopt.
    destruct (GeneticOptimiser.calculate_fitness c
                (GeneticOptimiser.best_weights st)) as [final| |];
      cbn [bind] in Hopt; try discriminate Hopt.
    exists st. split; [reflexivity|].
    pose proof (run_generations_not_nan R c _ st0 st Hrun Hnan0) as Hnan.
    pose proof (f_equal (fun o => match o with Ok r => fst r | _ => [] end) Hopt)
      as Hw.
    pose proof (f_equal (fun o => match o with Ok r => snd r | _ => 0 end) Hopt)
      as Hf.
    cbn in Hw, Hf. split; [symmetry; exact Hw|]. rewrite <- Hf.
    destruct (final <? GeneticOptimiser.best_fitness st) eqn:E;
      [apply ltb_leb, E | apply leb_refl, Hnan].
Qed.

Lemma best_fitness_never_regresses_witness :
  exists st0,
    GeneticOptimiser.initial_state Examples.counter_source
      (Examples.small_config 3) 0%nat = Ok st0 /\
    (forall k st',
       GeneticOptimiser.run_generations Examples.counter_source
         (Examples.small_config 3) (S k) st0 = Ok st' ->
       exists st,
         GeneticOptimiser.run_generations Examples.counter_source
           (Examples.small_config 3) k st0 = Ok st /\
         GeneticOptimiser.generation Examples.counter_source
           (Examples.small_config 3) st = Ok st' /\
         (GeneticOptimiser.best_fitness st' <=? GeneticOptimiser.best_fitness st)
           = true /\
         (GeneticOptimiser.best_fitness st' = GeneticOptimiser.best_fitness st \/
          exists fitnesses,
            GeneticOptimiser.evaluate (Examples.small_config 3)
              (GeneticOptimiser.population st) = Ok fitnesses /\
            index fitnesses (GeneticOptimiser.min_element fitnesses) =
              Ok (GeneticOptimiser.best_fitness st') /\
            (GeneticOptimiser.best_fitness st' <? GeneticOptimiser.best_fitness st)
              = true)) /\
    (forall best_w best_f,
       GeneticOptimiser.optimise_with_fitness Examples.counter_source
         (Examples.small_config 3) 0%nat = Ok (best_w, best_f) ->
       exists st,
         GeneticOptimiser.run_generations Examples.counter_source
           (Examples.small_config 3)
           (GeneticOptimiser.generations (Examples.small_config 3)) st0 = Ok st /\
         best_w = GeneticOptimiser.best_weights st /\
         (best_f <=? GeneticOptimiser.best_fitness st) = true).
Proof.
  eexists. split; [vm_compute; reflexivity|].
  apply (best_fitness_never_regresses Examples.counter_source
           (Examples.small_config 3) 0%nat).
  vm_compute; reflexivity.
Defined.

(** The run of the witness: three generations succeed, and the first one
    lowers the best fitness from the largest double to about 2.05. *)
Example small_run :
  exists w f,
    GeneticOptimiser.optimise_with_fitness Examples.counter_source
      (Examples.small_config 3) 0%nat = Ok (w, f) /\
    (f <? DBL_MAX) = true.
Proof. eexists; eexists; split; vm_compute; reflexivity. Qed.

(** The initial population is undefined only through [std::clamp], when
    the upper bound is below the lower one. *)
Lemma clip_weights_undefined (ws : list double) (lo hi : double) :
  Utils.clip_weights ws lo hi = Undefined -> (hi <? lo) = true.
Proof.
  induction ws as [|w ws IH]; [discriminate|].
  cbn [Utils.clip_weights]. unfold Utils.std_clamp.
  destruct (hi <? lo); [reflexivity|]. cbn [bind].
  destruct (Utils.clip_weights ws lo hi); cbn [bind];
    [discriminate | discriminate | intros _; apply IH; reflexivity].
Qed.

Lemma init_population_undefined (R : random_source)
    (c : GeneticOptimiser.config) (n : nat) : forall g,
  GeneticOptimiser.init_population R c n g = Undefined ->
  (GeneticOptimiser.upper_bound c <? GeneticOptimiser.lower_bound c) = true.
Proof.
  induction n as [|n IH]; intros g; [discriminate|].
  cbn [GeneticOptimiser.init_population]. unfold Utils.random_weights.
  destruct (Nat.eqb _ 0); [discriminate|].
  destruct (Utils.draw_uniform R _ g) as [ws g1].
  set (ind := if accumulate ws 0 <? 1e-12 then _ else _).
  assert (Hind : exists v, ind = Ok (v, g1))
    by (unfold ind; destruct (accumulate ws 0 <? 1e-12); eauto).
  destruct Hind as [v ->]. cbn [bind].
  destruct (Utils.clip_weights v _ _) as [v'| |] eqn:Hclip; cbn [bind];
    [|discriminate|intros _; eapply clip_weights_undefined, Hclip].
  unfold Utils.normalize. destruct (accumulate v' 0 <? 1e-12); cbn [bind];
    [discriminate|].
  destruct (GeneticOptimiser.init_population R c n g1) as [[rest g2]| |] eqn:Hrest;
    cbn [bind]; [discriminate | discriminate | intros _; eapply IH, Hrest].
Qed.

(** A constructed portfolio has an asset. *)
Lemma new_num_assets (Rm : Matrix.t) (p : Portfolio.t) :
  Portfolio.new Rm = Ok p -> Portfolio.num_assets p <> 0%nat.
Proof.
  unfold Portfolio.new.
  destruct (Nat.ltb (Matrix.rows Rm) 2); [discriminate|].
  destruct (Nat.eqb (Matrix.cols Rm) 0) eqn:E; [discriminate|].
  destruct (Matrix.covariance_matrix Rm) as [cov| |]; cbn [bind];
    try discriminate.
  intros H.
  apply (f_equal (fun o => match o with
                           | Ok q => Portfolio.num_assets q
                           | _ => 0%nat
                           end)) in H.
  cbn in H. rewrite <- H. apply Nat.eqb_neq, E.
Qed.

(** The initial population throws only through [normalize]: over a
    portfolio with an asset [random_weights] does not throw, and
    [clip_weights] never does. *)
Lemma clip_weights_throw (ws : list double) (lo hi : double) (e : exn) :
  Utils.clip_weights ws lo hi <> Throw e.
Proof.
  induction ws as [|w ws IH]; [discriminate|].
  cbn [Utils.clip_weights]. unfold Utils.std_clamp.
  destruct (hi <? lo); [discriminate|]. cbn [bind].
  destruct (Utils.clip_weights ws lo hi); cbn [bind];
    [discriminate | exact IH | discriminate].
Qed.

Lemma init_population_throw (R : random_source)
    (c : GeneticOptimiser.config) (n : nat) :
  Portfolio.num_assets (GeneticOptimiser.portfolio c) <> 0%nat ->
  forall g e,
    GeneticOptimiser.init_population R c n g = Throw e ->
    e = invalid_argument NormalizeZeroSum /\
    exists g1 individual g2 clipped,
      Utils.random_weights R
        (Portfolio.num_assets (GeneticOptimiser.portfolio c)) g1 =
        Ok (individual, g2) /\
      Utils.clip_weights individual (GeneticOptimiser.lower_bound c)
        (GeneticOptimiser.upper_bound c) = Ok clipped /\
      (accumulate clipped 0 <? 1e-12) = true.
Proof.
  intros Hassets. induction n as [|n IH]; intros g e; [discriminate|].
  cbn [GeneticOptimiser.init_population].
  destruct (Utils.random_weights R _ g) as [[v g1]| |] eqn:Hdraw; cbn [bind].
  - destruct (Utils.clip_weights v _ _) as [v'| |] eqn:Hclip; cbn [bind];
      [|intros _; exfalso; eapply clip_weights_throw, Hclip|discriminate].
    unfold Utils.normalize.
    destruct (accumulate v' 0 <? 1e-12) eqn:Hsum; cbn [bind].
    + intros H. injection H as <-. split; [reflexivity|].
      exists g, v, g1, v'. auto.
    + destruct (GeneticOptimiser.init_population R c n g1)
        as [[rest g2]| |] eqn:Hrest; cbn [bind];
        [discriminate | | discriminate].
      intros H. injection H as <-. eapply IH, Hrest.
  - exfalso. unfold Utils.random_weights in Hdraw.
    apply Nat.eqb_neq in Hassets. rewrite Hassets in Hdraw.
    destruct (Utils.draw_uniform R _ g) as [ws g1].
    destruct (accumulate ws 0 <? 1e-12); discriminate Hdraw.
  - discriminate.
Qed.

(** C10, as amended.  With a generation count of 0 over a constructed
    portfolio, [optimise] never returns a vector, and ends in one of three
    ways.  When the initial population is built, the loop leaves the state as
    it is, with an empty best vector, and the final recomputation of its
    fitness throws the size-mismatch error of [portfolio_return], which
    [optimise] lets through.  Otherwise the initialisation of an individual
    ends the call: [normalize] throws its error on clipped weights whose sum
    is below 1e-12, or, with an upper bound below the lower one, the
    behaviour is undefined from the first call of [std::clamp]. *)
Theorem optimise_zero_generations (R : random_source)
    (c : GeneticOptimiser.config) (g0 : rng R) (Rm : Matrix.t) :
  Portfolio.new Rm = Ok (GeneticOptimiser.portfolio c) ->
  GeneticOptimiser.generations c = 0%nat ->
  (exists st0,
     GeneticOptimiser.initial_state R c g0 = Ok st0 /\
     GeneticOptimiser.run_generations R c (GeneticOptimiser.generations c) st0
       = Ok st0 /\
     GeneticOptimiser.best_weights st0 = [] /\
     Portfolio.portfolio_return (GeneticOptimiser.portfolio c)
       (GeneticOptimiser.best_weights st0) =
       Throw (invalid_argument ReturnSizeMismatch) /\
     GeneticOptimiser.calculate_fitness c (GeneticOptimiser.best_weights st0) =
       Throw (invalid_argument ReturnSizeMismatch) /\
     GeneticOptimiser.optimise R c g0 =
       Throw (invalid_argument ReturnSizeMismatch)) \/
  (GeneticOptimiser.init_population R c (GeneticOptimiser.population_size c) g0 =
     Throw (invalid_argument NormalizeZeroSum) /\
   (exists g1 individual g2 clipped,
      Utils.random_weights R
        (Portfolio.num_assets (GeneticOptimiser.portfolio c)) g1 =
        Ok (individual, g2) /\
      Utils.clip_weights individual (GeneticOptimiser.lower_bound c)
        (GeneticOptimiser.upper_bound c) = Ok clipped /\
      (accumulate clipped 0 <? 1e-12) = true) /\
   GeneticOptimiser.optimise R c g0 =
     Throw (invalid_argument NormalizeZeroSum)) \/
  (GeneticOptimiser.init_population R c (GeneticOptimiser.population_size c) g0 =
     Undefined /\
   (GeneticOptimiser.upper_bound c <? GeneticOptimiser.lower_bound c) = true /\
   GeneticOptimiser.optimise R c g0 = Undefined).
Proof.
  intros Hnew Hgens.
  pose proof (new_num_assets Rm _ Hnew) as Hassets.
  assert (Hret : Portfolio.portfolio_return (GeneticOptimiser.portfolio c) [] =
                 Throw (invalid_argument ReturnSizeMismatch)).
  { unfold Portfolio.portfolio_return. cbn [length].
    destruct (Portfolio.num_assets (GeneticOptimiser.portfolio c));
      [contradiction | reflexivity]. }
  assert (Hfit : GeneticOptimiser.calculate_fitness c [] =
                 Throw (invalid_argument ReturnSizeMismatch)).
  { unfold GeneticOptimiser.calculate_fitness, Portfolio.sharpe_ratio.
    rewrite Hret. reflexivity. }
  unfold GeneticOptimiser.optimise, GeneticOptimiser.optimise_with_fitness,
    GeneticOptimiser.initial_state.
  destruct (GeneticOptimiser.init_population R c
              (GeneticOptimiser.population_size c) g0)
    as [[pop g]| |] eqn:Hpop; cbn [bind].
  - left. eexists. split; [reflexivity|].
    rewrite Hgens. cbn [GeneticOptimiser.run_generations
                        GeneticOptimiser.best_weights bind].
    rewrite Hfit. cbn [bind]. repeat split; auto.
  - right. left.
    destruct (init_population_throw R c _ Hassets g0 e Hpop) as [-> Hind].
    split; [reflexivity|]. split; [exact Hind | reflexivity].
  - right. right. split; [reflexivity|].
    split; [eapply init_population_undefined, Hpop | reflexivity].
Qed.

Lemma optimise_zero_generations_witness :
  Portfolio.new Examples.scenario_returns =
    Ok (GeneticOptimiser.portfolio (Examples.small_config 0)) /\
  GeneticOptimiser.generations (Examples.small_config 0) = 0%nat /\
  GeneticOptimiser.optimise Examples.counter_source (Examples.small_config 0)
    0%nat = Throw (invalid_argument ReturnSizeMismatch).
Proof.
  split; [vm_compute; reflexivity|]. split; [reflexivity|].
  destruct (optimise_zero_generations Examples.counter_source
              (Examples.small_config 0) 0%nat Examples.scenario_returns)
    as [(st0 & _ & _ & _ & _ & _ & H)|[[H _]|[H _]]];
    [vm_compute; reflexivity | reflexivity | exact H | | ];
    vm_compute in H; discriminate H.
Defined.

(** With both bounds at 0 every clipped weight is 0, and it is the error of
    [normalize] that ends the call, not that of [portfolio_return]. *)
Lemma zero_generations_size_mismatch_fails :
  GeneticOptimiser.optimise Examples.counter_source Examples.pinned_config 0%nat =
    Throw (invalid_argument NormalizeZeroSum) /\
  ~ zero_generations_size_mismatch.
Proof.
  split; [vm_compute; reflexivity|].
  intros H.
  specialize (H Examples.counter_source Examples.pinned_config 0%nat
                Examples.scenario_returns).
  assert (Hnew : Portfolio.new Examples.scenario_returns =
                 Ok (GeneticOptimiser.portfolio Examples.pinned_config))
    by (vm_compute; reflexivity).
  specialize (H Hnew eq_refl). vm_compute in H. discriminate H.
Qed.

(* ================================================================= *)
(** * Further facts of binary64 arithmetic

    The order of the doubles, through an integer rank, and the signs of
    sums, squares and quotients. *)

Module OrderFacts.
Local Open Scope Z_scope.

Lemma rank_finite_bounds (s : bool) m e :
  bounded prec emax m e = true ->
  0 < Z.pos m * 2 ^ (e - emin) < 2 ^ 2200.
Proof.
  intros Hb. destruct (bounded_facts _ _ Hb) as (He & Hm & _).
  unfold bounded in Hb. apply andb_true_iff in Hb. destruct Hb as [_ Hle].
  apply Z.leb_le in Hle. unfold emin, SpecFloat.emin, emax, prec in *.
  assert (H1 : 0 < 2 ^ (e - (3 - 1024 - 53))) by (apply Z.pow_pos_nonneg; lia).
  assert (H2 : 2 ^ (e - (3 - 1024 - 53)) <= 2 ^ 2045) by (apply Z.pow_le_mono_r; lia).
  split; [lia|].
  change (2 ^ 2200) with (2 ^ 53 * 2 ^ 2045 * 2 ^ 102).
  assert (0 < 2 ^ 2045) by (apply Z.pow_pos_nonneg; lia).
  assert (H3 : Z.pos m * 2 ^ (e - (3 - 1024 - 53)) < 2 ^ 53 * 2 ^ 2045) by nia.
  assert (1 < 2 ^ 102) by (apply Z.pow_gt_1; lia).
  nia.
Qed.

Lemma SFcompare_rank x y :
  valid_binary x = true -> valid_binary y = true ->
  x <> S754_nan -> y <> S754_nan ->
  SFcompare x y = Some (rank x ?= rank y).
Proof.
  intros Hx Hy Nx Ny.
  destruct x as [sx|sx| |sx mx ex]; try congruence;
  destruct y as [sy|sy| |sy my ey]; try congruence; cbn [valid_binary] in Hx, Hy.
  - reflexivity.
  - cbn. destruct sy; reflexivity.
  - pose proof (rank_finite_bounds sy _ _ Hy).
    cbn [SFcompare rank]. f_equal. symmetry.
    destruct sy; cbn [cond_Zopp];
      [apply Z.compare_gt_iff | apply Z.compare_lt_iff]; lia.
  - cbn. destruct sx; reflexivity.
  - cbn. destruct sx, sy; reflexivity.
  - pose proof (rank_finite_bounds sy _ _ Hy).
    cbn [SFcompare rank]. f_equal. symmetry.
    assert (2 ^ 2200 > 0) by (apply Z.lt_gt, Z.pow_pos_nonneg; lia).
    destruct sx, sy; cbn [cond_Zopp];
      first [apply Z.compare_gt_iff; lia | apply Z.compare_lt_iff; lia].
  - pose proof (rank_finite_bounds sx _ _ Hx).
    cbn [SFcompare rank]. f_equal. symmetry.
    destruct sx; cbn [cond_Zopp];
      [apply Z.compare_lt_iff | apply Z.compare_gt_iff]; lia.
  - pose proof (rank_finite_bounds sx _ _ Hx).
    cbn [SFcompare rank]. f_equal. symmetry.
    assert (2 ^ 2200 > 0) by (apply Z.lt_gt, Z.pow_pos_nonneg; lia).
    destruct sx, sy; cbn [cond_Zopp];
      first [apply Z.compare_gt_iff; lia | apply Z.compare_lt_iff; lia].
  - rewrite SFcompare_aligned by assumption. f_equal. cbn [rank].
    destruct (bounded_facts _ _ Hx) as (Hex & _).
    destruct (bounded_facts _ _ Hy) as (Hey & _).
    set (ez := Z.min ex ey).
    assert (Hez : emin <= ez) by (unfold ez; lia).
    rewrite !aligned_value by (unfold ez; lia).
    assert (Hsx : Z.pos mx * 2 ^ (ex - emin) =
                  Z.pos mx * 2 ^ (ex - ez) * 2 ^ (ez - emin)).
    { rewrite <- Z.mul_assoc, <- Z.pow_add_r by (unfold ez; lia). do 2 f_equal. lia. }
    assert (Hsy : Z.pos my * 2 ^ (ey - emin) =
                  Z.pos my * 2 ^ (ey - ez) * 2 ^ (ez - emin)).
    { rewrite <- Z.mul_assoc, <- Z.pow_add_r by (unfold ez; lia). do 2 f_equal. lia. }
    rewrite Hsx, Hsy.
    assert (Hp : 0 < 2 ^ (ez - emin)) by (apply Z.pow_pos_nonneg; lia).
    generalize dependent (2 ^ (ez - emin)). intros k _ _ Hk.
    generalize (Z.pos mx * 2 ^ (ex - ez)) (Z.pos my * 2 ^ (ey - ez)). intros a b.
    replace (cond_Zopp sx (a * k)) with (cond_Zopp sx a * k) by (destruct sx; cbn; lia).
    replace (cond_Zopp sy (b * k)) with (cond_Zopp sy b * k) by (destruct sy; cbn; lia).
    generalize (cond_Zopp sx a) (cond_Zopp sy b). intros a' b'.
    destruct (a' ?= b') eqn:Hc; symmetry.
    + apply Z.compare_eq in Hc. rewrite Hc. apply Z.compare_refl.
    + apply Z.compare_lt_iff. rewrite Z.compare_lt_iff in Hc. nia.
    + apply Z.compare_gt_iff. rewrite Z.compare_gt_iff in Hc. nia.
Qed.

Lemma SFmul_comm x y : SF64mul x y = SF64mul y x.
Proof.
  destruct x as [sx|sx| |sx mx ex], y as [sy|sy| |sy my ey];
    unfold SF64mul; cbn [SFmul];
    rewrite ?(xorb_comm sx sy); try reflexivity.
  rewrite (Pos.mul_comm mx my), (Z.add_comm ex ey). reflexivity.
Qed.

Lemma SFadd_comm x y : SF64add x y = SF64add y x.
Proof.
  destruct x as [sx|sx| |sx mx ex], y as [sy|sy| |sy my ey];
    unfold SF64add; cbn [SFadd];
    try reflexivity; try (destruct sx, sy; reflexivity).
  rewrite (Z.min_comm ex ey), Z.add_comm. reflexivity.
Qed.

End OrderFacts.

Import OrderFacts.

(** ** Order and commutativity on doubles *)

Lemma mul_comm (x y : float) : x * y = y * x.
Proof. apply Prim2SF_inj. rewrite !mul_spec. apply SFmul_comm. Qed.

Lemma add_comm (x y : float) : x + y = y + x.
Proof. apply Prim2SF_inj. rewrite !add_spec. apply SFadd_comm. Qed.

Lemma compare_key (x y : float) :
  is_nan x = false -> is_nan y = false ->
  SFcompare (Prim2SF x) (Prim2SF y) = Some (order_key x ?= order_key y)%Z.
Proof.
  intros Hx Hy. apply is_nan_false_spec in Hx, Hy.
  apply SFcompare_rank; auto using Prim2SF_valid.
Qed.

Lemma ltb_key (x y : float) :
  is_nan x = false -> is_nan y = false ->
  (x <? y) = (order_key x <? order_key y)%Z.
Proof.
  intros Hx Hy. rewrite ltb_spec. unfold SFltb. rewrite compare_key by assumption.
  unfold Z.ltb. reflexivity.
Qed.

Lemma leb_key (x y : float) :
  is_nan x = false -> is_nan y = false ->
  (x <=? y) = (order_key x <=? order_key y)%Z.
Proof.
  intros Hx Hy. rewrite leb_spec. unfold SFleb. rewrite compare_key by assumption.
  unfold Z.leb. destruct (order_key x ?= order_key y)%Z; reflexivity.
Qed.

Lemma ltb_nan_l (x y : float) : is_nan x = true -> (x <? y) = false.
Proof. intros H. apply is_nan_spec in H. rewrite ltb_spec, H. reflexivity. Qed.

Lemma ltb_nan_r (x y : float) : is_nan y = true -> (x <? y) = false.
Proof.
  intros H. apply is_nan_spec in H. rewrite ltb_spec, H.
  destruct (Prim2SF x); reflexivity.
Qed.

Lemma ltb_irrefl (x : float) : (x <? x) = false.
Proof.
  destruct (is_nan x) eqn:E; [apply ltb_nan_l, E|].
  rewrite ltb_key by exact E. apply Z.ltb_irrefl.
Qed.

Lemma ltb_trans (x y z : float) :
  (x <? y) = true -> (y <? z) = true -> (x <? z) = true.
Proof.
  intros H1 H2.
  destruct (ltb_not_nan _ _ H1) as [Nx Ny].
  destruct (ltb_not_nan _ _ H2) as [_ Nz].
  rewrite ltb_key in * by assumption.
  apply Z.ltb_lt in H1, H2. apply Z.ltb_lt. lia.
Qed.

(* negative transitivity, the middle one not nan *)
Lemma not_ltb_trans (x y z : float) :
  is_nan y = false ->
  (y <? x) = false -> (z <? y) = false -> (z <? x) = false.
Proof.
  intros Ny H1 H2.
  destruct (is_nan x) eqn:Nx; [apply ltb_nan_r, Nx|].
  destruct (is_nan z) eqn:Nz; [apply ltb_nan_l, Nz|].
  rewrite ltb_key in * by assumption.
  apply Z.ltb_ge in H1, H2. apply Z.ltb_ge. lia.
Qed.


Module SignFacts.
Local Open Scope Z_scope.

Lemma signed_not_negative x : signed_as false x -> not_negative x.
Proof. destruct x as [s|s| |s m e]; cbn; intros H; subst; auto. Qed.

Lemma not_negative_spec x : SFltb x pzero = false <-> not_negative x.
Proof.
  destruct x as [[|]|[|]| |[|] m e]; cbn; split; intros H; auto;
    try discriminate; contradiction.
Qed.

Lemma binary_round_sign s m e : signed_as s (binary_round prec emax s m e).
Proof.
  unfold binary_round.
  destruct (shl_align m e _) as [mz ez]. apply binary_round_aux_sign. lia.
Qed.

Lemma binary_normalize_not_negative D e :
  0 <= D -> not_negative (binary_normalize prec emax D e false).
Proof.
  intros HD. destruct D as [|p|p]; [exact I| |lia].
  apply signed_not_negative. cbn [binary_normalize]. apply binary_round_sign.
Qed.

Lemma SFmul_self_not_negative x : not_negative (SF64mul x x).
Proof.
  destruct x as [s|s| |s m e]; cbn; auto.
  - destruct s; exact I.
  - apply signed_not_negative.
    replace (xorb s s) with false by (destruct s; reflexivity).
    apply binary_round_aux_sign. lia.
Qed.

Lemma SFadd_not_negative x y :
  not_negative x -> not_negative y -> not_negative (SF64add x y).
Proof.
  destruct x as [sx|[|]| |[|] mx ex]; cbn [not_negative]; try contradiction;
    destruct y as [sy|[|]| |[|] my ey]; cbn [not_negative]; try contradiction;
    intros _ _; try exact I.
  - destruct sx, sy; exact I.
  - unfold SF64add. cbn [SFadd cond_Zopp]. apply binary_normalize_not_negative. lia.
Qed.

Lemma div_eucl_nonneg a b : 0 <= a -> 0 < b -> 0 <= fst (Z.div_eucl a b).
Proof.
  intros Ha Hb. pose proof (Z.div_pos a b Ha Hb) as H.
  unfold Z.div in H. exact H.
Qed.

Lemma SFdiv_not_negative x y :
  not_negative x -> signed_as false y -> not_negative (SF64div x y).
Proof.
  intros Hx Hy.
  destruct y as [sy|sy| |sy my ey]; cbn [signed_as] in Hy; try contradiction; subst;
    destruct x as [sx|[|]| |[|] mx ex]; cbn [not_negative] in Hx; try contradiction;
    try exact I; try (destruct sx; exact I).
  unfold SF64div. cbn [SFdiv xorb]. unfold SFdiv_core_binary.
  set (s := (ex - ey - _)%Z).
  set (m' := match s with
             | Z.pos _ => Z.shiftl (Z.pos mx) s
             | 0 => Z.pos mx
             | Z.neg _ => 0
             end).
  assert (Hm : 0 <= m').
  { unfold m'. destruct s; try lia. apply Z.shiftl_nonneg. lia. }
  pose proof (div_eucl_nonneg m' (Z.pos my) Hm ltac:(lia)) as Hq.
  destruct (Z.div_eucl m' (Z.pos my)) as [q r]. cbn [fst] in Hq.
  apply signed_not_negative, binary_round_aux_sign, Hq.
Qed.

End SignFacts.

Import SignFacts.

(** ** Values that are not negative *)

Lemma ltb_zero_spec (x : float) : (x <? 0) = false <-> not_negative (Prim2SF x).
Proof. rewrite ltb_spec. apply not_negative_spec. Qed.

Lemma mul_self_not_negative (x : float) : (x * x <? 0) = false.
Proof. apply ltb_zero_spec. rewrite mul_spec. apply SFmul_self_not_negative. Qed.

Lemma add_not_negative (x y : float) :
  (x <? 0) = false -> (y <? 0) = false -> (x + y <? 0) = false.
Proof.
  rewrite !ltb_zero_spec, add_spec. apply SFadd_not_negative.
Qed.

Lemma double_of_size_sign (n : nat) : signed_as false (Prim2SF (double_of_size n)).
Proof.
  unfold double_of_size. rewrite of_uint63_spec.
  pose proof (Uint63.to_Z_bounded (Uint63.of_Z (Z.of_nat n))) as H.
  destruct (Uint63Axioms.to_Z _) as [|p|p]; [reflexivity| |lia].
  cbn [binary_normalize]. apply binary_round_sign.
Qed.

Lemma div_size_not_negative (x : float) (n : nat) :
  (x <? 0) = false -> (x / double_of_size n <? 0) = false.
Proof.
  rewrite !ltb_zero_spec, div_spec. intros H.
  apply SFdiv_not_negative; [exact H | apply double_of_size_sign].
Qed.


(* ================================================================= *)
(** * Shapes and loops of matrices *)

Lemma square_shaped n L : square n L <-> shaped n n L.
Proof. reflexivity. Qed.

Lemma shaped_zeros (r c : nat) : shaped r c (Matrix.zeros r c).
Proof.
  unfold shaped, Matrix.zeros. cbn. rewrite repeat_length.
  repeat split; auto. intros i Hi.
  rewrite nth_repeat_lt by exact Hi. apply repeat_length.
Qed.

Lemma shaped_set (r c : nat) (L : Matrix.t) (i j : nat) (x : double) :
  shaped r c L -> shaped r c (Matrix.set L i j x).
Proof.
  intros (Hr & Hc & Hl & Hrow). unfold shaped, Matrix.set. cbn.
  rewrite length_upd. repeat split; auto.
  intros k Hk. destruct (Nat.eq_dec i k) as [->|Hne].
  - rewrite nth_upd_same by lia. rewrite length_upd. auto.
  - rewrite nth_upd_other by exact Hne. auto.
Qed.

Lemma get_set_cell (r c : nat) (L : Matrix.t) (i j : nat) (x : double) :
  shaped r c L -> (i < r)%nat -> (j < c)%nat ->
  Matrix.get (Matrix.set L i j x) i j = x.
Proof.
  intros (Hr & Hc & Hl & Hrow) Hi Hj. unfold Matrix.get, Matrix.set. cbn.
  rewrite nth_upd_same by lia. apply nth_upd_same. rewrite Hrow; assumption.
Qed.

Lemma get_outside (r c : nat) (m : Matrix.t) (i j : nat) :
  shaped r c m -> (r <= i \/ c <= j)%nat -> Matrix.get m i j = 0.
Proof.
  intros (Hr & Hc & Hl & Hrow) H. unfold Matrix.get.
  destruct (Nat.lt_ge_cases i r) as [Hi|Hi].
  - apply nth_overflow. rewrite Hrow by exact Hi. lia.
  - rewrite (nth_overflow (Matrix.data m)) by lia. destruct j; reflexivity.
Qed.

Lemma list_ext {A : Type} (d : A) (l l' : list A) :
  length l = length l' ->
  (forall i, (i < length l)%nat -> nth i l d = nth i l' d) -> l = l'.
Proof.
  revert l'. induction l as [|x l IH]; intros [|y l'] Hlen H; cbn in Hlen; try lia.
  - reflexivity.
  - f_equal.
    + apply (H 0%nat). cbn. lia.
    + apply IH; [lia|]. intros i Hi. apply (H (S i)). cbn. lia.
Qed.

(** Two matrices of one shape with the same entries are equal. *)
Lemma matrix_ext (r c : nat) (A B : Matrix.t) :
  shaped r c A -> shaped r c B ->
  (forall i j, (i < r)%nat -> (j < c)%nat -> Matrix.get A i j = Matrix.get B i j) ->
  A = B.
Proof.
  intros (Ar & Ac & Al & Arow) (Br & Bc & Bl & Brow) H.
  destruct A as [ra ca da], B as [rb cb db]. cbn in *.
  rewrite Ar, Ac, Br, Bc. f_equal. apply (list_ext []); [lia|].
  intros i Hi. rewrite Al in Hi.
  apply (list_ext 0); [rewrite Arow, Brow by lia; reflexivity|].
  intros j Hj. rewrite Arow in Hj by exact Hi.
  apply (H i j); assumption.
Qed.

Lemma set_get_same (r c : nat) (m : Matrix.t) (i j : nat) :
  shaped r c m -> Matrix.set m i j (Matrix.get m i j) = m.
Proof.
  intros Hm. apply (matrix_ext r c); [apply shaped_set, Hm | exact Hm |].
  intros a b Ha Hb.
  destruct (Nat.eq_dec a i) as [->|Ha'].
  - destruct (Nat.eq_dec b j) as [->|Hb'].
    + apply (get_set_cell r c); assumption.
    + apply get_set_other. auto.
  - apply get_set_other. auto.
Qed.

Lemma set_set (m : Matrix.t) (i j : nat) (x y : double) :
  Matrix.set (Matrix.set m i j x) i j y = Matrix.set m i j y.
Proof.
  unfold Matrix.set. cbn. f_equal.
  assert (Hupd : forall (A : Type) (l : list A) k a b, upd (upd l k a) k b = upd l k b).
  { intros A l. induction l as [|h t IH]; intros [|k] a b; cbn; auto.
    f_equal. apply IH. }
  destruct (Nat.lt_ge_cases i (length (Matrix.data m))) as [Hi|Hi].
  - rewrite nth_upd_same by exact Hi. rewrite Hupd, Hupd. reflexivity.
  - assert (Hout : forall (A : Type) (l : list A) k a,
              (length l <= k)%nat -> upd l k a = l).
    { intros A l. induction l as [|h t IH]; intros [|k] a Hk; cbn in *; auto; try lia.
      f_equal. apply IH. lia. }
    rewrite !Hout by (rewrite ?Hout; assumption). reflexivity.
Qed.

(** A loop that updates one cell at every pass. *)
Lemma cell_loop (r c : nat) (g : nat -> double -> double) (i j n : nat) (m : Matrix.t) :
  shaped r c m -> (i < r)%nat -> (j < c)%nat ->
  for_ n (fun k res => Matrix.set res i j (g k (Matrix.get res i j))) m =
  Matrix.set m i j (for_ n g (Matrix.get m i j)).
Proof.
  intros Hm Hi Hj. induction n as [|n IH].
  - cbn. symmetry. apply (set_get_same r c), Hm.
  - rewrite !for_succ, IH.
    rewrite (get_set_cell r c) by assumption. apply set_set.
Qed.

Lemma pair_neq (a b a0 b0 : nat) : (a, b) <> (a0, b0) -> a <> a0 \/ b <> b0.
Proof.
  intros H. destruct (Nat.eq_dec a a0) as [->|]; [|auto].
  right. intros ->. apply H. reflexivity.
Qed.

Lemma for_invariant_at {S : Type} (body : nat -> S -> S) (P : nat -> S -> Prop)
    (n : nat) :
  (forall k s, (k < n)%nat -> P k s -> P (Datatypes.S k) (body k s)) ->
  forall s, P 0%nat s -> P n (for_ n body s).
Proof.
  induction n as [|n IH]; intros Hb s Hs; [exact Hs|].
  rewrite for_succ. apply Hb; [lia|]. apply IH; [|exact Hs].
  intros k s' Hk. apply Hb. lia.
Qed.

(** Two nested loops whose pass [(i, j)] rewrites the one cell
    [cell i j] of the result, a different cell at every pass. *)
Lemma fill_spec (r c R C : nat) (cell : nat -> nat -> nat * nat)
    (f : nat -> nat -> double -> double)
    (body : nat -> nat -> Matrix.t -> Matrix.t) (init : Matrix.t) :
  (forall i j s, (i < r)%nat -> (j < c)%nat -> shaped R C s ->
     body i j s =
     Matrix.set s (fst (cell i j)) (snd (cell i j))
       (f i j (Matrix.get s (fst (cell i j)) (snd (cell i j))))) ->
  (forall i j i' j', (i < r)%nat -> (j < c)%nat -> (i' < r)%nat -> (j' < c)%nat ->
     cell i j = cell i' j' -> i = i' /\ j = j') ->
  (forall i j, (i < r)%nat -> (j < c)%nat ->
     (fst (cell i j) < R)%nat /\ (snd (cell i j) < C)%nat) ->
  shaped R C init ->
  let res := for_ r (fun i s => for_ c (fun j s => body i j s) s) init in
  shaped R C res /\
  (forall i j, (i < r)%nat -> (j < c)%nat ->
     Matrix.get res (fst (cell i j)) (snd (cell i j)) =
     f i j (Matrix.get init (fst (cell i j)) (snd (cell i j)))) /\
  (forall a b, (forall i j, (i < r)%nat -> (j < c)%nat -> cell i j <> (a, b)) ->
     Matrix.get res a b = Matrix.get init a b).
Proof.
  intros Hbody Hinj Hrange Hinit res.
  set (passed := fun i0 j0 i j : nat =>
         ((i < i0)%nat /\ (j < c)%nat) \/ (i = i0 /\ (j < j0)%nat)).
  set (Q := fun i0 j0 (s : Matrix.t) =>
         shaped R C s /\
         (forall i j, passed i0 j0 i j ->
            Matrix.get s (fst (cell i j)) (snd (cell i j)) =
            f i j (Matrix.get init (fst (cell i j)) (snd (cell i j)))) /\
         (forall a b, (forall i j, passed i0 j0 i j -> cell i j <> (a, b)) ->
            Matrix.get s a b = Matrix.get init a b)).
  assert (Hrow : forall i0 s, (i0 < r)%nat -> Q i0 0%nat s ->
            Q (S i0) 0%nat (for_ c (fun j s => body i0 j s) s)).
  { intros i0 s Hi0 Hs.
    assert (Hc : Q i0 c (for_ c (fun j s => body i0 j s) s)).
    { apply (for_invariant_at _ (fun j s => Q i0 j s)); [|exact Hs].
      intros j0 s0 Hj0 (Hsh & Hdone & Hrest).
      destruct (Hrange i0 j0 Hi0 Hj0) as [Ha Hb].
      assert (Hfresh : Matrix.get s0 (fst (cell i0 j0)) (snd (cell i0 j0)) =
                       Matrix.get init (fst (cell i0 j0)) (snd (cell i0 j0))).
      { apply Hrest. intros i j Hp E.
        rewrite <- surjective_pairing in E.
        assert (Hi : (i < r)%nat /\ (j < c)%nat) by (unfold passed in Hp; lia).
        destruct (Hinj i j i0 j0) as [E1 E2]; try tauto.
        unfold passed in Hp. lia. }
      rewrite Hbody by assumption. split; [apply shaped_set, Hsh|]. split.
      - intros i j Hp.
        destruct (Nat.eq_dec i i0) as [->|Hi]; [destruct (Nat.eq_dec j j0) as [->|Hj]|].
        + rewrite (get_set_cell R C) by assumption. rewrite Hfresh. reflexivity.
        + assert (Hp' : passed i0 j0 i0 j) by (unfold passed in *; lia).
          rewrite get_set_other; [apply Hdone, Hp'|].
          assert (Hne : cell i0 j <> cell i0 j0).
          { intros E. destruct (Hinj i0 j i0 j0) as [_ E2]; auto.
            unfold passed in Hp'. lia. }
          destruct (cell i0 j) as [a b], (cell i0 j0) as [a0 b0]. cbn.
          apply pair_neq, Hne.
        + assert (Hp' : passed i0 j0 i j) by (unfold passed in *; lia).
          rewrite get_set_other; [apply Hdone, Hp'|].
          assert (Hne : cell i j <> cell i0 j0).
          { intros E. destruct (Hinj i j i0 j0) as [E1 _]; auto;
              unfold passed in Hp'; lia. }
          destruct (cell i j) as [a b], (cell i0 j0) as [a0 b0]. cbn.
          apply pair_neq, Hne.
      - intros a b Hab.
        rewrite get_set_other.
        + apply Hrest. intros i j Hp. apply Hab. unfold passed in *. lia.
        + assert (Hne : cell i0 j0 <> (a, b)) by (apply Hab; unfold passed; lia).
          destruct (cell i0 j0) as [a0 b0]. cbn.
          apply pair_neq. congruence. }
    destruct Hc as (Hsh & Hdone & Hrest). split; [exact Hsh|]. split.
    - intros i j Hp. apply Hdone. unfold passed in *. lia.
    - intros a b Hab. apply Hrest. intros i j Hp. apply Hab. unfold passed in *. lia. }
  assert (Hall : Q r 0%nat res).
  { apply (for_invariant_at _ (fun i s => Q i 0%nat s)).
    - intros i0 s Hi0 Hs. apply Hrow; assumption.
    - split; [exact Hinit|]. split.
      + intros i j Hp. unfold passed in Hp. lia.
      + reflexivity. }
  destruct Hall as (Hsh & Hdone & Hrest). split; [exact Hsh|]. split.
  - intros i j Hi Hj. apply Hdone. unfold passed. lia.
  - intros a b Hab. apply Hrest. intros i j Hp. apply Hab; unfold passed in Hp; lia.
Qed.

(* ================================================================= *)
(** * Matrices *)

Lemma of_rows_well_formed (d : list (list double)) (m : Matrix.t) :
  Matrix.of_rows d = Ok m -> well_formed m.
Proof.
  unfold Matrix.of_rows. destruct d as [|r0 d'].
  - intros H. apply Ok_inj in H. subst m. repeat split. cbn. intros i Hi. lia.
  - destruct (forallb _ _) eqn:Hall; [|discriminate].
    intros H. apply Ok_inj in H. subst m. unfold well_formed, shaped.
    cbn [Matrix.rows Matrix.cols Matrix.data]. repeat split.
    intros i Hi. rewrite forallb_forall in Hall.
    apply Nat.eqb_eq, Hall, nth_In, Hi.
Qed.

(** X1.  The constructor [Matrix(d)] throws exactly when some row is not as
    long as the first; otherwise it keeps the rows as they are, with
    [rows = d.size()] and [cols = d[0].size()] (0 by 0 for no row), and the
    class invariant holds: every row has [cols] entries. *)
Theorem of_rows_cases (d : list (list double)) :
  (Matrix.of_rows d = Throw (invalid_argument RowsDiffer) <->
   exists row, In row d /\ length row <> length (hd [] d)) /\
  ((forall row, In row d -> length row = length (hd [] d)) ->
   Matrix.of_rows d = Ok (Matrix.mk (length d) (length (hd [] d)) d)) /\
  (forall m, Matrix.of_rows d = Ok m ->
     Matrix.data m = d /\ Matrix.rows m = length d /\
     Matrix.cols m = length (hd [] d) /\ well_formed m).
Proof.
  assert (Hall : forall c,
    forallb (fun row => Nat.eqb (length row) c) d = true <->
    forall row, In row d -> length row = c).
  { intros c. rewrite forallb_forall. split; intros H row Hin.
    - apply Nat.eqb_eq, H, Hin.
    - apply Nat.eqb_eq, H, Hin. }
  split; [|split].
  - unfold Matrix.of_rows. destruct d as [|r0 d'].
    + split; [discriminate | intros (row & [] & _)].
    + cbn [hd]. destruct (forallb _ _) eqn:E.
      * split; [discriminate|]. intros (row & Hin & Hne).
        exfalso. apply Hne. apply (proj1 (Hall _) E), Hin.
      * split; [|reflexivity]. intros _.
        destruct (existsb (fun row => negb (Nat.eqb (length row) (length r0)))
                    (r0 :: d')) eqn:Hex.
        -- apply existsb_exists in Hex. destruct Hex as (row & Hin & Hne).
           exists row. split; [exact Hin|].
           apply Nat.eqb_neq, negb_true_iff, Hne.
        -- exfalso. rewrite <- not_true_iff_false in E. apply E.
           apply forallb_forall. intros row Hin.
           rewrite <- not_true_iff_false, existsb_exists in Hex.
           destruct (Nat.eqb (length row) (length r0)) eqn:El; [reflexivity|].
           exfalso. apply Hex. exists row. rewrite El. auto.
  - intros H. unfold Matrix.of_rows. destruct d as [|r0 d']; [reflexivity|].
    cbn [hd] in *. rewrite (proj2 (Hall _) H). reflexivity.
  - intros m Hm. pose proof (of_rows_well_formed d m Hm) as Hwf.
    unfold Matrix.of_rows in Hm. destruct d as [|r0 d'].
    + apply Ok_inj in Hm. subst m. auto.
    + destruct (forallb _ _); [|discriminate].
      apply Ok_inj in Hm. subst m. auto.
Qed.

Lemma transpose_shape_get (m : Matrix.t) :
  shaped (Matrix.cols m) (Matrix.rows m) (Matrix.transpose m) /\
  (forall i j, (i < Matrix.rows m)%nat -> (j < Matrix.cols m)%nat ->
     Matrix.get (Matrix.transpose m) j i = Matrix.get m i j).
Proof.
  pose proof (fill_spec (Matrix.rows m) (Matrix.cols m) (Matrix.cols m)
                (Matrix.rows m) (fun i j => (j, i)) (fun i j _ => Matrix.get m i j)
                (fun i j res => Matrix.set res j i (Matrix.get m i j))
                (Matrix.zeros (Matrix.cols m) (Matrix.rows m))) as H.
  cbn [fst snd] in H.
  destruct H as (Hsh & Hget & _).
  - reflexivity.
  - intros i j i' j' _ _ _ _ E. injection E as -> ->. auto.
  - auto.
  - apply shaped_zeros.
  - split; [exact Hsh | exact Hget].
Qed.

(** X2.  The transpose of a matrix that satisfies the class invariant has
    the dimensions exchanged, satisfies the class invariant, and holds
    [m(i, j)] at [(j, i)]; transposing twice gives the matrix back. *)
Theorem transpose_involutive (m : Matrix.t) :
  well_formed m ->
  shaped (Matrix.cols m) (Matrix.rows m) (Matrix.transpose m) /\
  (forall i j, (i < Matrix.rows m)%nat -> (j < Matrix.cols m)%nat ->
     Matrix.get (Matrix.transpose m) j i = Matrix.get m i j) /\
  Matrix.transpose (Matrix.transpose m) = m.
Proof.
  intros Hwf. destruct (transpose_shape_get m) as [Hsh Hget].
  split; [exact Hsh|]. split; [exact Hget|].
  destruct (transpose_shape_get (Matrix.transpose m)) as [Hsh2 Hget2].
  destruct Hsh as (Hr & Hc & _). rewrite Hr, Hc in Hsh2, Hget2.
  apply (matrix_ext (Matrix.rows m) (Matrix.cols m)); [exact Hsh2 | exact Hwf |].
  intros i j Hi Hj. rewrite Hget2 by assumption. apply Hget; assumption.
Qed.

Lemma transpose_involutive_witness :
  well_formed Examples.scenario_returns /\
  Matrix.transpose (Matrix.transpose Examples.scenario_returns) =
    Examples.scenario_returns.
Proof.
  assert (H : well_formed Examples.scenario_returns)
    by (apply (of_rows_well_formed (Matrix.data Examples.scenario_returns));
        reflexivity).
  split; [exact H|]. apply (transpose_involutive Examples.scenario_returns H).
Defined.

Lemma dot_entries (m other : Matrix.t) :
  let res :=
    for_ (Matrix.rows m) (fun i res =>
      for_ (Matrix.cols other) (fun j res =>
        for_ (Matrix.cols m) (fun k res =>
          Matrix.set res i j
            (Matrix.get res i j + Matrix.get m i k * Matrix.get other k j)) res) res)
      (Matrix.zeros (Matrix.rows m) (Matrix.cols other)) in
  shaped (Matrix.rows m) (Matrix.cols other) res /\
  (forall i j, (i < Matrix.rows m)%nat -> (j < Matrix.cols other)%nat ->
     Matrix.get res i j =
     for_ (Matrix.cols m)
       (fun k sum => sum + Matrix.get m i k * Matrix.get other k j) 0).
Proof.
  pose proof (fill_spec (Matrix.rows m) (Matrix.cols other) (Matrix.rows m)
                (Matrix.cols other) (fun i j => (i, j))
                (fun i j x =>
                   for_ (Matrix.cols m)
                     (fun k sum => sum + Matrix.get m i k * Matrix.get other k j) x)
                (fun i j res =>
                   for_ (Matrix.cols m) (fun k res =>
                     Matrix.set res i j
                       (Matrix.get res i j + Matrix.get m i k * Matrix.get other k j))
                     res)
                (Matrix.zeros (Matrix.rows m) (Matrix.cols other))) as H.
  cbn [fst snd] in H.
  destruct H as (Hsh & Hget & _).
  - intros i j s Hi Hj Hs.
    apply (cell_loop (Matrix.rows m) (Matrix.cols other)
             (fun k x => x + Matrix.get m i k * Matrix.get other k j));
      assumption.
  - intros i j i' j' _ _ _ _ E. injection E as -> ->. auto.
  - auto.
  - apply shaped_zeros.
  - split; [exact Hsh|]. intros i j Hi Hj.
    rewrite Hget by assumption. rewrite get_zeros. reflexivity.
Qed.

Lemma dot_matched (m other : Matrix.t) :
  Matrix.cols m = Matrix.rows other ->
  exists res,
    Matrix.dot m other = Ok res /\
    shaped (Matrix.rows m) (Matrix.cols other) res /\
    forall i j, (i < Matrix.rows m)%nat -> (j < Matrix.cols other)%nat ->
      Matrix.get res i j =
      for_ (Matrix.cols m)
        (fun k sum => sum + Matrix.get m i k * Matrix.get other k j) 0.
Proof.
  intros E. unfold Matrix.dot. apply Nat.eqb_eq in E. rewrite E. cbn [negb].
  eexists. split; [reflexivity|]. apply dot_entries.
Qed.

(** X3.  [dot] throws exactly when the column count of the left matrix
    differs from the row count of the right one.  Otherwise the product has
    the rows of the left and the columns of the right matrix, satisfies the
    class invariant, and its entry [(i, j)] is the running sum, from 0.0 and
    in the order of [k], of [m(i, k) * other(k, j)]. *)
Theorem dot_cases (m other : Matrix.t) :
  (Matrix.dot m other = Throw (invalid_argument DotMismatch) <->
   Matrix.cols m <> Matrix.rows other) /\
  (Matrix.cols m = Matrix.rows other ->
   exists res,
     Matrix.dot m other = Ok res /\
     shaped (Matrix.rows m) (Matrix.cols other) res /\
     forall i j, (i < Matrix.rows m)%nat -> (j < Matrix.cols other)%nat ->
       Matrix.get res i j =
       for_ (Matrix.cols m)
         (fun k sum => sum + Matrix.get m i k * Matrix.get other k j) 0).
Proof.
  split; [|apply dot_matched].
  destruct (Nat.eq_dec (Matrix.cols m) (Matrix.rows other)) as [E|E].
  - destruct (dot_matched m other E) as (res & Hres & _). rewrite Hres.
    split; [discriminate | intros H; contradiction].
  - split; [intros _; exact E|]. intros _.
    unfold Matrix.dot. apply Nat.eqb_neq in E. rewrite E. reflexivity.
Qed.

(** The loops of the three entrywise operators, on a copy of [m]. *)
Lemma entrywise_loop (m : Matrix.t) (f : nat -> nat -> double -> double) :
  well_formed m ->
  let res :=
    for_ (Matrix.rows m) (fun i result =>
      for_ (Matrix.cols m) (fun j result =>
        Matrix.set result i j (f i j (Matrix.get result i j))) result) m in
  shaped (Matrix.rows m) (Matrix.cols m) res /\
  (forall i j, (i < Matrix.rows m)%nat -> (j < Matrix.cols m)%nat ->
     Matrix.get res i j = f i j (Matrix.get m i j)).
Proof.
  intros Hwf.
  pose proof (fill_spec (Matrix.rows m) (Matrix.cols m) (Matrix.rows m)
                (Matrix.cols m) (fun i j => (i, j)) f
                (fun i j result =>
                   Matrix.set result i j (f i j (Matrix.get result i j))) m) as H.
  cbn [fst snd] in H.
  destruct H as (Hsh & Hget & _).
  - reflexivity.
  - intros i j i' j' _ _ _ _ E. injection E as -> ->. auto.
  - auto.
  - exact Hwf.
  - split; assumption.
Qed.

Lemma dimensions_differ (m other : Matrix.t) :
  negb (Nat.eqb (Matrix.rows m) (Matrix.rows other))
  || negb (Nat.eqb (Matrix.cols m) (Matrix.cols other)) = true <->
  Matrix.rows m <> Matrix.rows other \/ Matrix.cols m <> Matrix.cols other.
Proof.
  rewrite orb_true_iff, !negb_true_iff, !Nat.eqb_neq. reflexivity.
Qed.

Lemma operator_add_entries (m other res : Matrix.t) :
  well_formed m ->
  Matrix.operator_add m other = Some res ->
  shaped (Matrix.rows m) (Matrix.cols m) res /\
  forall i j, (i < Matrix.rows m)%nat -> (j < Matrix.cols m)%nat ->
    Matrix.get res i j = Matrix.get m i j + Matrix.get other i j.
Proof.
  intros Hwf. unfold Matrix.operator_add.
  destruct (negb _ || negb _); [discriminate|].
  intros H. injection H as <-.
  apply (entrywise_loop m (fun i j x => x + Matrix.get other i j) Hwf).
Qed.

(** X4.  On a matrix that satisfies the class invariant, [operator*],
    [operator+] and [operator-] work entry by entry and keep the
    dimensions; [operator+] and [operator-] throw exactly when the two
    matrices differ in a dimension. *)
Theorem operators_entrywise (m other : Matrix.t) (scalar : double) :
  well_formed m ->
  (shaped (Matrix.rows m) (Matrix.cols m) (Matrix.operator_mul m scalar) /\
   forall i j, (i < Matrix.rows m)%nat -> (j < Matrix.cols m)%nat ->
     Matrix.get (Matrix.operator_mul m scalar) i j = Matrix.get m i j * scalar) /\
  (Matrix.operator_add m other = None <->
   Matrix.rows m <> Matrix.rows other \/ Matrix.cols m <> Matrix.cols other) /\
  (forall res, Matrix.operator_add m other = Some res ->
     shaped (Matrix.rows m) (Matrix.cols m) res /\
     forall i j, (i < Matrix.rows m)%nat -> (j < Matrix.cols m)%nat ->
       Matrix.get res i j = Matrix.get m i j + Matrix.get other i j) /\
  (Matrix.operator_sub m other = None <->
   Matrix.rows m <> Matrix.rows other \/ Matrix.cols m <> Matrix.cols other) /\
  (forall res, Matrix.operator_sub m other = Some res ->
     shaped (Matrix.rows m) (Matrix.cols m) res /\
     forall i j, (i < Matrix.rows m)%nat -> (j < Matrix.cols m)%nat ->
       Matrix.get res i j = Matrix.get m i j - Matrix.get other i j).
Proof.
  intros Hwf.
  split; [apply (entrywise_loop m (fun _ _ x => x * scalar) Hwf)|].
  pose proof (dimensions_differ m other) as Hdim.
  split.
  { unfold Matrix.operator_add. rewrite <- Hdim.
    destruct (negb _ || negb _); split; (reflexivity || discriminate). }
  split; [exact (fun res => operator_add_entries m other res Hwf)|].
  unfold Matrix.operator_sub.
  destruct (negb (Nat.eqb (Matrix.rows m) (Matrix.rows other))
            || negb (Nat.eqb (Matrix.cols m) (Matrix.cols other)));
    rewrite <- Hdim.
  - split; [split; reflexivity | discriminate].
  - split; [split; discriminate|].
    intros res H. injection H as <-.
    apply (entrywise_loop m (fun i j x => x - Matrix.get other i j) Hwf).
Qed.

Lemma operators_entrywise_witness :
  well_formed Examples.scenario_returns /\
  Matrix.get
    (Matrix.operator_mul Examples.scenario_returns 2) 2 1 =
  Matrix.get Examples.scenario_returns 2 1 * 2.
Proof.
  assert (H : well_formed Examples.scenario_returns)
    by (apply (of_rows_well_formed (Matrix.data Examples.scenario_returns));
        reflexivity).
  split; [exact H|].
  apply (operators_entrywise Examples.scenario_returns Matrix.empty 2 H);
    cbn; lia.
Defined.

(** X5.  [operator+] is commutative, in double arithmetic: on two matrices
    that satisfy the class invariant, [a + b] and [b + a] fail together
    or are the same matrix, bit for bit. *)
Theorem operator_add_comm (a b : Matrix.t) :
  well_formed a -> well_formed b ->
  Matrix.operator_add a b = Matrix.operator_add b a.
Proof.
  intros Ha Hb.
  destruct (Matrix.operator_add a b) as [ab|] eqn:Eab;
    destruct (Matrix.operator_add b a) as [ba|] eqn:Eba.
  - f_equal.
    assert (Hdim : Matrix.rows a = Matrix.rows b /\ Matrix.cols a = Matrix.cols b).
    { unfold Matrix.operator_add in Eab.
      destruct (Nat.eqb (Matrix.rows a) (Matrix.rows b)) eqn:E1;
        destruct (Nat.eqb (Matrix.cols a) (Matrix.cols b)) eqn:E2;
        try discriminate Eab.
      apply Nat.eqb_eq in E1, E2. auto. }
    destruct Hdim as [Hr Hc].
    destruct (operator_add_entries a b ab Ha Eab) as [Hsh1 Hget1].
    destruct (operator_add_entries b a ba Hb Eba) as [Hsh2 Hget2].
    rewrite <- Hr, <- Hc in Hsh2, Hget2.
    apply (matrix_ext (Matrix.rows a) (Matrix.cols a)); [exact Hsh1 | exact Hsh2 |].
    intros i j Hi Hj. rewrite Hget1, Hget2 by assumption. apply add_comm.
  - exfalso. unfold Matrix.operator_add in *.
    rewrite (Nat.eqb_sym (Matrix.rows b)), (Nat.eqb_sym (Matrix.cols b)) in Eba.
    destruct (negb _ || negb _); discriminate.
  - exfalso. unfold Matrix.operator_add in *.
    rewrite (Nat.eqb_sym (Matrix.rows b)), (Nat.eqb_sym (Matrix.cols b)) in Eba.
    destruct (negb _ || negb _); discriminate.
  - reflexivity.
Qed.

Lemma operator_add_comm_witness :
  well_formed Examples.scenario_returns /\
  well_formed (Matrix.operator_mul Examples.scenario_returns 2) /\
  Matrix.operator_add Examples.scenario_returns
    (Matrix.operator_mul Examples.scenario_returns 2) =
  Matrix.operator_add (Matrix.operator_mul Examples.scenario_returns 2)
    Examples.scenario_returns.
Proof.
  assert (H1 : well_formed Examples.scenario_returns)
    by (apply (of_rows_well_formed (Matrix.data Examples.scenario_returns));
        reflexivity).
  assert (H2 : well_formed (Matrix.operator_mul Examples.scenario_returns 2))
    by (apply (of_rows_well_formed
                 (Matrix.data (Matrix.operator_mul Examples.scenario_returns 2)));
        reflexivity).
  split; [exact H1|]. split; [exact H2|].
  apply (operator_add_comm _ _ H1 H2).
Defined.

Lemma for_range_invariant {S : Type} (body : nat -> S -> S) (P : S -> Prop)
    (a b : nat) :
  (forall k s, (a <= k < b)%nat -> P s -> P (body k s)) ->
  forall s, P s -> P (for_range a b body s).
Proof.
  unfold for_range. intros Hb.
  assert (H : forall n s, (a + n <= Nat.max a b)%nat -> P s ->
            P (fold_left (fun acc i => body i acc) (seq a n) s)).
  { induction n as [|n IH]; intros s Hn Hs; [exact Hs|].
    rewrite seq_S, fold_left_app. cbn [fold_left].
    destruct (Nat.le_gt_cases b a) as [Hle|Hlt].
    - rewrite Nat.max_l in Hn by exact Hle. lia.
    - rewrite Nat.max_r in Hn by lia. apply Hb; [lia|]. apply IH; [lia | exact Hs]. }
  intros s Hs. apply H; [lia | exact Hs].
Qed.

Lemma forward_substitution_square (n : nat) (L : Matrix.t) :
  Matrix.rows L = n -> square n (Matrix.forward_substitution L).
Proof.
  intros Hn. unfold Matrix.forward_substitution. rewrite Hn.
  apply (for_invariant _ (square n)); [|apply square_zeros].
  intros i invL _ H.
  apply (for_range_invariant _ (square n)); [|apply square_set, H].
  intros j invL' _ H'. apply square_set, H'.
Qed.

Lemma cholesky_decompose_defined (m : Matrix.t) :
  Matrix.cholesky_decompose m <> Undefined.
Proof.
  unfold Matrix.cholesky_decompose.
  destruct (negb _); [discriminate|].
  apply forM_defined. intros k s. apply cholesky_row_defined.
Qed.

Lemma cholesky_decompose_square (m L : Matrix.t) :
  Matrix.cholesky_decompose m = Ok L -> square (Matrix.rows m) L.
Proof.
  unfold Matrix.cholesky_decompose.
  destruct (negb _); [discriminate|].
  intros H. apply partial_factor_all in H. apply H.
Qed.

(** X6.  [inverse] fails exactly as the Cholesky factorisation of its
    matrix fails, with the same exception: the product that ends it never
    throws.  When it returns, the result is a square matrix of the size of
    its argument and is symmetric bit for bit: entry [(i, j)] is the running
    sum over [k] of [invL(k, i) * invL(k, j)], where [invL] is the matrix of
    the forward substitution. *)
Theorem inverse_cases (m : Matrix.t) :
  (forall e, Matrix.inverse m = Throw e <-> Matrix.cholesky_decompose m = Throw e) /\
  Matrix.inverse m <> Undefined /\
  (forall inv, Matrix.inverse m = Ok inv ->
     square (Matrix.rows m) inv /\
     (exists L,
        Matrix.cholesky_decompose m = Ok L /\
        forall i j, (i < Matrix.rows m)%nat -> (j < Matrix.rows m)%nat ->
          Matrix.get inv i j =
          for_ (Matrix.rows m) (fun k sum =>
            sum + Matrix.get (Matrix.forward_substitution L) k i *
                  Matrix.get (Matrix.forward_substitution L) k j) 0) /\
     forall i j, Matrix.get inv i j = Matrix.get inv j i).
Proof.
  unfold Matrix.inverse.
  pose proof (cholesky_decompose_defined m) as Hdef.
  destruct (Matrix.cholesky_decompose m) as [L| |] eqn:HL; cbn [bind];
    [|repeat split; (discriminate || auto) | contradiction].
  pose proof (cholesky_decompose_square m L HL) as HsqL.
  set (n := Matrix.rows m) in *.
  set (invL := Matrix.forward_substitution L).
  assert (Hinv : square n invL) by (apply forward_substitution_square, HsqL).
  assert (HinvWf : well_formed invL).
  { unfold well_formed. destruct Hinv as (Hr & Hc & H). rewrite Hr, Hc.
    repeat split; auto; apply H. }
  destruct (transpose_shape_get invL) as [HT HTget].
  destruct Hinv as (Hr & Hc & Hlen & Hrows).
  rewrite Hr, Hc in HT, HTget.
  pose proof (dot_matched (Matrix.transpose invL) invL) as Hdot.
  destruct HT as (HTr & HTc & HT').
  destruct Hdot as (res & Hres & Hsh & Hget); [congruence|].
  rewrite HTr, HTc, Hc in *. rewrite Hres.
  assert (Hentry : forall i j, (i < n)%nat -> (j < n)%nat ->
            Matrix.get res i j =
            for_ n (fun k sum => sum + Matrix.get invL k i * Matrix.get invL k j) 0).
  { intros i j Hi Hj. rewrite Hget by assumption.
    apply for_ext. intros k s Hk. rewrite HTget by assumption. reflexivity. }
  split; [intros e; split; discriminate|]. split; [discriminate|].
  intros inv H. apply Ok_inj in H. subst inv.
  split; [exact Hsh|]. split; [exists L; auto|].
  intros i j.
  destruct (Nat.lt_ge_cases i n) as [Hi|Hi];
    [destruct (Nat.lt_ge_cases j n) as [Hj|Hj]|].
  - rewrite !Hentry by assumption. apply for_ext. intros k s _.
    rewrite (mul_comm (Matrix.get invL k i)). reflexivity.
  - rewrite !(get_outside n n) by auto. reflexivity.
  - rewrite !(get_outside n n) by auto. reflexivity.
Qed.

(* ================================================================= *)
(** * Column means and covariances *)

Lemma upd_nth_same {A : Type} (l : list A) : forall i d, upd l i (nth i l d) = l.
Proof.
  induction l as [|h t IH]; intros [|i] d; cbn; auto. f_equal. apply IH.
Qed.

Lemma upd_upd {A : Type} (l : list A) : forall i x y, upd (upd l i x) i y = upd l i y.
Proof.
  induction l as [|h t IH]; intros [|i] x y; cbn; auto. f_equal. apply IH.
Qed.

(** A loop that updates one element of a vector at every pass. *)
Lemma element_loop (g : nat -> double -> double) (j n : nat) (v : list double) :
  (j < length v)%nat ->
  for_ n (fun i v => upd v j (g i (nth j v 0))) v =
  upd v j (for_ n g (nth j v 0)).
Proof.
  intros Hj. induction n as [|n IH].
  - cbn. symmetry. apply upd_nth_same.
  - rewrite !for_succ, IH. rewrite nth_upd_same by exact Hj. apply upd_upd.
Qed.

Lemma column_sums (m : Matrix.t) :
  let mean :=
    for_ (Matrix.cols m) (fun j mean =>
      for_ (Matrix.rows m) (fun i mean =>
        upd mean j (nth j mean 0 + Matrix.get m i j)) mean)
      (repeat 0 (Matrix.cols m)) in
  length mean = Matrix.cols m /\
  forall j, (j < Matrix.cols m)%nat ->
    nth j mean 0 = for_ (Matrix.rows m) (fun i sum => sum + Matrix.get m i j) 0.
Proof.
  set (colsum := fun j => for_ (Matrix.rows m) (fun i sum => sum + Matrix.get m i j) 0).
  set (Q := fun j0 (mean : list double) =>
         length mean = Matrix.cols m /\
         (forall j, (j < j0)%nat -> nth j mean 0 = colsum j) /\
         (forall j, (j0 <= j)%nat -> nth j mean 0 = 0)).
  assert (H : Q (Matrix.cols m)
                (for_ (Matrix.cols m) (fun j mean =>
                   for_ (Matrix.rows m) (fun i mean =>
                     upd mean j (nth j mean 0 + Matrix.get m i j)) mean)
                   (repeat 0 (Matrix.cols m)))).
  { apply (for_invariant_at _ Q).
    - intros j0 mean Hj0 (Hlen & Hdone & Hrest).
      rewrite (element_loop (fun i x => x + Matrix.get m i j0)) by lia.
      split; [rewrite length_upd; exact Hlen|]. split.
      + intros j Hj. destruct (Nat.eq_dec j j0) as [->|Hne].
        * rewrite nth_upd_same by lia. rewrite Hrest by lia. reflexivity.
        * rewrite nth_upd_other by congruence. apply Hdone. lia.
      + intros j Hj. rewrite nth_upd_other by lia. apply Hrest. lia.
    - split; [apply repeat_length|]. split; [intros j Hj; lia|].
      intros j _. destruct (Nat.lt_ge_cases j (Matrix.cols m)) as [Hj|Hj].
      + apply nth_repeat_lt, Hj.
      + apply nth_overflow. rewrite repeat_length. exact Hj. }
  destruct H as (Hlen & Hdone & _). split; [exact Hlen | exact Hdone].
Qed.

(** X7.  [mean_per_column] returns the empty vector exactly for a matrix
    without rows or without columns.  Otherwise it returns one mean per
    column: the running sum of the column, from 0.0 and from the first row
    to the last, divided by the row count. *)
Theorem mean_per_column_cases (m : Matrix.t) :
  (Matrix.mean_per_column m = [] <->
   Matrix.rows m = 0%nat \/ Matrix.cols m = 0%nat) /\
  (Matrix.rows m <> 0%nat ->
   length (Matrix.mean_per_column m) = Matrix.cols m /\
   forall j, (j < Matrix.cols m)%nat ->
     nth j (Matrix.mean_per_column m) 0 =
     for_ (Matrix.rows m) (fun i sum => sum + Matrix.get m i j) 0
     / double_of_size (Matrix.rows m)).
Proof.
  pose proof (column_sums m) as Hsums. cbv zeta in Hsums.
  destruct Hsums as [Hlen Hsum].
  unfold Matrix.mean_per_column.
  destruct (Nat.eqb (Matrix.rows m) 0) eqn:Er; cbn [orb].
  - apply Nat.eqb_eq in Er. split; [tauto | intros H; contradiction].
  - apply Nat.eqb_neq in Er.
    destruct (Nat.eqb (Matrix.cols m) 0) eqn:Ec.
    + apply Nat.eqb_eq in Ec. split; [tauto|]. intros _.
      split; [rewrite Ec; reflexivity | intros j Hj; lia].
    + apply Nat.eqb_neq in Ec. split.
      * split; [|tauto]. intros H. apply (f_equal (@length _)) in H.
        rewrite length_map, Hlen in H. cbn in H. contradiction.
      * intros _. split; [rewrite length_map; exact Hlen|].
        intros j Hj.
        rewrite (nth_indep _ 0 (0 / double_of_size (Matrix.rows m)))
          by (rewrite length_map, Hlen; exact Hj).
        rewrite (map_nth (fun x => x / double_of_size (Matrix.rows m))).
        rewrite Hsum by exact Hj. reflexivity.
Qed.

Lemma covariance_entries (m cov : Matrix.t) :
  Matrix.covariance_matrix m = Ok cov ->
  square (Matrix.cols m) cov /\
  forall i j, (i < Matrix.cols m)%nat -> (j < Matrix.cols m)%nat ->
    Matrix.get cov i j =
    for_ (Matrix.rows m) (fun k sum =>
      sum + (Matrix.get m k i - nth i (Matrix.mean_per_column m) 0)
            * (Matrix.get m k j - nth j (Matrix.mean_per_column m) 0)) 0
    / double_of_size (Matrix.rows m - 1).
Proof.
  unfold Matrix.covariance_matrix.
  destruct (Nat.ltb (Matrix.rows m) 2); [discriminate|].
  intros H. apply Ok_inj in H. subst cov.
  pose proof (fill_spec (Matrix.cols m) (Matrix.cols m) (Matrix.cols m)
                (Matrix.cols m) (fun i j => (i, j))
                (fun i j _ =>
                   for_ (Matrix.rows m) (fun k sum =>
                     sum + (Matrix.get m k i - nth i (Matrix.mean_per_column m) 0)
                           * (Matrix.get m k j - nth j (Matrix.mean_per_column m) 0)) 0
                   / double_of_size (Matrix.rows m - 1))
                (fun i j cov =>
                   Matrix.set cov i j
                     (for_ (Matrix.rows m) (fun k sum =>
                        sum + (Matrix.get m k i - nth i (Matrix.mean_per_column m) 0)
                              * (Matrix.get m k j - nth j (Matrix.mean_per_column m) 0)) 0
                      / double_of_size (Matrix.rows m - 1)))
                (Matrix.zeros (Matrix.cols m) (Matrix.cols m))) as Hfill.
  cbn [fst snd] in Hfill.
  destruct Hfill as (Hsh & Hget & _).
  - reflexivity.
  - intros i j i' j' _ _ _ _ E. injection E as -> ->. auto.
  - auto.
  - apply shaped_zeros.
  - split; [exact Hsh | exact Hget].
Qed.

(** X8.  [covariance_matrix] throws (a runtime error) exactly for a matrix
    of fewer than two rows.  Otherwise it returns a square matrix with one
    row and column per column of its argument, whose entry [(i, j)] is the
    running sum over the rows of the products of the deviations from the
    two column means, divided by [rows - 1]; it is symmetric bit for bit. *)
Theorem covariance_matrix_symmetric (m : Matrix.t) :
  (Matrix.covariance_matrix m = Throw (runtime_error CovarianceRows) <->
   (Matrix.rows m < 2)%nat) /\
  ((2 <= Matrix.rows m)%nat ->
   exists cov,
     Matrix.covariance_matrix m = Ok cov /\
     square (Matrix.cols m) cov /\
     (forall i j, (i < Matrix.cols m)%nat -> (j < Matrix.cols m)%nat ->
        Matrix.get cov i j =
        for_ (Matrix.rows m) (fun k sum =>
          sum + (Matrix.get m k i - nth i (Matrix.mean_per_column m) 0)
                * (Matrix.get m k j - nth j (Matrix.mean_per_column m) 0)) 0
        / double_of_size (Matrix.rows m - 1)) /\
     forall i j, Matrix.get cov i j = Matrix.get cov j i).
Proof.
  destruct (Matrix.covariance_matrix m) as [cov| |] eqn:Hcov.
  - destruct (covariance_entries m cov Hcov) as [Hsq Hget].
    unfold Matrix.covariance_matrix in Hcov.
    destruct (Nat.ltb (Matrix.rows m) 2) eqn:E; [discriminate|].
    apply Nat.ltb_ge in E. split; [split; [discriminate | lia]|].
    intros _. exists cov. split; [reflexivity|]. split; [exact Hsq|].
    split; [exact Hget|]. intros i j.
    destruct (Nat.lt_ge_cases i (Matrix.cols m)) as [Hi|Hi];
      [destruct (Nat.lt_ge_cases j (Matrix.cols m)) as [Hj|Hj]|].
    + rewrite !Hget by assumption. f_equal. apply for_ext. intros k s _.
      f_equal. apply mul_comm.
    + rewrite !(get_outside _ _ cov _ _ Hsq) by auto. reflexivity.
    + rewrite !(get_outside _ _ cov _ _ Hsq) by auto. reflexivity.
  - unfold Matrix.covariance_matrix in Hcov.
    destruct (Nat.ltb (Matrix.rows m) 2) eqn:E; [|discriminate].
    apply Nat.ltb_lt in E. apply Ok_inj in Hcov || idtac.
    split; [split; [intros _; exact E | intros _; congruence]|]. lia.
  - unfold Matrix.covariance_matrix in Hcov.
    destruct (Nat.ltb (Matrix.rows m) 2); discriminate.
Qed.

(** X9.  No entry on the diagonal of the covariance matrix is negative:
    each variance is a sum of squares divided by [rows - 1], and is at least
    0.0 or a NaN. *)
Theorem covariance_diagonal_not_negative (m cov : Matrix.t) (i : nat) :
  Matrix.covariance_matrix m = Ok cov ->
  (Matrix.get cov i i <? 0) = false.
Proof.
  intros Hcov. destruct (covariance_entries m cov Hcov) as [Hsq Hget].
  destruct (Nat.lt_ge_cases i (Matrix.cols m)) as [Hi|Hi].
  - rewrite Hget by assumption. apply div_size_not_negative.
    apply (for_invariant _ (fun sum => (sum <? 0) = false)); [|reflexivity].
    intros k s _ Hs. apply add_not_negative; [exact Hs|].
    apply mul_self_not_negative.
  - rewrite (get_outside _ _ cov _ _ Hsq) by auto. reflexivity.
Qed.

Lemma covariance_diagonal_not_negative_witness :
  exists cov,
    Matrix.covariance_matrix Examples.scenario_returns = Ok cov /\
    (Matrix.get cov 1 1 <? 0) = false.
Proof.
  eexists. split; [vm_compute; reflexivity|].
  apply (covariance_diagonal_not_negative Examples.scenario_returns).
  vm_compute. reflexivity.
Defined.

(* ================================================================= *)
(** * The portfolio and its statistics *)

(** X10.  The constructor [Portfolio(R)] throws its first error exactly for
    a matrix of fewer than two rows and its second exactly for a matrix of
    at least two rows and no column; in every other case it returns, so
    the runtime error of [covariance_matrix] never leaves it.  The portfolio
    then has one asset per column, one mean per asset and a square
    covariance matrix of that size. *)
Theorem portfolio_constructor_cases (R : Matrix.t) :
  (Portfolio.new R = Throw (invalid_argument PortfolioRows) <->
   (Matrix.rows R < 2)%nat) /\
  (Portfolio.new R = Throw (invalid_argument PortfolioCols) <->
   (2 <= Matrix.rows R)%nat /\ Matrix.cols R = 0%nat) /\
  ((2 <= Matrix.rows R)%nat -> Matrix.cols R <> 0%nat ->
   exists cov,
     Matrix.covariance_matrix R = Ok cov /\
     Portfolio.new R =
       Ok (Portfolio.mk R cov (Matrix.mean_per_column R) (Matrix.cols R)) /\
     length (Matrix.mean_per_column R) = Matrix.cols R /\
     square (Matrix.cols R) cov).
Proof.
  unfold Portfolio.new.
  destruct (Nat.ltb (Matrix.rows R) 2) eqn:Hrows.
  - apply Nat.ltb_lt in Hrows.
    split; [split; auto|]. split; [split; [discriminate | lia]|]. lia.
  - apply Nat.ltb_ge in Hrows.
    destruct (Nat.eqb (Matrix.cols R) 0) eqn:Hcols.
    + apply Nat.eqb_eq in Hcols.
      split; [split; [discriminate | lia]|]. split; [split; auto|]. tauto.
    + apply Nat.eqb_neq in Hcols.
      destruct (Matrix.covariance_matrix R) as [cov| |] eqn:Hcov;
        try (exfalso; unfold Matrix.covariance_matrix in Hcov;
             apply Nat.ltb_ge in Hrows; rewrite Hrows in Hcov; discriminate Hcov).
      cbn [bind].
      split; [split; [discriminate | lia]|].
      split; [split; [discriminate | tauto]|].
      intros _ _. exists cov. split; [reflexivity|]. split; [reflexivity|].
      split; [apply mean_per_column_length; lia|].
      apply covariance_matrix_square, Hcov.
Qed.

Lemma expected_return_matched (p : Portfolio.t) (w : list double) :
  length w = Portfolio.num_assets p ->
  Portfolio.portfolio_return p w =
  Ok (Constraints.expected_return w (Portfolio.means p)).
Proof.
  intros H. unfold Portfolio.portfolio_return, Constraints.expected_return.
  rewrite H, Nat.eqb_refl. reflexivity.
Qed.

(** X11.  The five statistics check the size of the weight vector and
    nothing else.  On a vector of another size each throws an invalid
    argument, [sharpe_ratio] the one of [portfolio_return], which it calls
    first.  On a vector of the portfolio's size each returns:
    [portfolio_return] the expected return that the validators of
    Constraints.hpp compute from the means, [excess_return] that return
    less the risk-free rate, [portfolio_risk] the root of the clamped
    variance. *)
Theorem statistics_size_check (p : Portfolio.t) (w : list double) (rf : double) :
  (length w <> Portfolio.num_assets p ->
   Portfolio.portfolio_return p w = Throw (invalid_argument ReturnSizeMismatch) /\
   Portfolio.excess_return p w rf = Throw (invalid_argument ReturnSizeMismatch) /\
   Portfolio.portfolio_variance p w =
     Throw (invalid_argument VarianceSizeMismatch) /\
   Portfolio.portfolio_risk p w = Throw (invalid_argument VarianceSizeMismatch) /\
   Portfolio.sharpe_ratio p w rf = Throw (invalid_argument ReturnSizeMismatch)) /\
  (length w = Portfolio.num_assets p ->
   exists var s,
     Portfolio.portfolio_return p w =
       Ok (Constraints.expected_return w (Portfolio.means p)) /\
     Portfolio.excess_return p w rf =
       Ok (Constraints.expected_return w (Portfolio.means p) - rf) /\
     Portfolio.portfolio_variance p w = Ok var /\
     Portfolio.portfolio_risk p w = Ok (sqrt (std_max 0 var)) /\
     Portfolio.sharpe_ratio p w rf = Ok s).
Proof.
  split.
  - intros H. apply Nat.eqb_neq in H.
    unfold Portfolio.sharpe_ratio, Portfolio.excess_return, Portfolio.portfolio_risk,
      Portfolio.portfolio_return, Portfolio.portfolio_variance.
    rewrite H. cbn [negb bind]. auto.
  - intros H.
    destruct (portfolio_variance_matched p w H) as [var Hvar].
    destruct (sharpe_ratio_matched p w H rf) as [s Hs].
    exists var, s.
    unfold Portfolio.excess_return, Portfolio.portfolio_risk.
    rewrite (expected_return_matched p w H), Hvar. cbn [bind]. auto.
Qed.

(* ================================================================= *)
(** * The validators and the penalty *)




Lemma leb_nan_l (x y : float) : is_nan x = true -> (x <=? y) = false.
Proof. intros H. apply is_nan_spec in H. rewrite leb_spec, H. reflexivity. Qed.






(** X13.  Weights of the portfolio's size that [is_feasible] accepts for
    the portfolio's means and the optimiser's target incur no target-return
    penalty in the fitness function: the two tests of the expected return
    are the same. *)
Theorem feasible_target_penalty (c : GeneticOptimiser.config)
    (w : list double) (lower upper : double) :
  length w = Portfolio.num_assets (GeneticOptimiser.portfolio c) ->
  Constraints.is_feasible w (Portfolio.means (GeneticOptimiser.portfolio c))
    lower upper (GeneticOptimiser.target_return c) = Ok true ->
  GeneticOptimiser.target_ret_penalty_block c w = Ok 0.
Proof.
  intros Hsize. unfold Constraints.is_feasible.
  destruct (Constraints.validate_weights _ _ _ _ _) as [[]| |] eqn:Hval;
    try discriminate. intros _.
  destruct (target_block_matched c w Hsize) as (ret & Hret & Hblock).
  rewrite Hblock. rewrite (expected_return_matched _ w Hsize) in Hret.
  apply Ok_inj in Hret. subst ret.
  unfold Constraints.validate_weights in Hval.
  destruct (Constraints.validate_weights_sum_to_one w); try discriminate.
  cbn [bind] in Hval.
  destruct (Constraints.validate_bounds w lower upper); try discriminate.
  cbn [bind] in Hval.
  destruct (DBL_LOWEST + Constraints.EPSILON <? GeneticOptimiser.target_return c);
    [|reflexivity].
  unfold Constraints.validate_target_return in Hval. cbv zeta in Hval.
  destruct (negb _); [discriminate|].
  destruct (_ <? GeneticOptimiser.target_return c); [discriminate | reflexivity].
Qed.

Lemma feasible_target_penalty_witness :
  length [0; 1; 0] =
    Portfolio.num_assets (GeneticOptimiser.portfolio (Examples.small_config 3)) /\
  Constraints.is_feasible [0; 1; 0]
    (Portfolio.means (GeneticOptimiser.portfolio (Examples.small_config 3)))
    0 1 (GeneticOptimiser.target_return (Examples.small_config 3)) = Ok true /\
  GeneticOptimiser.target_ret_penalty_block (Examples.small_config 3)
    [0; 1; 0] = Ok 0.
Proof.
  split; [reflexivity|]. split; [vm_compute; reflexivity|].
  apply (feasible_target_penalty (Examples.small_config 3) [0; 1; 0] 0 1);
    [reflexivity | vm_compute; reflexivity].
Defined.

(* ================================================================= *)
(** * Utils *)

Lemma draw_uniform_length (R : random_source) (n : nat) : forall g,
  length (fst (Utils.draw_uniform R n g)) = n.
Proof.
  induction n as [|n IH]; intros g; [reflexivity|].
  cbn [Utils.draw_uniform]. destruct (uniform_real R g) as [w g1].
  specialize (IH g1). destruct (Utils.draw_uniform R n g1) as [ws g2].
  cbn [fst length] in *. f_equal. exact IH.
Qed.

Lemma random_weights_length (R : random_source) (n : nat) (g g' : rng R)
    (ws : list double) :
  Utils.random_weights R n g = Ok (ws, g') -> length ws = n.
Proof.
  unfold Utils.random_weights. destruct (Nat.eqb n 0); [discriminate|].
  pose proof (draw_uniform_length R n g) as Hlen.
  destruct (Utils.draw_uniform R n g) as [draws g1]. cbn [fst] in Hlen.
  destruct (accumulate draws 0 <? 1e-12); intros H; apply Ok_inj in H;
    injection H as <- _; rewrite length_map; exact Hlen.
Qed.

(** X14.  [random_weights] throws exactly for [n = 0].  Otherwise it draws
    [n] numbers and returns [n] weights: the draws divided by their running
    sum, or [1 / n] for each when that sum is below 1e-12.  The overload
    without a generator returns the same weights, from a generator of its
    own. *)
Theorem random_weights_cases (R : random_source) (n : nat) (g : rng R) :
  (Utils.random_weights R n g = Throw (invalid_argument RandomWeightsEmpty) <->
   n = 0%nat) /\
  (n <> 0%nat ->
   exists ws,
     Utils.random_weights R n g = Ok (ws, snd (Utils.draw_uniform R n g)) /\
     Utils.random_weights_fresh R n g = Ok ws /\
     length ws = n /\
     ws = (let draws := fst (Utils.draw_uniform R n g) in
           if accumulate draws 0 <? 1e-12
           then repeat (1 / double_of_size n) n
           else map (fun w => w / accumulate draws 0) draws)).
Proof.
  unfold Utils.random_weights_fresh, Utils.random_weights.
  destruct (Nat.eqb n 0) eqn:E.
  - apply Nat.eqb_eq in E. split; [tauto | intros H; contradiction].
  - apply Nat.eqb_neq in E.
    pose proof (draw_uniform_length R n g) as Hlen.
    destruct (Utils.draw_uniform R n g) as [draws g1]. cbn [fst snd] in *.
    split.
    { split; [|intros H; contradiction].
      destruct (accumulate draws 0 <? 1e-12); discriminate. }
    intros _. cbv zeta.
    assert (Hconst : map (fun _ : double => 1 / double_of_size n) draws =
                     repeat (1 / double_of_size n) n).
    { generalize (1 / double_of_size n). rewrite <- Hlen. clear.
      intros x. induction draws as [|d draws IH]; [reflexivity|].
      cbn [map length repeat]. f_equal. exact IH. }
    destruct (accumulate draws 0 <? 1e-12); eexists;
      (split; [reflexivity|]); (split; [reflexivity|]); rewrite ?Hconst;
      (split; [|reflexivity]).
    + apply repeat_length.
    + rewrite length_map. exact Hlen.
Qed.

(** X15.  [dot_product] throws exactly when the two vectors differ in
    size.  Otherwise it returns the running sum of the products, the very
    number that the validators compute as the expected return; and it is
    commutative, bit for bit. *)
Theorem dot_product_cases (a b : list double) :
  (Utils.dot_product a b = None <-> length a <> length b) /\
  (length a = length b ->
   Utils.dot_product a b = Some (Constraints.expected_return a b)) /\
  Utils.dot_product a b = Utils.dot_product b a.
Proof.
  unfold Utils.dot_product, Constraints.expected_return.
  rewrite (Nat.eqb_sym (length b) (length a)).
  destruct (Nat.eqb (length a) (length b)) eqn:E; cbn [negb].
  - apply Nat.eqb_eq in E. split; [split; [discriminate | tauto]|].
    split; [reflexivity|]. rewrite <- E. f_equal.
    apply for_ext. intros k s _. f_equal. apply mul_comm.
  - apply Nat.eqb_neq in E. split; [tauto|]. split; [tauto | reflexivity].
Qed.

Lemma std_clamp_cases (v lo hi : double) :
  (hi <? lo) = false ->
  exists v', Utils.std_clamp v lo hi = Ok v' /\
    (v' <? lo) = false /\ (hi <? v') = false /\
    ((v <? lo) = false -> (hi <? v) = false -> v' = v) /\
    Utils.std_clamp v' lo hi = Ok v'.
Proof.
  intros H. unfold Utils.std_clamp. rewrite H.
  destruct (v <? lo) eqn:E1; [|destruct (hi <? v) eqn:E2]; eexists;
    (split; [reflexivity|]).
  - rewrite ltb_irrefl, H. repeat split; try discriminate.
  - rewrite ltb_irrefl, H. repeat split; try discriminate.
  - rewrite E1, E2. repeat split.
Qed.

(** X16.  [clip_weights] never throws.  Its behaviour is undefined exactly
    when it is given a weight and an upper bound below the lower one.
    Otherwise it returns as many weights as it was given, none below the
    lower bound and none above the upper one; a weight within the bounds is
    kept as it is, and clipping again changes nothing. *)
Theorem clip_weights_cases (ws : list double) (lo hi : double) :
  (Utils.clip_weights ws lo hi = Undefined <-> ws <> [] /\ (hi <? lo) = true) /\
  (forall e, Utils.clip_weights ws lo hi <> Throw e) /\
  (forall ws', Utils.clip_weights ws lo hi = Ok ws' ->
     length ws' = length ws /\
     (forall i, (i < length ws)%nat ->
        (nth i ws' 0 <? lo) = false /\ (hi <? nth i ws' 0) = false /\
        ((nth i ws 0 <? lo) = false -> (hi <? nth i ws 0) = false ->
         nth i ws' 0 = nth i ws 0)) /\
     Utils.clip_weights ws' lo hi = Ok ws').
Proof.
  destruct (hi <? lo) eqn:Hb.
  - destruct ws as [|w ws].
    + split; [split; [discriminate | intros [H _]; contradiction]|].
      split; [discriminate|]. intros ws' H. apply Ok_inj in H. subst ws'.
      repeat split; cbn in *; lia.
    + cbn [Utils.clip_weights]. unfold Utils.std_clamp. rewrite Hb. cbn [bind].
      split; [split; [intros _; split; [discriminate | reflexivity] | reflexivity]|].
      split; discriminate.
  - assert (H : exists ws', Utils.clip_weights ws lo hi = Ok ws' /\
              length ws' = length ws /\
              (forall i, (i < length ws)%nat ->
                 (nth i ws' 0 <? lo) = false /\ (hi <? nth i ws' 0) = false /\
                 ((nth i ws 0 <? lo) = false -> (hi <? nth i ws 0) = false ->
                  nth i ws' 0 = nth i ws 0)) /\
              Utils.clip_weights ws' lo hi = Ok ws').
    { induction ws as [|w ws IH].
      - exists []. repeat split; cbn in *; lia.
      - destruct IH as (ws' & Hws & Hlen & Hin & Hidem).
        destruct (std_clamp_cases w lo hi Hb) as (w' & Hw & H1 & H2 & H3 & H4).
        exists (w' :: ws'). cbn [Utils.clip_weights].
        rewrite Hw, Hws, H4, Hidem. cbn [bind length].
        split; [reflexivity|]. split; [f_equal; exact Hlen|].
        split; [|reflexivity].
        intros [|i] Hi; cbn [nth]; [auto|]. apply Hin. lia. }
    destruct H as (ws' & Hws & Hrest). rewrite Hws.
    split; [split; [discriminate | intros [_ H]; discriminate]|].
    split; [discriminate|].
    intros ws'' H. apply Ok_inj in H. subst ws''. exact Hrest.
Qed.

Module AbsFacts.

Lemma binary_round_aux_abs s m e l :
  SFabs (binary_round_aux prec emax s m e l) =
  SFabs (binary_round_aux prec emax false m e l).
Proof.
  unfold binary_round_aux.
  destruct (shr_fexp prec emax m e l) as [r1 e1].
  destruct (shr_fexp prec emax _ e1 loc_Exact) as [r2 e2].
  destruct (shr_m r2); try reflexivity.
  destruct (Z.leb _ _); reflexivity.
Qed.

Lemma binary_normalize_abs D e :
  SFabs (binary_normalize prec emax (- D) e false) =
  SFabs (binary_normalize prec emax D e false).
Proof.
  destruct D as [|p|p]; cbn [Z.opp binary_normalize]; [reflexivity| |];
    unfold binary_round; destruct (shl_align p e _) as [mz ez];
    rewrite (binary_round_aux_abs true); reflexivity.
Qed.

Lemma SFsub_abs_sym x y : SFabs (SF64sub x y) = SFabs (SF64sub y x).
Proof.
  destruct x as [sx|sx| |sx mx ex], y as [sy|sy| |sy my ey];
    try reflexivity; try (destruct sx, sy; reflexivity).
  unfold SF64sub. cbn [SFsub]. rewrite (Z.min_comm ey ex).
  rewrite <- binary_normalize_abs. f_equal. f_equal. lia.
Qed.

Lemma SFsub_self x :
  SF64sub x x =
  match x with
  | S754_zero _ | S754_finite _ _ _ => S754_zero false
  | _ => S754_nan
  end.
Proof.
  destruct x as [[|]|[|]| |s m e]; try reflexivity.
  unfold SF64sub. cbn [SFsub]. rewrite Z.sub_diag. reflexivity.
Qed.

End AbsFacts.

Lemma abs_sub_sym (a b : float) : abs (a - b) = abs (b - a).
Proof.
  apply Prim2SF_inj. rewrite !abs_spec, !sub_spec. apply AbsFacts.SFsub_abs_sym.
Qed.

Lemma sub_self (a : float) : is_finite a = true -> a - a = 0.
Proof.
  intros H. apply Prim2SF_inj. rewrite sub_spec, AbsFacts.SFsub_self.
  unfold is_finite, is_infinity in H. apply negb_true_iff, orb_false_iff in H.
  destruct H as [Hn Hi]. apply is_nan_false_spec in Hn.
  destruct (Prim2SF a) as [s|s| |s m e] eqn:E; try reflexivity; [|congruence].
  exfalso. rewrite eqb_spec, abs_spec, E in Hi. discriminate Hi.
Qed.

Lemma sub_self_nan (a : float) : is_finite a = false -> is_nan (a - a) = true.
Proof.
  intros H. apply is_nan_spec. rewrite sub_spec, AbsFacts.SFsub_self.
  unfold is_finite, is_infinity in H. apply negb_false_iff, orb_true_iff in H.
  destruct H as [Hn|Hi].
  - apply is_nan_spec in Hn. rewrite Hn. reflexivity.
  - rewrite eqb_spec, abs_spec in Hi.
    destruct (Prim2SF a) as [s|s| |s m e]; try reflexivity; discriminate Hi.
Qed.

(** X17.  [almost_equal] is symmetric in its first two arguments, in double
    arithmetic.  A number is almost equal to itself exactly when it is
    finite and the tolerance is positive: an infinity or a NaN is not
    almost equal to itself. *)
Theorem almost_equal_cases (a b eps : double) :
  Utils.almost_equal a b eps = Utils.almost_equal b a eps /\
  Utils.almost_equal a a eps = is_finite a && (0 <? eps).
Proof.
  unfold Utils.almost_equal. split; [rewrite abs_sub_sym; reflexivity|].
  destruct (is_finite a) eqn:E.
  - rewrite (sub_self a E). reflexivity.
  - cbn [andb]. apply ltb_nan_l.
    pose proof (sub_self_nan a E) as H. apply is_nan_spec in H.
    apply is_nan_spec. rewrite abs_spec, H. reflexivity.
Qed.

(* ================================================================= *)
(** * The pieces of the genetic algorithm *)

Lemma calculate_fitness_matched (c : GeneticOptimiser.config) (w : list double) :
  length w = Portfolio.num_assets (GeneticOptimiser.portfolio c) ->
  exists f, GeneticOptimiser.calculate_fitness c w = Ok f.
Proof.
  intros H. unfold GeneticOptimiser.calculate_fitness.
  destruct (sharpe_ratio_matched _ w H (GeneticOptimiser.risk_free_rate_ c))
    as [s Hs].
  destruct (target_block_matched c w H) as (ret & _ & Hblock).
  rewrite Hs, Hblock. cbn [bind].
  destruct (s =? DBL_INF); [|destruct (is_nan s)]; eauto.
Qed.

Lemma calculate_fitness_mismatched (c : GeneticOptimiser.config) (w : list double) :
  length w <> Portfolio.num_assets (GeneticOptimiser.portfolio c) ->
  GeneticOptimiser.calculate_fitness c w =
    Throw (invalid_argument ReturnSizeMismatch).
Proof.
  intros H. apply Nat.eqb_neq in H.
  unfold GeneticOptimiser.calculate_fitness, Portfolio.sharpe_ratio,
    Portfolio.portfolio_return.
  rewrite H. reflexivity.
Qed.

(** X18.  [calculate_fitness] throws exactly on a weight vector that is not
    of the portfolio's size, and then the invalid argument of
    [portfolio_return], thrown from [sharpe_ratio] before any penalty is
    looked at; on a vector of the portfolio's size it returns. *)
Theorem calculate_fitness_size_check (c : GeneticOptimiser.config)
    (w : list double) :
  (length w <> Portfolio.num_assets (GeneticOptimiser.portfolio c) <->
   GeneticOptimiser.calculate_fitness c w =
     Throw (invalid_argument ReturnSizeMismatch)) /\
  (length w = Portfolio.num_assets (GeneticOptimiser.portfolio c) <->
   exists f, GeneticOptimiser.calculate_fitness c w = Ok f).
Proof.
  destruct (Nat.eq_dec (length w)
              (Portfolio.num_assets (GeneticOptimiser.portfolio c))) as [H|H].
  - destruct (calculate_fitness_matched c w H) as [f Hf].
    split; [split; [contradiction | rewrite Hf; discriminate]|].
    split; eauto.
  - pose proof (calculate_fitness_mismatched c w H) as Hf.
    split; [split; auto|]. split; [contradiction|].
    intros [f Hf']. rewrite Hf in Hf'. discriminate.
Qed.

(** A value not below a bound that exceeds [x] is not at most [x]. *)
Lemma not_leb_above (y x best : float) :
  (y <? best) = false -> (x <? best) = true -> (y <=? x) = false.
Proof.
  intros Hy Hx. destruct (ltb_not_nan _ _ Hx) as [Nx Nb].
  destruct (is_nan y) eqn:Ny; [apply leb_nan_l, Ny|].
  rewrite ltb_key in Hy, Hx by assumption. rewrite leb_key by assumption.
  apply Z.ltb_ge in Hy. apply Z.ltb_lt in Hx. apply Z.leb_gt. lia.
Qed.

Lemma not_ltb_above (y x best : float) :
  (y <? best) = false -> (x <? best) = true -> (y <? x) = false.
Proof.
  intros Hy Hx. destruct (y <? x) eqn:E; [|reflexivity].
  rewrite (ltb_trans _ _ _ E Hx) in Hy. discriminate.
Qed.

Lemma min_element_from_spec (l : list double) : forall p best_idx best,
  (best_idx < length p)%nat ->
  nth best_idx p 0 = best ->
  (forall x, In x p -> (x <? best) = false) ->
  (forall k, (k < best_idx)%nat -> (nth k p 0 <=? best) = false) ->
  let r := GeneticOptimiser.min_element_from l (length p) best_idx best in
  (r < length (p ++ l))%nat /\
  (forall x, In x (p ++ l) -> (x <? nth r (p ++ l) 0) = false) /\
  (forall k, (k < r)%nat -> (nth k (p ++ l) 0 <=? nth r (p ++ l) 0) = false).
Proof.
  induction l as [|x l IH]; intros p best_idx best Hidx Hbest Hmin Hfirst.
  - cbn [GeneticOptimiser.min_element_from]. rewrite app_nil_r, Hbest. auto.
  - cbn [GeneticOptimiser.min_element_from].
    replace (p ++ x :: l) with ((p ++ [x]) ++ l) by (rewrite <- app_assoc; reflexivity).
    replace (S (length p)) with (length (p ++ [x])) by (rewrite length_app; cbn; lia).
    destruct (x <? best) eqn:E.
    + apply IH.
      * rewrite length_app. cbn. lia.
      * rewrite app_nth2, Nat.sub_diag by lia. reflexivity.
      * intros y Hy. apply in_app_or in Hy. destruct Hy as [Hy|[<-|[]]].
        -- apply (not_ltb_above y x best); auto.
        -- apply ltb_irrefl.
      * intros k Hk. rewrite app_nth1 by exact Hk.
        apply (not_leb_above _ x best); [|exact E].
        apply Hmin, nth_In, Hk.
    + apply IH.
      * rewrite length_app. lia.
      * rewrite app_nth1 by exact Hidx. exact Hbest.
      * intros y Hy. apply in_app_or in Hy. destruct Hy as [Hy|[<-|[]]]; auto.
      * intros k Hk. rewrite app_nth1 by lia. auto.
Qed.

Lemma min_element_facts (l : list double) :
  l <> [] ->
  (GeneticOptimiser.min_element l < length l)%nat /\
  (forall x, In x l ->
     (x <? nth (GeneticOptimiser.min_element l) l 0) = false) /\
  (forall k, (k < GeneticOptimiser.min_element l)%nat ->
     (nth k l 0 <=? nth (GeneticOptimiser.min_element l) l 0) = false).
Proof.
  destruct l as [|x l]; [contradiction|]. intros _.
  apply (min_element_from_spec l [x] 0%nat x).
  - cbn. lia.
  - reflexivity.
  - intros y [<-|[]]. apply ltb_irrefl.
  - intros k Hk. lia.
Qed.

(** X19.  [min_element] of a non-empty vector is the index of an element
    that no element is below, and the first such: every element before it
    is strictly above it or a NaN.  Of an empty vector it is 0, the index
    that [optimise] then reads. *)
Theorem min_element_first_smallest (l : list double) :
  GeneticOptimiser.min_element [] = 0%nat /\
  (l <> [] ->
   (GeneticOptimiser.min_element l < length l)%nat /\
   (forall x, In x l ->
      (x <? nth (GeneticOptimiser.min_element l) l 0) = false) /\
   (forall k, (k < GeneticOptimiser.min_element l)%nat ->
      (nth k l 0 <=? nth (GeneticOptimiser.min_element l) l 0) = false)).
Proof. split; [reflexivity | apply min_element_facts]. Qed.

Lemma index_spec {A : Type} (v : list A) (i : nat) (x : A) :
  index v i = Ok x <-> nth_error v i = Some x.
Proof.
  unfold index. destruct (nth_error v i); split; intros H;
    try discriminate; [apply Ok_inj in H | injection H as H]; congruence.
Qed.

Lemma index_not_throw {A : Type} (v : list A) (i : nat) (e : exn) :
  index v i <> Throw e.
Proof. unfold index. destruct (nth_error v i); discriminate. Qed.

Lemma ltb_asym (x y : float) : (x <? y) = true -> (y <? x) = false.
Proof. intros H. apply (not_ltb_above y x y); [apply ltb_irrefl | exact H]. Qed.

(** X20.  Tournament selection.  On an empty population the behaviour of
    [select_parent] is undefined (the distribution is built over
    [0, size - 1]); it never throws.  When it returns, it has drawn three
    indices and advanced the generator three times, and it returns the
    individual at one of the three, one whose fitness none of the three
    fitnesses is below. *)
Theorem select_parent_tournament (R : random_source)
    (population : list (list double)) (fitnesses : list double) (g : rng R) :
  (population = [] ->
   GeneticOptimiser.select_parent R population fitnesses g = Undefined) /\
  (forall e, GeneticOptimiser.select_parent R population fitnesses g <> Throw e) /\
  (forall p g',
     GeneticOptimiser.select_parent R population fitnesses g = Ok (p, g') ->
     let dis := uniform_index R (length population) in
     let i0 := fst (dis g) in
     let i1 := fst (dis (snd (dis g))) in
     let i2 := fst (dis (snd (dis (snd (dis g))))) in
     g' = snd (dis (snd (dis (snd (dis g))))) /\
     exists winner f_winner,
       In winner [i0; i1; i2] /\
       nth_error population winner = Some p /\
       nth_error fitnesses winner = Some f_winner /\
       forall i, In i [i0; i1; i2] ->
         exists f, nth_error fitnesses i = Some f /\ (f <? f_winner) = false).
Proof.
  split; [intros ->; reflexivity|].
  unfold GeneticOptimiser.select_parent.
  destruct (Nat.eqb (length population) 0);
    [split; [discriminate | intros p g' H; discriminate H]|].
  cbv zeta.
  destruct (uniform_index R (length population) g) as [i0 g1] eqn:E0.
  unfold forM. cbn [for_from].
  destruct (uniform_index R (length population) g1) as [i1 g2] eqn:E1.
  destruct (uniform_index R (length population) g2) as [i2 g3] eqn:E2.
  cbn [fst snd].
  destruct (index fitnesses i1) as [f1| |] eqn:H1; cbn [bind];
    [|exfalso; eapply index_not_throw; eassumption
     |split; [discriminate | intros p g' H; discriminate H]].
  destruct (index fitnesses i0) as [f0| |] eqn:H0; cbn [bind];
    [|exfalso; eapply index_not_throw; eassumption
     |split; [discriminate | intros p g' H; discriminate H]].
  rewrite E2.
  destruct (index fitnesses i2) as [f2| |] eqn:H2; cbn [bind];
    [|exfalso; eapply index_not_throw; eassumption
     |split; [discriminate | intros p g' H; discriminate H]].
  pose proof H0 as K0. pose proof H1 as K1.
  apply index_spec in H0, H1, H2.
  assert (Hcases : forall (w : nat) (fw : double),
    nth_error fitnesses w = Some fw -> In w [i0; i1; i2] ->
    (f0 <? fw) = false -> (f1 <? fw) = false -> (f2 <? fw) = false ->
    (forall e, (p <- index population w ;; Ok (p, g3)) <> Throw e) /\
    (forall p g', (p <- index population w ;; Ok (p, g3)) = Ok (p, g') ->
       g' = g3 /\
       exists winner f_winner,
         In winner [i0; i1; i2] /\
         nth_error population winner = Some p /\
         nth_error fitnesses winner = Some f_winner /\
         forall i, In i [i0; i1; i2] ->
           exists f, nth_error fitnesses i = Some f /\ (f <? f_winner) = false)).
  { intros w fw Hw Hin L0 L1 L2. split.
    - intros e. destruct (index population w) eqn:Hp; cbn [bind]; try discriminate.
      exfalso. eapply index_not_throw; eassumption.
    - intros p g' H.
      destruct (index population w) as [q| |] eqn:Hp; cbn [bind] in H;
        try discriminate H.
      apply Ok_inj in H. injection H as -> ->. apply index_spec in Hp.
      split; [reflexivity|]. exists w, fw. repeat split; auto.
      intros i [<-|[<-|[<-|[]]]]; eauto. }
  rewrite ?E1; cbn [fst snd]; rewrite ?E2; cbn [fst snd].
  destruct (f1 <? f0) eqn:C1.
  - rewrite K1. cbn [bind]. destruct (f2 <? f1) eqn:C2.
    + apply (Hcases i2 f2); cbn [In]; auto.
      * apply ltb_asym. apply (ltb_trans _ _ _ C2 C1).
      * apply ltb_asym, C2.
      * apply ltb_irrefl.
    + apply (Hcases i1 f1); cbn [In]; auto.
      * apply ltb_asym, C1.
      * apply ltb_irrefl.
  - rewrite K0. cbn [bind]. destruct (f2 <? f0) eqn:C2.
    + apply (Hcases i2 f2); cbn [In]; auto.
      * apply ltb_asym, C2.
      * apply (not_ltb_above f1 f2 f0); assumption.
      * apply ltb_irrefl.
    + apply (Hcases i0 f0); cbn [In]; auto.
      apply ltb_irrefl.
Qed.

Lemma index_in_range {A : Type} (v : list A) (i : nat) (d : A) :
  (i < length v)%nat -> index v i = Ok (nth i v d).
Proof.
  intros H. apply index_spec. apply nth_error_nth'. exact H.
Qed.

Lemma normalize_length (w v : list double) :
  Utils.normalize w = Ok v -> length v = length w.
Proof.
  unfold Utils.normalize. destruct (_ <? _); [discriminate|].
  intros H. apply Ok_inj in H. subst v. apply length_map.
Qed.

Lemma clip_weights_length (ws : list double) (lo hi : double) : forall ws',
  Utils.clip_weights ws lo hi = Ok ws' -> length ws' = length ws.
Proof.
  induction ws as [|w ws IH]; intros ws' H.
  - apply Ok_inj in H. subst ws'. reflexivity.
  - cbn [Utils.clip_weights] in H. bind_ok H. bind_ok H.
    apply Ok_inj in H. subst ws'. cbn [length]. f_equal. apply IH. reflexivity.
Qed.

(** The swaps of [crossover], before the children are normalised. *)
Lemma crossover_swaps (R : random_source) (c : GeneticOptimiser.config)
    (parent1 parent2 : list double) (g : rng R) (n : nat) :
  length parent1 = length parent2 ->
  (n <= length parent1)%nat ->
  exists child1 child2 g1,
    forM n (fun i '(child1, child2, g) =>
      let (swap, g) := bernoulli R (GeneticOptimiser.crossover_rate c) g in
      if swap then
        x <- index child1 i ;;
        y <- index child2 i ;;
        Ok (upd child1 i y, upd child2 i x, g)
      else Ok (child1, child2, g)) (parent1, parent2, g) =
    Ok (child1, child2, g1) /\
    length child1 = length parent1 /\ length child2 = length parent1 /\
    (forall i, (i < n)%nat ->
       (nth i child1 0 = nth i parent1 0 /\ nth i child2 0 = nth i parent2 0) \/
       (nth i child1 0 = nth i parent2 0 /\ nth i child2 0 = nth i parent1 0)) /\
    (forall i, (n <= i)%nat ->
       nth i child1 0 = nth i parent1 0 /\ nth i child2 0 = nth i parent2 0).
Proof.
  intros Hlen. induction n as [|n IH]; intros Hn.
  - exists parent1, parent2, g. repeat split; auto; lia.
  - destruct IH as (a & b & g1 & Hrun & Ha & Hb & Hdone & Hrest); [lia|].
    rewrite forM_succ, Hrun. cbn [bind].
    destruct (bernoulli R (GeneticOptimiser.crossover_rate c) g1) as [[|] g2].
    + rewrite (index_in_range a n 0), (index_in_range b n 0) by lia.
      cbn [bind]. exists (upd a n (nth n b 0)), (upd b n (nth n a 0)), g2.
      split; [reflexivity|]. rewrite !length_upd.
      split; [exact Ha|]. split; [exact Hb|]. split.
      * intros i Hi. destruct (Nat.eq_dec i n) as [->|Hne].
        -- right. rewrite !nth_upd_same by lia.
           destruct (Hrest n (Nat.le_refl n)) as [-> ->]. auto.
        -- rewrite !nth_upd_other by congruence. apply Hdone. lia.
      * intros i Hi. rewrite !nth_upd_other by lia. apply Hrest. lia.
    + exists a, b, g2. split; [reflexivity|].
      split; [exact Ha|]. split; [exact Hb|]. split.
      * intros i Hi. destruct (Nat.eq_dec i n) as [->|Hne].
        -- left. apply Hrest. lia.
        -- apply Hdone. lia.
      * intros i Hi. apply Hrest. lia.
Qed.

(** X21.  Uniform crossover of two parents of one length, at a crossover
    rate between 0 and 1.  Before they are normalised the children have the
    parents' length and hold, at every position, the two genes of the parents
    at that position, in the order of the parents or exchanged.  [crossover]
    then normalises the first child and the second, and fails only as
    [normalize] fails.  At any other rate, a NaN included, the behaviour is
    undefined: [std::bernoulli_distribution] requires [0 <= p <= 1]. *)
Theorem crossover_exchanges_genes (R : random_source)
    (c : GeneticOptimiser.config) (parent1 parent2 : list double) (g : rng R) :
  length parent1 = length parent2 ->
  if (0 <=? GeneticOptimiser.crossover_rate c) &&
     (GeneticOptimiser.crossover_rate c <=? 1)
  then
    exists child1 child2 g1,
      length child1 = length parent1 /\ length child2 = length parent1 /\
      (forall i, (i < length parent1)%nat ->
         (nth i child1 0 = nth i parent1 0 /\ nth i child2 0 = nth i parent2 0) \/
         (nth i child1 0 = nth i parent2 0 /\ nth i child2 0 = nth i parent1 0)) /\
      GeneticOptimiser.crossover R c parent1 parent2 g =
        (normalised1 <- Utils.normalize child1 ;;
         normalised2 <- Utils.normalize child2 ;;
         Ok (normalised1, normalised2, g1))
  else GeneticOptimiser.crossover R c parent1 parent2 g = Undefined.
Proof.
  intros Hlen. unfold GeneticOptimiser.crossover.
  destruct ((0 <=? GeneticOptimiser.crossover_rate c) &&
            (GeneticOptimiser.crossover_rate c <=? 1)); cbn [negb];
    [|reflexivity].
  destruct (crossover_swaps R c parent1 parent2 g (length parent1) Hlen
              (Nat.le_refl _))
    as (a & b & g1 & Hrun & Ha & Hb & Hdone & _).
  exists a, b, g1. split; [exact Ha|]. split; [exact Hb|].
  split; [exact Hdone|].
  rewrite Hrun. reflexivity.
Qed.

Lemma crossover_exchanges_genes_witness :
  length [0.5; 0.5; 0] = length [0; 0.25; 0.75] /\
  exists child1 child2 g1,
    length child1 = length [0.5; 0.5; 0] /\
    length child2 = length [0.5; 0.5; 0] /\
    (forall i, (i < length [0.5; 0.5; 0]%float)%nat ->
       (nth i child1 0 = nth i [0.5; 0.5; 0] 0 /\
        nth i child2 0 = nth i [0; 0.25; 0.75] 0) \/
       (nth i child1 0 = nth i [0; 0.25; 0.75] 0 /\
        nth i child2 0 = nth i [0.5; 0.5; 0] 0)) /\
    GeneticOptimiser.crossover Examples.counter_source (Examples.small_config 3)
      [0.5; 0.5; 0] [0; 0.25; 0.75] 0%nat =
      (normalised1 <- Utils.normalize child1 ;;
       normalised2 <- Utils.normalize child2 ;;
       Ok (normalised1, normalised2, g1)).
Proof.
  split; [reflexivity|].
  exact (crossover_exchanges_genes Examples.counter_source
           (Examples.small_config 3) [0.5; 0.5; 0] [0; 0.25; 0.75] 0%nat
           eq_refl).
Defined.

Lemma crossover_lengths (R : random_source) (c : GeneticOptimiser.config)
    (parent1 parent2 : list double) (g : rng R) child1 child2 g' :
  GeneticOptimiser.crossover R c parent1 parent2 g = Ok (child1, child2, g') ->
  length child1 = length parent1 /\ length child2 = length parent2.
Proof.
  unfold GeneticOptimiser.crossover. intros H.
  destruct (negb ((0 <=? GeneticOptimiser.crossover_rate c) &&
                  (GeneticOptimiser.crossover_rate c <=? 1)));
    [discriminate|].
  bind_ok H.
  eapply (forM_invariant _
    (fun _ (s : list double * list double * rng R) =>
       length (fst (fst s)) = length parent1 /\
       length (snd (fst s)) = length parent2)) in E.
  - cbn [fst snd] in E. destruct E as [Ha Hb].
    bind_ok H. bind_ok H. apply Ok_inj in H. injection H as <- <- _.
    apply normalize_length in E, E0. split; congruence.
  - intros k [[a b] g1] [[a' b'] g1'] _ [Ha Hb] Hstep. cbn [fst snd] in *.
    destruct (bernoulli R (GeneticOptimiser.crossover_rate c) g1) as [[|] g2].
    + bind_ok Hstep. bind_ok Hstep. apply Ok_inj in Hstep.
      injection Hstep as <- <- _. rewrite !length_upd. auto.
    + apply Ok_inj in Hstep. injection Hstep as <- <- _. auto.
  - cbn [fst snd]. auto.
Qed.

Lemma mutate_genes_facts (R : random_source) (c : GeneticOptimiser.config)
    (individual : list double) : forall mutated noise g,
  let r := GeneticOptimiser.mutate_genes R c individual mutated noise g in
  length (fst (fst r)) = length individual /\
  (mutated = true -> snd (fst r) = true) /\
  (snd (fst r) = false -> fst (fst r) = individual).
Proof.
  induction individual as [|w ws IH]; intros mutated noise g.
  - cbn. auto.
  - cbn [GeneticOptimiser.mutate_genes].
    destruct (uniform_real R g) as [u g1].
    destruct (u <? GeneticOptimiser.mutation_rate c).
    + destruct (normal_draw R noise g1) as [[z noise1] g2].
      specialize (IH true noise1 g2). cbv zeta in IH.
      destruct (GeneticOptimiser.mutate_genes R c ws true noise1 g2)
        as [[ws' m'] g3].
      cbn [fst snd length] in *. destruct IH as (Hlen & Htrue & _).
      split; [f_equal; exact Hlen|]. split; [auto|].
      intros Hm. rewrite Htrue in Hm by reflexivity. discriminate.
    + specialize (IH mutated noise g1). cbv zeta in IH.
      destruct (GeneticOptimiser.mutate_genes R c ws mutated noise g1)
        as [[ws' m'] g3].
      cbn [fst snd length] in *. destruct IH as (Hlen & Htrue & Hsame).
      split; [f_equal; exact Hlen|]. split; [exact Htrue|].
      intros Hm. f_equal. apply Hsame, Hm.
Qed.

(** X22.  [mutate] keeps the number of genes.  An individual none of whose
    genes was drawn for mutation is returned as it is, neither clipped nor
    normalised; otherwise the individual with its noise added is clipped to
    the bounds and then normalised, and [mutate] fails only as these two
    fail. *)
Theorem mutate_cases (R : random_source) (c : GeneticOptimiser.config)
    (individual : list double) (g : rng R) :
  exists noisy mutated g1,
    GeneticOptimiser.mutate_genes R c individual false (normal_init R) g =
      (noisy, mutated, g1) /\
    length noisy = length individual /\
    (mutated = false ->
     noisy = individual /\
     GeneticOptimiser.mutate R c individual g = Ok (individual, g1)) /\
    (mutated = true ->
     GeneticOptimiser.mutate R c individual g =
       (clipped <- Utils.clip_weights noisy (GeneticOptimiser.lower_bound c)
                     (GeneticOptimiser.upper_bound c) ;;
        normalised <- Utils.normalize clipped ;;
        Ok (normalised, g1))) /\
    (forall individual' g',
       GeneticOptimiser.mutate R c individual g = Ok (individual', g') ->
       length individual' = length individual).
Proof.
  pose proof (mutate_genes_facts R c individual false (normal_init R) g) as H.
  cbv zeta in H. unfold GeneticOptimiser.mutate.
  destruct (GeneticOptimiser.mutate_genes R c individual false (normal_init R) g)
    as [[noisy mutated] g1].
  cbn [fst snd] in H. destruct H as (Hlen & _ & Hsame).
  exists noisy, mutated, g1. split; [reflexivity|]. split; [exact Hlen|].
  destruct mutated.
  - split; [discriminate|]. split; [reflexivity|].
    intros individual' g' H. bind_ok H. bind_ok H.
    apply Ok_inj in H. injection H as <- _.
    apply clip_weights_length in E. apply normalize_length in E0. congruence.
  - rewrite (Hsame eq_refl). split; [auto|]. split; [discriminate|].
    intros individual' g' H. apply Ok_inj in H. injection H as <- _. reflexivity.
Qed.

Lemma mutate_length (R : random_source) (c : GeneticOptimiser.config)
    (individual individual' : list double) (g g' : rng R) :
  GeneticOptimiser.mutate R c individual g = Ok (individual', g') ->
  length individual' = length individual.
Proof.
  pose proof (mutate_genes_facts R c individual false (normal_init R) g) as H.
  cbv zeta in H. unfold GeneticOptimiser.mutate.
  destruct (GeneticOptimiser.mutate_genes R c individual false (normal_init R) g)
    as [[noisy mutated] g1].
  cbn [fst snd] in H. destruct H as (Hlen & _ & Hsame).
  destruct mutated; intros H.
  - bind_ok H. bind_ok H. apply Ok_inj in H. injection H as <- _.
    apply clip_weights_length in E. apply normalize_length in E0. congruence.
  - apply Ok_inj in H. injection H as <- _. exact Hlen.
Qed.

(* ================================================================= *)
(** * The populations of a run *)

Section PopulationFacts.

Import GeneticOptimiser.

Variable R : random_source.
Variable c : config.

Lemma In_firstn {A : Type} (x : A) (k : nat) : forall l, In x (firstn k l) -> In x l.
Proof.
  induction k as [|k IH]; intros [|y l]; cbn; try tauto.
  intros [H|H]; auto.
Qed.

Lemma init_population_sized (n : nat) : forall g pop g',
  init_population R c n g = Ok (pop, g') ->
  genes (Portfolio.num_assets (portfolio c)) pop.
Proof.
  induction n as [|n IH]; intros g pop g' H.
  - apply Ok_inj in H. injection H as <- _. constructor.
  - cbn [init_population] in H.
    bind_ok H. bind_ok H. bind_ok H. bind_ok H.
    apply Ok_inj in H. injection H as <- _. constructor.
    + apply random_weights_length in E. apply clip_weights_length in E0.
      apply normalize_length in E1. congruence.
    + eapply IH. eassumption.
Qed.

Lemma select_parent_sized (population : list (list double))
    (fitnesses : list double) (g g' : rng R) (p : list double) :
  genes (Portfolio.num_assets (portfolio c)) population ->
  select_parent R population fitnesses g = Ok (p, g') ->
  length p = Portfolio.num_assets (portfolio c).
Proof.
  intros Hs H. unfold select_parent in H.
  destruct (Nat.eqb (length population) 0); [discriminate|].
  cbv zeta in H. destruct (uniform_index R (length population) g) as [i0 g1].
  bind_ok H. bind_ok H. apply Ok_inj in H. injection H as <- _.
  apply index_spec, nth_error_In in E0.
  unfold genes in Hs. rewrite Forall_forall in Hs. apply Hs, E0.
Qed.

Lemma reproduce_sized (population : list (list double))
    (fitnesses : list double) :
  genes (Portfolio.num_assets (portfolio c)) population ->
  forall slots new_pop g new_pop' g',
    genes (Portfolio.num_assets (portfolio c)) new_pop ->
    reproduce R c slots population fitnesses new_pop g = Ok (new_pop', g') ->
    genes (Portfolio.num_assets (portfolio c)) new_pop'.
Proof.
  intros Hpop slots.
  induction slots as [slots IH] using (well_founded_induction lt_wf).
  intros new_pop g new_pop' g' Hnew H.
  destruct slots as [|[|slots]]; cbn [reproduce] in H.
  - apply Ok_inj in H. injection H as <- _. exact Hnew.
  - bind_ok H. bind_ok H. bind_ok H. bind_ok H. bind_ok H.
    apply Ok_inj in H. injection H as <- _.
    apply select_parent_sized in E, E0; try exact Hpop.
    apply crossover_lengths in E1. apply mutate_length in E2.
    apply Forall_app. split; [exact Hnew|]. constructor; [|constructor].
    destruct E1. congruence.
  - bind_ok H. bind_ok H. bind_ok H. bind_ok H. bind_ok H.
    apply select_parent_sized in E, E0; try exact Hpop.
    apply crossover_lengths in E1. apply mutate_length in E2, E3.
    destruct E1 as [L1 L2].
    apply IH in H; [exact H | lia |].
    apply Forall_app. split; [|constructor; [congruence | constructor]].
    apply Forall_app. split; [exact Hnew|]. constructor; [congruence | constructor].
Qed.

Lemma In_insert_sorted x y l : In y (insert_sorted x l) -> y = x \/ In y l.
Proof.
  induction l as [|z l IH]; cbn [insert_sorted].
  - intros [<-|[]]. auto.
  - destruct (pair_lt z x); cbn [In].
    + intros [<-|H]; [auto|]. destruct (IH H); auto.
    + intros [<-|H]; auto.
Qed.

Lemma In_sort y l : In y (sort l) -> In y l.
Proof.
  induction l as [|x l IH]; [auto|].
  cbn [sort fold_right]. fold (sort l). intros H.
  apply In_insert_sorted in H. destruct H as [->|H]; cbn [In]; auto.
Qed.

Lemma elites_sized (population : list (list double)) (fitnesses : list double)
    (k : nat) :
  genes (Portfolio.num_assets (portfolio c)) population ->
  genes (Portfolio.num_assets (portfolio c))
    (map snd (firstn k (sort (combine fitnesses population)))).
Proof.
  intros Hs. unfold genes in *. rewrite Forall_forall in *.
  intros ind Hin. apply in_map_iff in Hin. destruct Hin as ([f w] & <- & Hin).
  apply In_firstn, In_sort, in_combine_r in Hin. apply Hs, Hin.
Qed.

Lemma generation_sized (st st' : state R) :
  genes (Portfolio.num_assets (portfolio c)) (population st) ->
  generation R c st = Ok st' ->
  genes (Portfolio.num_assets (portfolio c)) (population st').
Proof.
  intros Hs H.
  destruct (generation_inv R c st st' H)
    as (fitnesses & f_best & best_w & new_pop & g & _ & _ & Hrep & ->).
  cbn [population].
  eapply reproduce_sized; [exact Hs | | exact Hrep].
  apply elites_sized, Hs.
Qed.

Lemma run_sized (k : nat) : forall st0 st,
  genes (Portfolio.num_assets (portfolio c)) (population st0) ->
  run_generations R c k st0 = Ok st ->
  genes (Portfolio.num_assets (portfolio c)) (population st).
Proof.
  induction k as [|k IH]; intros st0 st H0 H.
  - apply Ok_inj in H. subst st. exact H0.
  - cbn [run_generations] in H. bind_ok H.
    eapply IH; [|exact H]. eapply generation_sized; eauto.
Qed.

Lemma evaluate_sized (population : list (list double)) :
  genes (Portfolio.num_assets (portfolio c)) population ->
  exists fitnesses, evaluate c population = Ok fitnesses.
Proof.
  induction 1 as [|ind rest Hind _ IH]; [exists []; reflexivity|].
  destruct IH as [fs Hfs].
  destruct (calculate_fitness_matched c ind Hind) as [f Hf].
  exists (f :: fs). cbn [evaluate]. rewrite Hf, Hfs. reflexivity.
Qed.

End PopulationFacts.

(** X23.  The populations of a run.  On entry to the generation loop and
    after every generation the population has [population_size]
    individuals, each of one gene per asset of the portfolio, so that the
    fitness of every individual can be computed: the evaluation at the head
    of the next generation does not throw. *)
Theorem population_invariant (R : random_source) (c : GeneticOptimiser.config)
    (g0 : rng R) (st0 st : GeneticOptimiser.state R) (k : nat) :
  GeneticOptimiser.initial_state R c g0 = Ok st0 ->
  GeneticOptimiser.run_generations R c k st0 = Ok st ->
  length (GeneticOptimiser.population st) = GeneticOptimiser.population_size c /\
  genes (Portfolio.num_assets (GeneticOptimiser.portfolio c))
    (GeneticOptimiser.population st) /\
  exists fitnesses,
    GeneticOptimiser.evaluate c (GeneticOptimiser.population st) = Ok fitnesses /\
    length fitnesses = GeneticOptimiser.population_size c.
Proof.
  intros Hinit Hrun.
  pose proof (run_population_size R c g0 st0 k Hinit st Hrun) as Hsize.
  assert (Hgenes : genes (Portfolio.num_assets (GeneticOptimiser.portfolio c))
                     (GeneticOptimiser.population st)).
  { apply (run_sized R c k st0 st); [|exact Hrun].
    destruct (initial_state_inv R c g0 st0 Hinit) as (pop & g & Hpop & ->).
    cbn [GeneticOptimiser.population].
    apply (init_population_sized R c _ _ _ _ Hpop). }
  split; [exact Hsize|]. split; [exact Hgenes|].
  destruct (evaluate_sized c _ Hgenes) as [fs Hfs].
  exists fs. split; [exact Hfs|].
  rewrite (evaluate_length c _ _ Hfs). exact Hsize.
Qed.

Lemma population_invariant_witness :
  exists st0 st,
    GeneticOptimiser.initial_state Examples.counter_source
      (Examples.small_config 3) 0%nat = Ok st0 /\
    GeneticOptimiser.run_generations Examples.counter_source
      (Examples.small_config 3) 2 st0 = Ok st /\
    length (GeneticOptimiser.population st) =
      GeneticOptimiser.population_size (Examples.small_config 3) /\
    genes (Portfolio.num_assets
             (GeneticOptimiser.portfolio (Examples.small_config 3)))
      (GeneticOptimiser.population st) /\
    exists fitnesses,
      GeneticOptimiser.evaluate (Examples.small_config 3)
        (GeneticOptimiser.population st) = Ok fitnesses /\
      length fitnesses =
        GeneticOptimiser.population_size (Examples.small_config 3).
Proof.
  eexists. eexists.
  split; [vm_compute; reflexivity|]. split; [vm_compute; reflexivity|].
  eapply (population_invariant Examples.counter_source (Examples.small_config 3)
            0%nat _ _ 2);
    vm_compute; reflexivity.
Defined.

Section BestFacts.

Import GeneticOptimiser.

Variable R : random_source.
Variable c : config.

Lemma evaluate_nth (population : list (list double)) : forall fitnesses i w f,
  evaluate c population = Ok fitnesses ->
  index population i = Ok w -> index fitnesses i = Ok f ->
  calculate_fitness c w = Ok f.
Proof.
  induction population as [|ind rest IH]; intros fitnesses i w f Hev Hw Hf.
  - destruct i; discriminate Hw.
  - cbn [evaluate] in Hev.
    destruct (calculate_fitness c ind) as [f0| |] eqn:E; cbn [bind] in Hev;
      try discriminate Hev.
    destruct (evaluate c rest) as [fs| |] eqn:E0; cbn [bind] in Hev;
      try discriminate Hev.
    apply Ok_inj in Hev. subst fitnesses.
    destruct i as [|i].
    + apply Ok_inj in Hw, Hf. subst. exact E.
    + apply (IH fs i w f eq_refl Hw Hf).
Qed.

(** The best weights and the best fitness go together. *)
Lemma generation_tracked (st st' : state R) :
  generation R c st = Ok st' ->
  (best_fitness st' = best_fitness st /\ best_weights st' = best_weights st) \/
  calculate_fitness c (best_weights st') = Ok (best_fitness st').
Proof.
  unfold generation. intros H.
  bind_ok H. bind_ok H.
  destruct (a0 <? best_fitness st) eqn:Himp.
  - bind_ok H. bind_ok H. apply Ok_inj in H. subst st'.
    cbn [best_fitness best_weights]. right.
    apply (evaluate_nth _ _ _ _ _ E E1 E0).
  - cbn [bind] in H. bind_ok H. apply Ok_inj in H. subst st'.
    cbn [best_fitness best_weights]. left. auto.
Qed.

Lemma run_tracked (k : nat) : forall st0 st,
  run_generations R c k st0 = Ok st ->
  (best_fitness st = best_fitness st0 /\ best_weights st = best_weights st0) \/
  calculate_fitness c (best_weights st) = Ok (best_fitness st).
Proof.
  induction k as [|k IH]; intros st0 st H.
  - apply Ok_inj in H. subst st. left. auto.
  - cbn [run_generations] in H. bind_ok H.
    destruct (IH _ _ H) as [[Hf Hw]|Hfit]; [|right; exact Hfit].
    destruct (generation_tracked _ _ E) as [[Hf' Hw']|Hfit].
    + left. split; congruence.
    + right. rewrite Hf, Hw. exact Hfit.
Qed.

End BestFacts.

(** X24.  When [optimise] returns, over a constructed portfolio, the best
    fitness it reports is the fitness of the weights it returns, and these
    weights have one entry per asset: the recomputation that ends
    [optimise] finds the very value that the loop has tracked. *)
Theorem reported_fitness (R : random_source) (c : GeneticOptimiser.config)
    (g0 : rng R) (Rm : Matrix.t) (w : list double) (f : double) :
  Portfolio.new Rm = Ok (GeneticOptimiser.portfolio c) ->
  GeneticOptimiser.optimise_with_fitness R c g0 = Ok (w, f) ->
  GeneticOptimiser.calculate_fitness c w = Ok f /\
  length w = Portfolio.num_assets (GeneticOptimiser.portfolio c) /\
  GeneticOptimiser.optimise R c g0 = Ok w.
Proof.
  intros Hnew Hopt.
  assert (Hret : GeneticOptimiser.optimise R c g0 = Ok w)
    by (unfold GeneticOptimiser.optimise; rewrite Hopt; reflexivity).
  unfold GeneticOptimiser.optimise_with_fitness in Hopt.
  bind_ok Hopt. bind_ok Hopt. bind_ok Hopt.
  pose proof (f_equal (fun o => match o with Ok r => fst r | _ => [] end) Hopt)
    as Hw.
  pose proof (f_equal (fun o => match o with Ok r => snd r | _ => 0 end) Hopt)
    as Hf.
  cbn in Hw, Hf. subst w.
  assert (Hsize : length (GeneticOptimiser.best_weights a0) =
                  Portfolio.num_assets (GeneticOptimiser.portfolio c)).
  { destruct (Nat.eq_dec (length (GeneticOptimiser.best_weights a0))
                (Portfolio.num_assets (GeneticOptimiser.portfolio c)))
      as [H|H]; [exact H|].
    rewrite (calculate_fitness_mismatched c _ H) in E1. discriminate. }
  split; [|split; [exact Hsize | exact Hret]].
  destruct (run_tracked R c _ _ _ E0) as [[_ Hw]|Hfit].
  - exfalso. destruct (initial_state_best R c g0 a E) as [Hw0 _].
    rewrite Hw, Hw0 in Hsize. cbn in Hsize.
    apply (new_num_assets Rm _ Hnew). symmetry. exact Hsize.
  - rewrite E1 in Hfit. apply Ok_inj in Hfit. subst a1.
    rewrite ltb_irrefl in Hf. subst f. exact E1.
Qed.

Lemma reported_fitness_witness :
  exists w f,
    Portfolio.new Examples.scenario_returns =
      Ok (GeneticOptimiser.portfolio (Examples.small_config 3)) /\
    GeneticOptimiser.optimise_with_fitness Examples.counter_source
      (Examples.small_config 3) 0%nat = Ok (w, f) /\
    GeneticOptimiser.calculate_fitness (Examples.small_config 3) w = Ok f /\
    length w =
      Portfolio.num_assets (GeneticOptimiser.portfolio (Examples.small_config 3)) /\
    GeneticOptimiser.optimise Examples.counter_source (Examples.small_config 3)
      0%nat = Ok w.
Proof.
  eexists. eexists.
  split; [vm_compute; reflexivity|]. split; [vm_compute; reflexivity|].
  apply (reported_fitness Examples.counter_source (Examples.small_config 3)
           0%nat Examples.scenario_returns);
    vm_compute; reflexivity.
Defined.

(** X25.  With a population size of 0 and at least one generation the
    behaviour of [optimise] is undefined: the first generation looks for the
    smallest of no fitnesses and reads [fitnesses[0]] of an empty vector. *)
Theorem empty_population_undefined (R : random_source)
    (c : GeneticOptimiser.config) (g0 : rng R) :
  GeneticOptimiser.population_size c = 0%nat ->
  GeneticOptimiser.generations c <> 0%nat ->
  GeneticOptimiser.optimise R c g0 = Undefined.
Proof.
  intros Hpop Hgens.
  unfold GeneticOptimiser.optimise, GeneticOptimiser.optimise_with_fitness,
    GeneticOptimiser.initial_state.
  rewrite Hpop. cbn [GeneticOptimiser.init_population bind].
  destruct (GeneticOptimiser.generations c) as [|k]; [contradiction|].
  reflexivity.
Qed.

Lemma empty_population_undefined_witness :
  GeneticOptimiser.population_size
    Runs.empty_population_config = 0%nat /\
  GeneticOptimiser.generations Runs.empty_population_config <> 0%nat /\
  GeneticOptimiser.optimise Examples.counter_source
    Runs.empty_population_config 0%nat = Undefined.
Proof.
  split; [reflexivity|]. split; [discriminate|].
  apply (empty_population_undefined Examples.counter_source
           Runs.empty_population_config 0%nat);
    [reflexivity | discriminate].
Defined.

(* ================================================================= *)
(** * The best of a generation *)

Lemma no_nan_spec (l : list double) :
  forallb (fun f => negb (is_nan f)) l = true ->
  forall f, In f l -> is_nan f = false.
Proof.
  rewrite forallb_forall. intros H f Hin.
  apply negb_true_iff, H, Hin.
Qed.



(** The example that shows why the NaN is excluded: a NaN in front hides
    the smaller fitness behind it from [min_element]. *)
Example min_element_behind_nan :
  GeneticOptimiser.min_element [nan; 1] = 0%nat /\
  GeneticOptimiser.min_element [1; nan; 0.5] = 2%nat.
Proof. split; reflexivity. Qed.

Section EliteFacts.

Import GeneticOptimiser.

Lemma In_insert_sorted_intro x y l : y = x \/ In y l -> In y (insert_sorted x l).
Proof.
  induction l as [|z l IH]; cbn [insert_sorted].
  - intros [->|[]]. left. reflexivity.
  - destruct (pair_lt z x); cbn [In]; intros [->|[->|H]]; auto.
Qed.

Lemma In_sort_intro y l : In y l -> In y (sort l).
Proof.
  induction l as [|x l IH]; [auto|].
  cbn [sort fold_right]. fold (sort l). intros [<-|H];
    apply In_insert_sorted_intro; auto.
Qed.

Lemma pair_lt_key (a b : double * list double) :
  pair_lt a b = true -> (fst b <? fst a) = false.
Proof.
  unfold pair_lt. intros H. apply orb_true_iff in H. destruct H as [H|H].
  - apply ltb_asym, H.
  - apply andb_true_iff in H. destruct H as [H _]. apply negb_true_iff, H.
Qed.

Lemma not_pair_lt_key (a b : double * list double) :
  pair_lt a b = false -> (fst a <? fst b) = false.
Proof.
  unfold pair_lt. intros H. apply orb_false_iff in H. tauto.
Qed.

(** The first of the sorted pairs has a smallest key. *)
Lemma sort_head_minimal (l : list (double * list double)) :
  (forall x, In x l -> is_nan (fst x) = false) ->
  forall h x, nth_error (sort l) 0 = Some h -> In x l ->
    (fst x <? fst h) = false.
Proof.
  induction l as [|a l IH]; intros Hnan h x Hh Hx; [contradiction|].
  cbn [sort fold_right] in Hh. fold (sort l) in Hh.
  assert (IH' : forall h x, nth_error (sort l) 0 = Some h -> In x l ->
                  (fst x <? fst h) = false)
    by (apply IH; intros y Hy; apply Hnan; right; exact Hy).
  clear IH.
  destruct (sort l) as [|y s] eqn:Hs.
  - cbn in Hh. injection Hh as <-.
    destruct Hx as [<-|Hx]; [apply ltb_irrefl|].
    apply In_sort_intro in Hx. rewrite Hs in Hx. contradiction.
  - cbn [insert_sorted] in Hh.
    assert (Hy : In y (a :: l)).
    { right. apply In_sort. rewrite Hs. left. reflexivity. }
    destruct (pair_lt y a) eqn:Hlt; cbn in Hh; injection Hh as <-.
    + destruct Hx as [<-|Hx]; [apply pair_lt_key, Hlt|].
      apply (IH' y x eq_refl Hx).
    + destruct Hx as [<-|Hx]; [apply ltb_irrefl|].
      apply (not_ltb_trans _ (fst y)).
      * apply Hnan, Hy.
      * apply not_pair_lt_key, Hlt.
      * apply (IH' y x eq_refl Hx).
Qed.

Variable R : random_source.
Variable c : config.

Lemma evaluate_combine (population : list (list double)) : forall fitnesses f w,
  evaluate c population = Ok fitnesses ->
  In (f, w) (combine fitnesses population) ->
  calculate_fitness c w = Ok f.
Proof.
  induction population as [|ind rest IH]; intros fitnesses f w Hev Hin.
  - destruct fitnesses; contradiction.
  - cbn [evaluate] in Hev.
    destruct (calculate_fitness c ind) as [f0| |] eqn:E; cbn [bind] in Hev;
      try discriminate Hev.
    destruct (evaluate c rest) as [fs| |] eqn:E0; cbn [bind] in Hev;
      try discriminate Hev.
    apply Ok_inj in Hev. subst fitnesses. cbn [combine In] in Hin.
    destruct Hin as [Hin|Hin].
    + injection Hin as <- <-. exact E.
    + apply (IH fs f w eq_refl Hin).
Qed.

Lemma reproduce_appends (population : list (list double))
    (fitnesses : list double) :
  forall slots new_pop g new_pop' g',
    reproduce R c slots population fitnesses new_pop g = Ok (new_pop', g') ->
    exists children, new_pop' = new_pop ++ children.
Proof.
  intros slots.
  induction slots as [slots IH] using (well_founded_induction lt_wf).
  intros new_pop g new_pop' g' H.
  destruct slots as [|[|slots]]; cbn [reproduce] in H.
  - apply Ok_inj in H. injection H as <- _. exists []. symmetry. apply app_nil_r.
  - bind_ok H. bind_ok H. bind_ok H. bind_ok H. bind_ok H.
    apply Ok_inj in H. injection H as <- _. eauto.
  - bind_ok H. bind_ok H. bind_ok H. bind_ok H. bind_ok H.
    apply IH in H; [|lia]. destruct H as [children ->].
    rewrite <- !app_assoc. eauto.
Qed.

End EliteFacts.

Lemma In_combine_fst {A B : Type} (l : list A) : forall (l' : list B) x,
  length l = length l' -> In x l -> exists y, In (x, y) (combine l l').
Proof.
  induction l as [|a l IH]; intros [|b l'] x Hlen Hin; cbn in *; try lia;
    try contradiction.
  destruct Hin as [<-|Hin]; [eauto|].
  destruct (IH l' x ltac:(lia) Hin) as [y Hy]. eauto.
Qed.

(** X27.  Elitism.  In a generation over a population of [population_size]
    individuals none of whose fitnesses or genes is a NaN (so that
    [std::sort] is given a strict weak order), the first
    [population_size / 20] individuals of the next population are
    individuals of the current one; and when there is one, the first of
    them is a best individual: its fitness is the one that was computed
    for it, and no fitness of the generation is below it. *)
Theorem elitism (R : random_source) (c : GeneticOptimiser.config)
    (st st' : GeneticOptimiser.state R) (fitnesses : list double) :
  GeneticOptimiser.generation R c st = Ok st' ->
  GeneticOptimiser.evaluate c (GeneticOptimiser.population st) = Ok fitnesses ->
  length (GeneticOptimiser.population st) = GeneticOptimiser.population_size c ->
  forallb (fun f => negb (is_nan f)) fitnesses = true ->
  forallb (forallb (fun x => negb (is_nan x))) (GeneticOptimiser.population st)
    = true ->
  (forall k, (k < GeneticOptimiser.population_size c / 20)%nat ->
     exists elite,
       nth_error (GeneticOptimiser.population st') k = Some elite /\
       In elite (GeneticOptimiser.population st)) /\
  ((20 <= GeneticOptimiser.population_size c)%nat ->
   exists elite f,
     nth_error (GeneticOptimiser.population st') 0 = Some elite /\
     GeneticOptimiser.calculate_fitness c elite = Ok f /\
     forall f', In f' fitnesses -> (f' <? f) = false).
Proof.
  intros Hgen Hev Hsize Hnan _.
  destruct (generation_inv R c st st' Hgen)
    as (fs & f_best & best_w & new_pop & g & Hev' & _ & Hrep & ->).
  rewrite Hev in Hev'. apply Ok_inj in Hev'. subst fs.
  cbn [GeneticOptimiser.population].
  apply reproduce_appends in Hrep. destruct Hrep as [children ->].
  pose proof (evaluate_length c _ _ Hev) as Hlen.
  set (sorted := GeneticOptimiser.sort
                   (combine fitnesses (GeneticOptimiser.population st))) in *.
  set (count := (GeneticOptimiser.population_size c / 20)%nat) in *.
  assert (Hcount : (count <= GeneticOptimiser.population_size c)%nat)
    by (apply Nat.Div0.div_le_upper_bound; lia).
  assert (Hsorted : length sorted = GeneticOptimiser.population_size c).
  { unfold sorted. rewrite sort_length, length_combine. lia. }
  assert (Helite : forall k, (k < count)%nat ->
            exists fw, nth_error sorted k = Some fw /\
              nth_error (map snd (firstn count sorted) ++ children) k =
                Some (snd fw)).
  { intros k Hk.
    destruct (nth_error sorted k) as [fw|] eqn:Hfw;
      [|apply nth_error_None in Hfw; lia].
    exists fw. split; [reflexivity|].
    rewrite nth_error_app1
      by (rewrite length_map, length_firstn; lia).
    rewrite nth_error_map, nth_error_firstn.
    apply Nat.ltb_lt in Hk. rewrite Hk, Hfw. reflexivity. }
  split.
  - intros k Hk. destruct (Helite k Hk) as ([f w] & Hfw & Hnth).
    exists w. split; [exact Hnth|].
    apply nth_error_In, In_sort, in_combine_r in Hfw. exact Hfw.
  - intros Hpop.
    assert (H0 : (0 < count)%nat).
    { unfold count. apply Nat.div_str_pos. lia. }
    destruct (Helite 0%nat H0) as ([f w] & Hfw & Hnth).
    exists w, f. split; [exact Hnth|]. split.
    + apply (evaluate_combine c _ _ _ _ Hev).
      apply In_sort. apply nth_error_In in Hfw. exact Hfw.
    + intros f' Hf'.
      destruct (In_combine_fst fitnesses (GeneticOptimiser.population st) f'
                  Hlen Hf') as [w' Hin].
      apply (sort_head_minimal _
               (fun x Hx => no_nan_spec fitnesses Hnan (fst x)
                              (in_combine_l _ _ (fst x) (snd x)
                                 ltac:(rewrite <- surjective_pairing; exact Hx)))
               (f, w) (f', w') Hfw Hin).
Qed.

Lemma elitism_witness :
  GeneticOptimiser.generation Examples.counter_source Runs.elite_config
    Runs.elite_first_state = Ok Runs.elite_second_state /\
  GeneticOptimiser.evaluate Runs.elite_config
    (GeneticOptimiser.population Runs.elite_first_state) =
    Ok Runs.elite_fitnesses /\
  length (GeneticOptimiser.population Runs.elite_first_state) =
    GeneticOptimiser.population_size Runs.elite_config /\
  forallb (fun f => negb (is_nan f)) Runs.elite_fitnesses = true /\
  forallb (forallb (fun x => negb (is_nan x)))
    (GeneticOptimiser.population Runs.elite_first_state) = true /\
  exists elite f,
    nth_error (GeneticOptimiser.population Runs.elite_second_state) 0 =
      Some elite /\
    GeneticOptimiser.calculate_fitness Runs.elite_config elite = Ok f /\
    forall f', In f' Runs.elite_fitnesses -> (f' <? f) = false.
Proof.
  split; [vm_compute; reflexivity|]. split; [vm_compute; reflexivity|].
  split; [vm_compute; reflexivity|]. split; [vm_compute; reflexivity|].
  split; [vm_compute; reflexivity|].
  apply (elitism Examples.counter_source Runs.elite_config
           Runs.elite_first_state Runs.elite_second_state
           Runs.elite_fitnesses);
    try (vm_compute; reflexivity).
Defined.

(* ================================================================= *)
(** * Loading the returns (main.cpp) *)

Lemma is_empty_spec {A : Type} (v : list A) : Main.is_empty v = true <-> v = [].
Proof. destruct v; cbn; split; congruence. Qed.

Lemma keep_rows_from (first : list double) (lines : list (list double)) :
  first <> [] ->
  forall kept,
    fold_left Main.keep_row lines (first :: kept) =
    (first :: kept)
    ++ filter (fun row => Nat.eqb (length row) (length first)) lines.
Proof.
  intros Hfirst. induction lines as [|row lines IH]; intros kept.
  - cbn. rewrite app_nil_r. reflexivity.
  - cbn [fold_left filter]. unfold Main.keep_row at 2.
    cbn [Main.is_empty hd orb].
    destruct (Nat.eqb (length row) (length first)) eqn:E.
    + assert (Hrow : Main.is_empty row = false).
      { destruct row; [|reflexivity]. destruct first; [contradiction|].
        discriminate E. }
      rewrite Hrow. cbn [negb andb app].
      rewrite (IH (kept ++ [row])). cbn [app]. rewrite <- app_assoc. reflexivity.
    + rewrite andb_false_r. apply IH.
Qed.

Lemma keep_rows (lines : list (list double)) :
  (fold_left Main.keep_row lines [] = [] /\ forall row, In row lines -> row = []) \/
  (exists blank first rest,
     lines = blank ++ first :: rest /\
     (forall row, In row blank -> row = []) /\ first <> [] /\
     fold_left Main.keep_row lines [] =
     filter (fun row => Nat.eqb (length row) (length first)) lines).
Proof.
  induction lines as [|row lines IH].
  - left. split; [reflexivity | intros row []].
  - cbn [fold_left]. destruct row as [|x row].
    + cbn [Main.keep_row Main.is_empty negb andb].
      change (Main.keep_row [] []) with (@nil (list double)).
      destruct IH
        as [[Hnone Hall]|(blank & first & rest & -> & Hblank & Hfirst & Hkept)].
      * left. split; [exact Hnone|]. intros r [<-|Hr]; auto.
      * right. exists ([] :: blank), first, rest.
        split; [reflexivity|]. split; [intros r [<-|Hr]; auto|].
        split; [exact Hfirst|]. rewrite Hkept. cbn [filter length].
        destruct first; [contradiction|]. reflexivity.
    + right. exists [], (x :: row), lines.
      split; [reflexivity|]. split; [intros r []|]. split; [discriminate|].
      change (Main.keep_row [] (x :: row)) with [x :: row].
      rewrite (keep_rows_from (x :: row) lines ltac:(discriminate) []).
      cbn [filter app]. rewrite Nat.eqb_refl. reflexivity.
Qed.

(** What [load_returns_csv] returns. *)
Lemma load_returns_csv_value (lines : list (list double)) :
  (Main.load_returns_csv lines = None /\
   forall row, In row lines -> row = []) \/
  (exists blank first rest kept,
     lines = blank ++ first :: rest /\
     (forall row, In row blank -> row = []) /\ first <> [] /\
     filter (fun row => Nat.eqb (length row) (length first)) lines =
       first :: kept /\
     Main.load_returns_csv lines =
       Some (Ok (Matrix.mk (S (length kept)) (length first) (first :: kept))) /\
     well_formed (Matrix.mk (S (length kept)) (length first) (first :: kept))).
Proof.
  unfold Main.load_returns_csv. cbv zeta.
  destruct (keep_rows lines)
    as [[Hnone Hall]|(blank & first & rest & Hlines & Hblank & Hfirst & Hkept)].
  - left. rewrite Hnone. auto.
  - right. rewrite Hkept.
    set (same := fun row : list double => Nat.eqb (length row) (length first)).
    assert (Hdata : filter same lines = first :: filter same rest).
    { rewrite Hlines, filter_app. cbn [filter]. unfold same at 2.
      rewrite Nat.eqb_refl.
      replace (filter same blank) with (@nil (list double)); [reflexivity|].
      symmetry. clear -Hblank Hfirst. induction blank as [|b blank IH];
        [reflexivity|].
      cbn [filter]. rewrite (Hblank b (or_introl eq_refl)). unfold same at 1.
      destruct first; [contradiction|]. cbn [length Nat.eqb].
      apply IH. intros row Hrow. apply Hblank. right. exact Hrow. }
    rewrite Hdata.
    assert (Hall : forallb (fun row => Nat.eqb (length row) (length first))
                     (first :: filter same rest) = true).
    { cbn [forallb]. rewrite Nat.eqb_refl. cbn [andb].
      apply forallb_forall. intros row Hrow.
      apply filter_In in Hrow. apply Hrow. }
    assert (Hok : Matrix.of_rows (first :: filter same rest) =
                  Ok (Matrix.mk (S (length (filter same rest)))
                        (length first) (first :: filter same rest))).
    { unfold Matrix.of_rows. cbv zeta. rewrite Hall. reflexivity. }
    pose proof (of_rows_well_formed _ _ Hok) as Hwf.
    rewrite Hok. cbn [Main.is_empty].
    exists blank, first, rest, (filter same rest). auto 10.
Qed.

(** X28.  [load_returns_csv] keeps the lines that have as many cells as the
    first line that has any, in their order.  It throws "No valid data"
    exactly when every line is without cells.  Otherwise the constructor of
    the matrix does not throw: the matrix has at least one row and one
    column and satisfies the class invariant. *)
Theorem load_returns_csv_cases (lines : list (list double)) :
  (Main.load_returns_csv lines = None <-> forall row, In row lines -> row = []) /\
  (forall r, Main.load_returns_csv lines = Some r ->
     exists m blank first rest,
       r = Ok m /\
       lines = blank ++ first :: rest /\
       (forall row, In row blank -> row = []) /\ first <> [] /\
       Matrix.data m =
         filter (fun row => Nat.eqb (length row) (length first)) lines /\
       Matrix.cols m = length first /\ Matrix.cols m <> 0%nat /\
       Matrix.rows m = length (Matrix.data m) /\ Matrix.rows m <> 0%nat /\
       well_formed m).
Proof.
  destruct (load_returns_csv_value lines)
    as [[Hnone Hall]
       |(blank & first & rest & kept & Hlines & Hblank & Hfirst & Hdata & Hload
         & Hwf)].
  - rewrite Hnone. split; [split; auto | discriminate].
  - rewrite Hload. split.
    + split; [discriminate|]. intros Hempty. exfalso. apply Hfirst, Hempty.
      rewrite Hlines. apply in_or_app. right. left. reflexivity.
    + intros r Hr. injection Hr as <-.
      eexists. exists blank, first, rest.
      split; [reflexivity|]. cbn [Matrix.data Matrix.rows Matrix.cols].
      split; [exact Hlines|]. split; [exact Hblank|]. split; [exact Hfirst|].
      split; [symmetry; exact Hdata|]. split; [reflexivity|].
      split; [destruct first; [contradiction | discriminate]|].
      split; [reflexivity|]. split; [discriminate | exact Hwf].
Qed.

(** X29.  The portfolio that [main] builds from the loaded returns.  The
    constructor of the portfolio never throws for want of a column, and
    nothing else is thrown than "No valid data" and the error of a matrix
    of fewer than two rows: with two lines of the length of the first line
    that has cells, the portfolio is built, with one asset per cell of that
    line. *)
Theorem load_portfolio_cases (lines : list (list double)) :
  match Main.load_portfolio lines with
  | None => forall row, In row lines -> row = []
  | Some (Ok p) =>
      exists m,
        Main.load_returns_csv lines = Some (Ok m) /\
        (2 <= Matrix.rows m)%nat /\
        Portfolio.num_assets p = Matrix.cols m /\
        Portfolio.num_assets p <> 0%nat
  | Some (Throw e) =>
      e = invalid_argument PortfolioRows /\
      exists m,
        Main.load_returns_csv lines = Some (Ok m) /\ Matrix.rows m = 1%nat
  | Some Undefined => False
  end.
Proof.
  unfold Main.load_portfolio.
  destruct (load_returns_csv_value lines)
    as [[Hnone Hall]
       |(blank & first & rest & kept & _ & _ & Hfirst & _ & Hload & _)].
  - rewrite Hnone. exact Hall.
  - rewrite Hload. cbn [bind]. unfold Portfolio.new.
    cbn [Matrix.rows Matrix.cols].
    assert (Hcols : Nat.eqb (length first) 0 = false)
      by (destruct first; [contradiction | reflexivity]).
    destruct kept as [|second kept].
    + cbn [length Nat.ltb Nat.leb]. split; [reflexivity|].
      eexists. split; reflexivity.
    + cbn [length Nat.ltb Nat.leb]. rewrite Hcols.
      unfold Matrix.covariance_matrix. cbn [Matrix.rows length Nat.ltb Nat.leb bind].
      cbn [Portfolio.num_assets].
      eexists. split; [reflexivity|]. cbn [Matrix.rows Matrix.cols].
      split; [lia|]. split; [reflexivity|]. apply Nat.eqb_neq, Hcols.
Qed.

(* ================================================================= *)
(** * Daily returns (Daily Returns.cpp) *)

Section DailyReturns.

Variable log : double -> double.

Lemma log_returns_run (prev_prices curr_prices : list double) (n : nat) :
  (n <= length curr_prices)%nat -> (n <= length prev_prices)%nat ->
  forM n (fun i curr_returns =>
    prev <- index prev_prices i ;;
    curr <- index curr_prices i ;;
    Ok (curr_returns ++ [DataReader.log_ret log prev curr])) [] =
  Ok (map (returns_at log prev_prices curr_prices) (seq 0 n)).
Proof.
  induction n as [|n IH]; intros Hc Hp; [reflexivity|].
  rewrite forM_succ, IH by lia. cbn [bind].
  rewrite (index_in_range prev_prices n 0), (index_in_range curr_prices n 0) by lia.
  cbn [bind]. rewrite seq_S, map_app. reflexivity.
Qed.

Lemma log_returns_cases (prev_prices curr_prices : list double) :
  if Nat.ltb (length prev_prices) (length curr_prices)
  then DataReader.log_returns log prev_prices curr_prices = Undefined
  else DataReader.log_returns log prev_prices curr_prices =
       Ok (map (returns_at log prev_prices curr_prices) (seq 0 (length curr_prices))).
Proof.
  unfold DataReader.log_returns.
  destruct (Nat.ltb (length prev_prices) (length curr_prices)) eqn:E.
  - apply Nat.ltb_lt in E.
    assert (H : forall n, (length prev_prices < n)%nat ->
              (n <= length curr_prices)%nat ->
              forM n (fun i curr_returns =>
                prev <- index prev_prices i ;;
                curr <- index curr_prices i ;;
                Ok (curr_returns ++ [DataReader.log_ret log prev curr])) [] =
              Undefined).
    { induction n as [|n IH]; intros Hn Hc; [lia|].
      rewrite forM_succ.
      destruct (Nat.eq_dec n (length prev_prices)) as [->|Hne].
      - rewrite log_returns_run by lia. cbn [bind].
        unfold index at 1.
        rewrite (proj2 (nth_error_None prev_prices (length prev_prices)))
          by lia.
        reflexivity.
      - rewrite IH by lia. reflexivity. }
    apply H; lia.
  - apply Nat.ltb_ge in E. apply log_returns_run; lia.
Qed.

(** The loop over the lines that follow a first line. *)
Lemma process_later_lines (lines : list (list double)) :
  forall (prev_prices : list double) (d : DataReader.t),
    (steady prev_prices lines ->
     exists rets,
       DataReader.process_lines log lines false prev_prices d =
         Ok (DataReader.mk (DataReader.assetTickers d)
               (DataReader.prices d ++ lines)
               (DataReader.dailyReturns d ++ rets)) /\
       length rets = length lines /\
       forall k, (k < length lines)%nat ->
         nth k rets [] =
         map (returns_at log (nth k (prev_prices :: lines) []) (nth k lines []))
           (seq 0 (length (nth k lines [])))) /\
    (~ steady prev_prices lines ->
     DataReader.process_lines log lines false prev_prices d = Undefined).
Proof.
  induction lines as [|curr rest IH]; intros prev_prices d.
  - split.
    + intros _. exists []. cbn. rewrite !app_nil_r.
      destruct d. split; [reflexivity|]. split; [reflexivity|]. intros k Hk. lia.
    + intros H. exfalso. apply H. intros k Hk. cbn in Hk. lia.
  - cbn [DataReader.process_lines].
    cbn [DataReader.assetTickers DataReader.prices DataReader.dailyReturns].
    pose proof (log_returns_cases prev_prices curr) as Hrow.
    destruct (Nat.ltb (length prev_prices) (length curr)) eqn:E.
    + apply Nat.ltb_lt in E. rewrite Hrow. cbn [bind]. split; [|reflexivity].
      intros Hs. specialize (Hs 0%nat ltac:(cbn; lia)). cbn in Hs. lia.
    + apply Nat.ltb_ge in E. rewrite Hrow. cbn [bind].
      set (d1 := DataReader.mk _ _ _).
      destruct (IH curr d1) as [Hok Hbad].
      assert (Hsteady : steady prev_prices (curr :: rest) <-> steady curr rest).
      { unfold steady. split; intros H k Hk.
        - apply (H (S k)). cbn. lia.
        - destruct k as [|k]; [cbn; exact E|]. apply (H k). cbn in Hk. lia. }
      split.
      * intros Hs. apply Hsteady in Hs.
        destruct (Hok Hs) as (rets & Hrun & Hlen & Hnth).
        exists (map (returns_at log prev_prices curr) (seq 0 (length curr)) :: rets).
        rewrite Hrun. unfold d1.
        cbn [DataReader.assetTickers DataReader.prices DataReader.dailyReturns].
        rewrite <- !app_assoc. cbn [app length].
        split; [reflexivity|]. split; [f_equal; exact Hlen|].
        intros [|k] Hk; [reflexivity|]. cbn [nth]. apply Hnth. lia.
      * intros Hs. apply Hbad. intros H. apply Hs, Hsteady, H.
Qed.

End DailyReturns.

Lemma steady_cases (lines : list (list double)) : forall prev_prices,
  steady prev_prices lines \/
  exists k, (k < length lines)%nat /\
    (length (nth k (prev_prices :: lines) []) < length (nth k lines []))%nat.
Proof.
  induction lines as [|curr rest IH]; intros prev_prices.
  - left. intros k Hk. cbn in Hk. lia.
  - destruct (Nat.lt_ge_cases (length prev_prices) (length curr)) as [Hlt|Hge].
    + right. exists 0%nat. cbn. split; [lia | exact Hlt].
    + destruct (IH curr) as [Hs|(k & Hk & Hlt)].
      * left. intros [|k] Hk; [exact Hge|]. apply (Hs k). cbn in Hk. lia.
      * right. exists (S k). cbn [length nth]. split; [lia | exact Hlt].
Qed.

(** X30.  [processAndSaveDailyReturns], from the tickers of the header and
    the prices of the lines.  When a file cannot be opened it returns false
    and leaves the reader as it was.  Otherwise it never throws, and its
    behaviour is undefined exactly when some line has more prices than the
    line before it ([prev_prices] is then read out of range).  When it
    returns, it returns true; the tickers are replaced, while the prices
    and the returns are appended to those of earlier calls: one row of
    returns per line, as long as the line, all 0.0 for the first line and
    for a later line the log return of each price over the price above it,
    or 0.0 when one of the two is not positive. *)
Theorem daily_returns_cases (log : double -> double)
    (tickers : list String.string) (lines : list (list double))
    (d : DataReader.t) :
  DataReader.processAndSaveDailyReturns log false tickers lines d = Ok (false, d) /\
  (forall e,
     DataReader.processAndSaveDailyReturns log true tickers lines d <> Throw e) /\
  (DataReader.processAndSaveDailyReturns log true tickers lines d = Undefined <->
   exists k, (S k < length lines)%nat /\
     (length (nth k lines []) < length (nth (S k) lines []))%nat) /\
  (forall b d',
     DataReader.processAndSaveDailyReturns log true tickers lines d = Ok (b, d') ->
     b = true /\
     DataReader.assetTickers d' = tickers /\
     DataReader.prices d' = DataReader.prices d ++ lines /\
     exists rets,
       DataReader.dailyReturns d' = DataReader.dailyReturns d ++ rets /\
       length rets = length lines /\
       (forall k, (k < length lines)%nat ->
          length (nth k rets []) = length (nth k lines [])) /\
       nth 0 rets [] = repeat 0 (length (nth 0 lines [])) /\
       (forall k i, (S k < length lines)%nat ->
          (i < length (nth (S k) lines []))%nat ->
          nth i (nth (S k) rets []) 0 =
          DataReader.log_ret log (nth i (nth k lines []) 0)
            (nth i (nth (S k) lines []) 0))).
Proof.
  split; [reflexivity|].
  unfold DataReader.processAndSaveDailyReturns. cbn [negb].
  cbn [DataReader.prices DataReader.dailyReturns].
  destruct lines as [|first rest].
  - cbn [DataReader.process_lines bind].
    split; [discriminate|]. split.
    + split; [discriminate | intros (k & Hk & _); cbn in Hk; lia].
    + intros b d' H. apply Ok_inj in H. injection H as <- <-.
      cbn [DataReader.assetTickers DataReader.prices DataReader.dailyReturns].
      rewrite app_nil_r. repeat split.
      exists []. rewrite app_nil_r.
      repeat split; try reflexivity; intros; cbn in *; lia.
  - cbn [DataReader.process_lines bind].
    cbn [DataReader.assetTickers DataReader.prices DataReader.dailyReturns].
    set (d1 := DataReader.mk tickers _ _).
    destruct (process_later_lines log rest first d1) as [Hok Hbad].
    destruct (steady_cases rest first) as [Hs|Hgrow].
    + destruct (Hok Hs) as (rets & Hrun & Hlen & Hnth).
      rewrite Hrun. cbn [bind]. unfold d1.
      cbn [DataReader.assetTickers DataReader.prices DataReader.dailyReturns].
      split; [discriminate|]. split.
      * split; [discriminate|]. intros (k & Hk & Hlt). exfalso.
        cbn [length] in Hk. specialize (Hs k ltac:(lia)).
        change (nth (S k) (first :: rest) []) with (nth k rest []) in Hlt. lia.
      * intros b d' H. apply Ok_inj in H. injection H as <- <-.
        cbn [DataReader.assetTickers DataReader.prices DataReader.dailyReturns].
        rewrite <- !app_assoc. cbn [app].
        repeat split.
        exists (repeat 0 (length first) :: rets).
        split; [reflexivity|]. split; [cbn [length]; f_equal; exact Hlen|].
        split; [|split; [reflexivity|]].
        -- intros [|k] Hk; cbn [nth]; [apply repeat_length|].
           rewrite Hnth by (cbn in Hk; lia).
           rewrite length_map, length_seq. reflexivity.
        -- intros k i Hk Hi. cbn [nth] in *.
           rewrite Hnth by (cbn in Hk; lia).
           rewrite (nth_indep _ 0 (returns_at log (nth k (first :: rest) [])
                                     (nth k rest []) 0%nat))
             by (rewrite length_map, length_seq; exact Hi).
           rewrite map_nth, seq_nth by exact Hi. reflexivity.
    + assert (Hns : ~ steady first rest).
      { intros Hs. destruct Hgrow as (k & Hk & Hlt).
        specialize (Hs k Hk). lia. }
      rewrite (Hbad Hns). cbn [bind].
      split; [discriminate|]. split; [|discriminate].
      split; [|reflexivity]. intros _.
      destruct Hgrow as (k & Hk & Hlt). exists k. cbn [length nth]. split; [lia|].
      exact Hlt.
Qed.

(* ================================================================= *)
(** * Renormalisation and rounding

    [normalize] divides by a running sum that is itself rounded, so that the
    normalised weights sum to 1 only up to the errors of the additions and
    of the divisions.  These errors are bounded here from the definition of
    the IEEE operations: the value of a finite double as a real number, the
    error of one rounding, of a sum and of a quotient, and from them the
    running sum of at most 1000000 normalised weights. *)

Module RoundFacts.

Local Open Scope Z_scope.

Lemma shr_fexp_spec m e l :
  0 <= m ->
  snd (shr_fexp prec emax m e l) = Z.max e (fexp prec emax (Zdigits2 m + e)) /\
  shr_m (fst (shr_fexp prec emax m e l)) =
    m / 2 ^ (Z.max e (fexp prec emax (Zdigits2 m + e)) - e).
Proof.
  intros Hm. unfold shr_fexp, shr.
  destruct (fexp prec emax (Zdigits2 m + e) - e) as [|p|p] eqn:Hn; cbn [fst snd].
  - rewrite Z.max_l by lia. rewrite Z.sub_diag, shr_record_of_loc_m.
    split; [reflexivity|]. symmetry. apply Z.div_1_r.
  - rewrite Z.max_r by lia.
    rewrite iter_shr_1_m by (rewrite shr_record_of_loc_m; exact Hm).
    rewrite shr_record_of_loc_m.
    replace (fexp prec emax (Zdigits2 m + e) - e) with (Z.pos p) by lia.
    split; [lia | reflexivity].
  - rewrite Z.max_l by lia. rewrite Z.sub_diag, shr_record_of_loc_m.
    split; [reflexivity|]. symmetry. apply Z.div_1_r.
Qed.

(** Without a shift the location is kept. *)
Lemma shr_fexp_exact m e :
  fexp prec emax (Zdigits2 m + e) <= e ->
  fst (shr_fexp prec emax m e loc_Exact) = shr_record_of_loc m loc_Exact.
Proof.
  intros H. unfold shr_fexp, shr.
  destruct (fexp prec emax (Zdigits2 m + e) - e) as [|p|p] eqn:Hn;
    cbn [fst]; try reflexivity. lia.
Qed.

Lemma round_nearest_even_le m l : round_nearest_even m l <= m + 1.
Proof. destruct l as [|[ | | ]]; simpl; try lia. destruct (Z.even m); lia. Qed.

Lemma Zdigits2_bounds m : 0 < m -> 2 ^ (Zdigits2 m - 1) <= m < 2 ^ Zdigits2 m.
Proof.
  destruct m as [|p|p]; try lia. intros _. apply digits2_pos_bounds.
Qed.

Lemma Zdigits2_nonneg m : 0 <= m -> 0 <= Zdigits2 m.
Proof. destruct m as [|p|p]; simpl; lia. Qed.

Lemma Zdigits2_le m k : 0 <= m -> 0 <= k -> m < 2 ^ k -> Zdigits2 m <= k.
Proof.
  intros Hm Hk Hlt.
  destruct (Z.eq_dec m 0) as [->|Hne]; [simpl; lia|].
  destruct (Zdigits2_bounds m ltac:(lia)) as [Hlo _].
  destruct (Z_le_gt_dec (Zdigits2 m) k) as [|Hgt]; [assumption|].
  assert (2 ^ k <= 2 ^ (Zdigits2 m - 1)) by (apply Z.pow_le_mono_r; lia). lia.
Qed.

Lemma Zdigits2_pow m k : 0 <= k -> m = 2 ^ k -> Zdigits2 m = k + 1.
Proof.
  intros Hk ->.
  assert (Hp : 0 < 2 ^ k) by (apply Z.pow_pos_nonneg; lia).
  destruct (Zdigits2_bounds _ Hp) as [Hlo Hhi].
  pose proof (Zdigits2_nonneg (2 ^ k) ltac:(lia)) as Hd.
  apply Z.pow_lt_mono_r_iff in Hhi; try lia.
  destruct (Z_le_gt_dec (Zdigits2 (2 ^ k)) (k + 1)) as [|Hgt]; [lia|].
  assert (2 ^ (k + 1) <= 2 ^ (Zdigits2 (2 ^ k) - 1)) by (apply Z.pow_le_mono_r; lia).
  rewrite Z.pow_add_r in H by lia. lia.
Qed.

(** The result of a rounding, by the rounded mantissa [R] at the exponent
    [E] that the digits ask for. *)
Lemma binary_round_aux_cases s mx ex lx :
  0 <= mx ->
  let E := Z.max ex (fexp prec emax (Zdigits2 mx + ex)) in
  exists R,
    mx / 2 ^ (E - ex) <= R <= mx / 2 ^ (E - ex) + 1 /\
    (lx = loc_Exact -> E = ex -> R = mx) /\
    ((R = 0 /\ binary_round_aux prec emax s mx ex lx = S754_zero s) \/
     (exists m e,
        ((e = E /\ Z.pos m = R) \/ (e = E + 1 /\ 2 * Z.pos m = R)) /\
        binary_round_aux prec emax s mx ex lx =
          if e <=? emax - prec then S754_finite s m e else S754_infinity s)).
Proof.
  intros Hm E. unfold binary_round_aux.
  destruct (shr_fexp_spec mx ex lx Hm) as [He1 Hm1]. fold E in He1, Hm1.
  assert (Hexact : lx = loc_Exact -> E = ex ->
    fst (shr_fexp prec emax mx ex lx) = shr_record_of_loc mx loc_Exact).
  { intros -> HE. apply shr_fexp_exact. unfold E in HE. lia. }
  destruct (shr_fexp prec emax mx ex lx) as [r1 e1]. cbn [fst snd] in *.
  subst e1.
  set (R := round_nearest_even (shr_m r1) (loc_of_shr_record r1)).
  assert (HEge : ex <= E) by (unfold E; lia).
  assert (HEmin : emin <= E).
  { unfold E, fexp, emin, SpecFloat.emin, prec, emax. lia. }
  assert (Hpow : 0 < 2 ^ (E - ex)) by (apply Z.pow_pos_nonneg; lia).
  assert (Hm1nn : 0 <= shr_m r1) by (rewrite Hm1; apply Z.div_pos; lia).
  assert (HR : shr_m r1 <= R <= shr_m r1 + 1).
  { split; [apply round_nearest_even_ge | apply round_nearest_even_le]. }
  assert (Hm1lt : shr_m r1 < 2 ^ 53).
  { rewrite Hm1. apply Z.div_lt_upper_bound; [exact Hpow|].
    destruct (Z.eq_dec mx 0) as [->|Hne]; [lia|].
    destruct (Zdigits2_bounds mx ltac:(lia)) as [_ Hhi].
    eapply Z.lt_le_trans; [exact Hhi|].
    rewrite <- Z.pow_add_r by lia. apply Z.pow_le_mono_r; [lia|].
    unfold E, fexp, prec. lia. }
  exists R. split; [rewrite <- Hm1; exact HR|]. split.
  { intros Hl HE. unfold R. rewrite (Hexact Hl HE). reflexivity. }
  assert (HRnn : 0 <= R) by lia.
  destruct (shr_fexp_spec R E loc_Exact HRnn) as [He2 Hm2].
  destruct (shr_fexp prec emax R E loc_Exact) as [r2 e2]. cbn [fst snd] in *.
  destruct (Z.eq_dec R (2 ^ 53)) as [HR53|HR53].
  - right.
    assert (Hd : Zdigits2 R = 54) by (rewrite (Zdigits2_pow R 53); lia).
    assert (HE2 : Z.max E (fexp prec emax (Zdigits2 R + E)) = E + 1).
    { rewrite Hd. unfold fexp, prec. unfold emin, SpecFloat.emin, prec, emax in *. lia. }
    rewrite HE2 in He2, Hm2. replace (E + 1 - E) with 1 in Hm2 by lia.
    rewrite HR53 in Hm2. change (2 ^ 53 / 2 ^ 1) with 4503599627370496 in Hm2.
    rewrite Hm2. exists 4503599627370496%positive, (E + 1).
    split; [right; split; [reflexivity|rewrite HR53; reflexivity]|].
    subst e2. reflexivity.
  - assert (Hd : Zdigits2 R <= 53) by (apply Zdigits2_le; lia).
    assert (HE2 : Z.max E (fexp prec emax (Zdigits2 R + E)) = E).
    { unfold fexp, prec. unfold emin, SpecFloat.emin, prec, emax in *. lia. }
    rewrite HE2 in He2, Hm2. rewrite Z.sub_diag in Hm2.
    change (2 ^ 0) with 1 in Hm2. rewrite Z.div_1_r in Hm2. rewrite Hm2.
    destruct R as [|p|p] eqn:ER; [left; split; reflexivity| |lia].
    right. exists p, E. split; [left; split; reflexivity|]. subst e2. reflexivity.
Qed.

End RoundFacts.

Module RealFacts.

Import Reals Lra Exact RoundFacts.
Local Open Scope R_scope.

(** ** Powers of two *)

Lemma pow2_gt_0 e : 0 < pow2 e.
Proof. apply powerRZ_lt. lra. Qed.

Lemma pow2_add a b : pow2 (a + b) = pow2 a * pow2 b.
Proof. apply powerRZ_add. lra. Qed.

Lemma pow2_IZR n : (0 <= n)%Z -> IZR (2 ^ n) = pow2 n.
Proof.
  intros H. destruct n as [|p|p]; [reflexivity| |lia].
  apply Zpower_pos_powerRZ.
Qed.

Lemma pow2_shift a k : (0 <= k)%Z -> pow2 (a + k) = IZR (2 ^ k) * pow2 a.
Proof. intros H. rewrite pow2_add, pow2_IZR by exact H. ring. Qed.

Lemma pow2_le a b : (a <= b)%Z -> pow2 a <= pow2 b.
Proof.
  intros H. replace b with (a + (b - a))%Z by lia.
  rewrite pow2_shift by lia.
  assert (1 <= IZR (2 ^ (b - a))).
  { apply IZR_le. assert (0 < 2 ^ (b - a))%Z by (apply Z.pow_pos_nonneg; lia). lia. }
  pose proof (pow2_gt_0 a). nra.
Qed.

Lemma pow2_succ a : pow2 (a + 1) = 2 * pow2 a.
Proof. rewrite pow2_shift by lia. reflexivity. Qed.

(** ** The error of a rounding *)

Lemma SF2R_finite s m e : SF2R (S754_finite s m e) = sgn s * (IZR (Z.pos m) * pow2 e).
Proof.
  cbn [SF2R]. destruct s; cbn [cond_Zopp sgn].
  - change (Z.neg m) with (- Z.pos m)%Z. rewrite opp_IZR. ring.
  - ring.
Qed.

(** A mantissa [mx] at the exponent [ex] that stands for a value [t] between
    [mx] and [mx + 1] units.  The rounded value [v] is within one unit of the
    exponent that the digits of [mx] ask for, and it is [mx] units when
    nothing is shifted out. *)
Lemma binary_round_aux_value s mx ex lx (t : R) :
  (0 <= mx)%Z ->
  IZR mx * pow2 ex <= t <= IZR (mx + 1) * pow2 ex ->
  exists v,
    0 <= v /\
    t - pow2 (Z.max ex (fexp prec emax (Zdigits2 mx + ex))) <= v
      <= t + pow2 (Z.max ex (fexp prec emax (Zdigits2 mx + ex))) /\
    (lx = loc_Exact -> Z.max ex (fexp prec emax (Zdigits2 mx + ex)) = ex ->
     v = IZR mx * pow2 ex) /\
    ((binary_round_aux prec emax s mx ex lx = S754_infinity s /\
      (emax - prec <= Z.max ex (fexp prec emax (Zdigits2 mx + ex)))%Z) \/
     (finite_sf (binary_round_aux prec emax s mx ex lx) = true /\
      SF2R (binary_round_aux prec emax s mx ex lx) = sgn s * v)).
Proof.
  intros Hm Ht.
  destruct (binary_round_aux_cases s mx ex lx Hm) as (R & HR & Hex & Hres).
  set (E := Z.max ex (fexp prec emax (Zdigits2 mx + ex))) in *.
  assert (HEge : (ex <= E)%Z) by (unfold E; lia).
  set (k := (E - ex)%Z) in *.
  assert (Hk : (0 <= k)%Z) by (unfold k; lia).
  assert (HP : (0 < 2 ^ k)%Z) by (apply Z.pow_pos_nonneg; lia).
  assert (HE : pow2 E = IZR (2 ^ k) * pow2 ex).
  { replace E with (ex + k)%Z by (unfold k; lia). apply pow2_shift, Hk. }
  pose proof (Z.div_mod mx (2 ^ k) ltac:(lia)) as Hdm.
  pose proof (Z.mod_pos_bound mx (2 ^ k) HP) as Hmod.
  set (m' := (mx / 2 ^ k)%Z) in *.
  assert (Hlo : (m' * 2 ^ k <= mx)%Z) by lia.
  assert (Hhi : (mx + 1 <= (m' + 1) * 2 ^ k)%Z) by lia.
  apply IZR_le in Hlo, Hhi. rewrite mult_IZR in Hlo, Hhi.
  rewrite !plus_IZR in Hhi.
  pose proof (pow2_gt_0 ex) as Hpex.
  assert (HRlo : IZR m' <= IZR R) by (apply IZR_le; lia).
  assert (HRhi : IZR R <= IZR m' + 1)
    by (rewrite <- (plus_IZR m' 1); apply IZR_le; lia).
  assert (HPpos : 0 < IZR (2 ^ k)) by (apply IZR_lt; lia).
  exists (IZR R * pow2 E).
  rewrite plus_IZR in Ht.
  split; [|split; [|split]].
  - assert (0 <= m')%Z by (apply Z.div_pos; lia).
    apply Rmult_le_pos; [apply IZR_le; lia | apply Rlt_le, pow2_gt_0].
  - rewrite HE. 
    assert (H1 : IZR m' * IZR (2 ^ k) * pow2 ex <= IZR mx * pow2 ex)
      by (apply Rmult_le_compat_r; [lra | exact Hlo]).
    assert (H2 : (IZR mx + 1) * pow2 ex <= (IZR m' + 1) * IZR (2 ^ k) * pow2 ex)
      by (apply Rmult_le_compat_r; [lra | exact Hhi]).
    assert (H3 : 0 < IZR (2 ^ k) * pow2 ex) by (apply Rmult_lt_0_compat; lra).
    assert (H4 : IZR m' * (IZR (2 ^ k) * pow2 ex) <= IZR R * (IZR (2 ^ k) * pow2 ex))
      by (apply Rmult_le_compat_r; lra).
    assert (H5 : IZR R * (IZR (2 ^ k) * pow2 ex) <= (IZR m' + 1) * (IZR (2 ^ k) * pow2 ex))
      by (apply Rmult_le_compat_r; lra).
    split; lra.
  - intros Hl HEx. rewrite (Hex Hl HEx), HEx. reflexivity.
  - destruct Hres as [[HR0 ->]|(m & e & Hme & ->)].
    + right. split; [reflexivity|]. rewrite HR0. cbn [SF2R]. ring.
    + destruct (e <=? emax - prec)%Z eqn:Hle.
      * right. split; [reflexivity|]. rewrite SF2R_finite. f_equal.
        destruct Hme as [[-> <-]|[-> <-]]; [reflexivity|].
        rewrite pow2_succ, mult_IZR. ring.
      * left. split; [reflexivity|]. apply Z.leb_gt in Hle.
        destruct Hme as [[-> _]|[-> _]]; lia.
Qed.

Lemma digits_shift (m : positive) (k : Z) (mz : positive) :
  (0 <= k)%Z -> Z.pos mz = (Z.pos m * 2 ^ k)%Z ->
  Z.pos (digits2_pos mz) = (Z.pos (digits2_pos m) + k)%Z.
Proof.
  intros Hk Hmz.
  destruct (digits2_pos_bounds m) as [Hlo Hhi].
  destruct (digits2_pos_bounds mz) as [Hlo' Hhi'].
  rewrite Hmz in Hlo', Hhi'.
  set (d := Z.pos (digits2_pos m)) in *. set (d' := Z.pos (digits2_pos mz)) in *.
  assert (HP : (0 < 2 ^ k)%Z) by (apply Z.pow_pos_nonneg; lia).
  assert (H1 : (2 ^ (d' - 1) < 2 ^ (d + k))%Z).
  { rewrite Z.pow_add_r by lia. nia. }
  assert (H2 : (2 ^ (d - 1 + k) < 2 ^ d')%Z).
  { rewrite Z.pow_add_r by lia. nia. }
  apply Z.pow_lt_mono_r_iff in H1; try lia.
  apply Z.pow_lt_mono_r_iff in H2; lia.
Qed.

(** The value of a mantissa against the power of two of its digits. *)
Lemma mantissa_ge (m : positive) (e : Z) :
  pow2 (Z.pos (digits2_pos m) - 1 + e) <= IZR (Z.pos m) * pow2 e.
Proof.
  destruct (digits2_pos_bounds m) as [Hlo _].
  rewrite Z.add_comm, pow2_shift by lia.
  apply Rmult_le_compat_r; [pose proof (pow2_gt_0 e); lra|].
  apply IZR_le, Hlo.
Qed.

(** Rounding [m * 2^e]: the result is within [u] of it, relatively, or an
    infinity when it reaches [2^1023]. *)
Lemma binary_round_value s m e :
  (emin <= e)%Z ->
  (binary_round prec emax s m e = S754_infinity s /\
   pow2 1023 <= IZR (Z.pos m) * pow2 e) \/
  (finite_sf (binary_round prec emax s m e) = true /\
   exists v, SF2R (binary_round prec emax s m e) = sgn s * v /\
     IZR (Z.pos m) * pow2 e - u * (IZR (Z.pos m) * pow2 e) <= v
       <= IZR (Z.pos m) * pow2 e + u * (IZR (Z.pos m) * pow2 e)).
Proof.
  intros He. unfold binary_round, shl_align.
  set (t := IZR (Z.pos m) * pow2 e).
  set (d := Z.pos (digits2_pos m)).
  set (F := fexp prec emax (d + e)).
  pose proof (mantissa_ge m e) as Hge. fold d t in Hge.
  assert (Ht : 0 < t).
  { unfold t. apply Rmult_lt_0_compat; [apply IZR_lt; lia | apply pow2_gt_0]. }
  assert (Hu : 0 < u) by apply pow2_gt_0.
  assert (Hinf : (emax - prec <= F)%Z -> pow2 1023 <= t).
  { intros HF. eapply Rle_trans; [|exact Hge]. apply pow2_le.
    unfold F, fexp, emin, SpecFloat.emin, prec, emax in *. lia. }
  destruct (F - e)%Z as [|p|p] eqn:Hd.
  - (* no shift at all *)
    assert (HF : F = e) by lia.
    destruct (binary_round_aux_value s (Z.pos m) e loc_Exact t ltac:(lia))
      as (v & _ & _ & Hex & Hres).
    { unfold t. split; [lra|]. rewrite plus_IZR. pose proof (pow2_gt_0 e). nra. }
    cbn [Zdigits2] in Hex, Hres. fold d F in Hex, Hres.
    rewrite Z.max_l in Hex, Hres by lia.
    specialize (Hex eq_refl eq_refl). fold t in Hex.
    destruct Hres as [[Hr HE]|[Hf Hv]].
    + left. split; [exact Hr | apply Hinf; lia].
    + right. split; [exact Hf|]. exists v. split; [exact Hv|]. nra.
  - (* rounding to the exponent [F > e] *)
    assert (HF : F = (d + e - 53)%Z).
    { unfold F, fexp, emin, SpecFloat.emin, prec, emax in *. lia. }
    destruct (binary_round_aux_value s (Z.pos m) e loc_Exact t ltac:(lia))
      as (v & _ & Hv & _ & Hres).
    { unfold t. split; [lra|]. rewrite plus_IZR. pose proof (pow2_gt_0 e). nra. }
    cbn [Zdigits2] in Hv, Hres. fold d F in Hv, Hres.
    rewrite Z.max_r in Hv, Hres by lia.
    assert (HuF : pow2 F <= u * t).
    { replace F with (-52 + (d - 1 + e))%Z by lia. rewrite pow2_add. fold u.
      apply Rmult_le_compat_l; lra. }
    destruct Hres as [[Hr HE]|[Hf Hvv]].
    + left. split; [exact Hr | apply Hinf; lia].
    + right. split; [exact Hf|]. exists v. split; [exact Hvv|]. lra.
  - (* the mantissa is shifted left to the exponent [F < e] *)
    set (mz := Pos.iter xO m p).
    assert (Hmz : Z.pos mz = (Z.pos m * 2 ^ (e - F))%Z).
    { unfold mz. rewrite shift_pos_value. f_equal. f_equal. lia. }
    assert (Hdz : Z.pos (digits2_pos mz) = (d + (e - F))%Z)
      by (apply digits_shift; [lia | exact Hmz]).
    assert (Htz : IZR (Z.pos mz) * pow2 F = t).
    { rewrite Hmz, mult_IZR. unfold t.
      replace e with (F + (e - F))%Z at 2 by lia.
      rewrite pow2_shift by lia. ring. }
    destruct (binary_round_aux_value s (Z.pos mz) F loc_Exact t ltac:(lia))
      as (v & _ & _ & Hex & Hres).
    { rewrite <- Htz. split; [lra|]. rewrite plus_IZR. pose proof (pow2_gt_0 F). nra. }
    cbn [Zdigits2] in Hex, Hres. rewrite Hdz in Hex, Hres.
    replace (d + (e - F) + F)%Z with (d + e)%Z in Hex, Hres by lia.
    fold F in Hex, Hres. rewrite Z.max_id in Hex, Hres.
    specialize (Hex eq_refl eq_refl). rewrite Htz in Hex.
    destruct Hres as [[Hr HE]|[Hf Hv]].
    + left. split; [exact Hr | apply Hinf; lia].
    + right. split; [exact Hf|]. exists v. split; [exact Hv|]. nra.
Qed.

(** Rounding the integer [D] at the exponent [e]. *)
Lemma binary_normalize_value D e :
  (emin <= e)%Z ->
  ((exists s, binary_normalize prec emax D e false = S754_infinity s) /\
   pow2 1023 <= Rabs (IZR D * pow2 e)) \/
  (finite_sf (binary_normalize prec emax D e false) = true /\
   Rabs (SF2R (binary_normalize prec emax D e false) - IZR D * pow2 e)
     <= u * Rabs (IZR D * pow2 e)).
Proof.
  intros He. destruct D as [|p|p]; cbn [binary_normalize].
  - right. split; [reflexivity|]. cbn [SF2R].
    rewrite Rmult_0_l, Rminus_0_r, Rabs_R0. lra.
  - assert (Ht : 0 < IZR (Z.pos p) * pow2 e).
    { apply Rmult_lt_0_compat; [apply IZR_lt; lia | apply pow2_gt_0]. }
    rewrite (Rabs_pos_eq (IZR (Z.pos p) * pow2 e)) by lra.
    destruct (binary_round_value false p e He) as [[Hr Hinf]|[Hf (v & Hv & Hb)]].
    + left. split; [eexists; exact Hr | exact Hinf].
    + right. split; [exact Hf|]. rewrite Hv. cbn [sgn].
      apply Rabs_le. lra.
  - assert (Ht : 0 < IZR (Z.pos p) * pow2 e).
    { apply Rmult_lt_0_compat; [apply IZR_lt; lia | apply pow2_gt_0]. }
    change (Z.neg p) with (- Z.pos p)%Z. rewrite opp_IZR.
    replace (- IZR (Z.pos p) * pow2 e) with (- (IZR (Z.pos p) * pow2 e)) by ring.
    rewrite Rabs_Ropp, (Rabs_pos_eq (IZR (Z.pos p) * pow2 e)) by lra.
    destruct (binary_round_value true p e He) as [[Hr Hinf]|[Hf (v & Hv & Hb)]].
    + left. split; [eexists; exact Hr | exact Hinf].
    + right. split; [exact Hf|]. rewrite Hv. cbn [sgn].
      apply Rabs_le. lra.
Qed.

(** ** Sums, differences and quotients *)

Lemma aligned_real s m e ez :
  (ez <= e)%Z ->
  IZR (cond_Zopp s (Z.pos (fst (shl_align m e ez)))) * pow2 ez =
  SF2R (S754_finite s m e).
Proof.
  intros H. fold (aligned m e ez). rewrite aligned_value by exact H.
  rewrite SF2R_finite.
  replace e with (ez + (e - ez))%Z at 2 by lia.
  rewrite pow2_shift by lia.
  destruct s; cbn [cond_Zopp sgn].
  - rewrite <- Z.mul_opp_l. rewrite mult_IZR. 
    change (- Z.pos m)%Z with (Z.neg m). change (Z.neg m) with (- Z.pos m)%Z.
    rewrite opp_IZR. ring.
  - rewrite mult_IZR. ring.
Qed.

Lemma exact_value (t : R) : Rabs (t - t) <= u * Rabs t.
Proof.
  replace (t - t) with 0 by ring. rewrite Rabs_R0.
  apply Rmult_le_pos; [apply Rlt_le, pow2_gt_0 | apply Rabs_pos].
Qed.

(** A sum of finite values: the exact sum rounded, with a relative error of
    at most [u], unless it overflows. *)
Lemma SFadd_value x y :
  valid_binary x = true -> valid_binary y = true ->
  finite_sf x = true -> finite_sf y = true ->
  (finite_sf (SF64add x y) = false /\ pow2 1023 <= Rabs (SF2R x + SF2R y)) \/
  (finite_sf (SF64add x y) = true /\
   Rabs (SF2R (SF64add x y) - (SF2R x + SF2R y)) <= u * Rabs (SF2R x + SF2R y)).
Proof.
  intros Vx Vy Fx Fy.
  destruct x as [sx|sx| |sx mx ex]; try discriminate;
    destruct y as [sy|sy| |sy my ey]; try discriminate.
  - right. split; [destruct sx, sy; reflexivity|].
    replace (SF2R (SF64add (S754_zero sx) (S754_zero sy))) with 0
      by (destruct sx, sy; reflexivity).
    cbn [SF2R]. replace (0 - (0 + 0)) with 0 by ring.
    rewrite Rabs_R0. apply Rmult_le_pos; [apply Rlt_le, pow2_gt_0 | apply Rabs_pos].
  - right. split; [reflexivity|]. cbn [SF64add SFadd].
    replace (SF2R (S754_zero sx) + SF2R (S754_finite sy my ey))
      with (SF2R (S754_finite sy my ey)) by (cbn [SF2R]; ring).
    apply exact_value.
  - right. split; [reflexivity|]. cbn [SF64add SFadd].
    replace (SF2R (S754_finite sx mx ex) + SF2R (S754_zero sy))
      with (SF2R (S754_finite sx mx ex)) by (cbn [SF2R]; ring).
    apply exact_value.
  - cbn [valid_binary] in Vx, Vy.
    destruct (bounded_facts _ _ Vx) as [Hex _], (bounded_facts _ _ Vy) as [Hey _].
    unfold SF64add, SFadd.
    set (ez := Z.min ex ey).
    rewrite <- (aligned_real sx mx ex ez), <- (aligned_real sy my ey ez)
      by (unfold ez; lia).
    rewrite <- Rmult_plus_distr_r, <- plus_IZR.
    destruct (binary_normalize_value
                (cond_Zopp sx (Z.pos (fst (shl_align mx ex ez))) +
                 cond_Zopp sy (Z.pos (fst (shl_align my ey ez)))) ez
                ltac:(unfold ez; lia)) as [[[s Hr] Hinf]|[Hf Hv]].
    + left. rewrite Hr. split; [reflexivity | exact Hinf].
    + right. split; assumption.
Qed.

Lemma SFsub_value x y :
  valid_binary x = true -> valid_binary y = true ->
  finite_sf x = true -> finite_sf y = true ->
  (finite_sf (SF64sub x y) = false /\ pow2 1023 <= Rabs (SF2R x - SF2R y)) \/
  (finite_sf (SF64sub x y) = true /\
   Rabs (SF2R (SF64sub x y) - (SF2R x - SF2R y)) <= u * Rabs (SF2R x - SF2R y)).
Proof.
  intros Vx Vy Fx Fy.
  destruct x as [sx|sx| |sx mx ex]; try discriminate;
    destruct y as [sy|sy| |sy my ey]; try discriminate.
  - right. split; [destruct sx, sy; reflexivity|].
    replace (SF2R (SF64sub (S754_zero sx) (S754_zero sy))) with 0
      by (destruct sx, sy; reflexivity).
    cbn [SF2R]. replace (0 - (0 - 0)) with 0 by ring.
    rewrite Rabs_R0. apply Rmult_le_pos; [apply Rlt_le, pow2_gt_0 | apply Rabs_pos].
  - right. split; [reflexivity|]. cbn [SF64sub SFsub].
    replace (SF2R (S754_zero sx) - SF2R (S754_finite sy my ey))
      with (SF2R (S754_finite (negb sy) my ey)).
    + apply exact_value.
    + rewrite !SF2R_finite. cbn [SF2R]. destruct sy; cbn [negb sgn]; ring.
  - right. split; [reflexivity|]. cbn [SF64sub SFsub].
    replace (SF2R (S754_finite sx mx ex) - SF2R (S754_zero sy))
      with (SF2R (S754_finite sx mx ex)) by (cbn [SF2R]; ring).
    apply exact_value.
  - cbn [valid_binary] in Vx, Vy.
    destruct (bounded_facts _ _ Vx) as [Hex _], (bounded_facts _ _ Vy) as [Hey _].
    unfold SF64sub, SFsub.
    set (ez := Z.min ex ey).
    rewrite <- (aligned_real sx mx ex ez), <- (aligned_real sy my ey ez)
      by (unfold ez; lia).
    rewrite <- Rmult_minus_distr_r, <- minus_IZR.
    destruct (binary_normalize_value
                (cond_Zopp sx (Z.pos (fst (shl_align mx ex ez))) -
                 cond_Zopp sy (Z.pos (fst (shl_align my ey ez)))) ez
                ltac:(unfold ez; lia)) as [[[s Hr] Hinf]|[Hf Hv]].
    + left. rewrite Hr. split; [reflexivity | exact Hinf].
    + right. split; assumption.
Qed.

Lemma mantissa_lt (m : positive) (e : Z) :
  IZR (Z.pos m) * pow2 e <= pow2 (Z.pos (digits2_pos m) + e).
Proof.
  destruct (digits2_pos_bounds m) as [_ Hhi].
  rewrite Z.add_comm, pow2_shift by lia.
  apply Rmult_le_compat_r; [pose proof (pow2_gt_0 e); lra|].
  apply IZR_le. lia.
Qed.

Lemma pow2_sub a b : pow2 (a - b) = pow2 a / pow2 b.
Proof.
  pose proof (pow2_gt_0 b) as Hb.
  replace a with ((a - b) + b)%Z at 2 by lia. rewrite pow2_add. field. lra.
Qed.

(** A quotient of positive values: the exact quotient with a relative error
    of at most [u] and, below the normal range, an absolute one of at most
    [eta]. *)
Lemma SFdiv_value mx ex my ey :
  SpecFloat.bounded prec emax mx ex = true ->
  SpecFloat.bounded prec emax my ey = true ->
  (SF64div (S754_finite false mx ex) (S754_finite false my ey) = S754_infinity false /\
   pow2 1023 <= SF2R (S754_finite false mx ex) / SF2R (S754_finite false my ey)) \/
  (finite_sf (SF64div (S754_finite false mx ex) (S754_finite false my ey)) = true /\
   Rabs (SF2R (SF64div (S754_finite false mx ex) (S754_finite false my ey)) -
         SF2R (S754_finite false mx ex) / SF2R (S754_finite false my ey))
   <= u * (SF2R (S754_finite false mx ex) / SF2R (S754_finite false my ey)) + eta /\
   0 <= SF2R (SF64div (S754_finite false mx ex) (S754_finite false my ey))).
Proof.
  intros Vx Vy.
  rewrite !SF2R_finite. cbn [sgn]. rewrite !Rmult_1_l.
  set (t := IZR (Z.pos mx) * pow2 ex / (IZR (Z.pos my) * pow2 ey)).
  unfold SF64div, SFdiv, SFdiv_core_binary. cbn [Zdigits2 xorb].
  set (d1 := Z.pos (digits2_pos mx)). set (d2 := Z.pos (digits2_pos my)).
  set (X := (d1 + ex - (d2 + ey))%Z).
  set (e' := Z.min (fexp prec emax X) (ex - ey)).
  set (s := (ex - ey - e')%Z).
  assert (Hs : (0 <= s)%Z) by (unfold s, e'; lia).
  set (m' := match s with
             | 0%Z => Z.pos mx
             | Z.pos _ => Z.shiftl (Z.pos mx) s
             | Z.neg _ => 0%Z
             end).
  assert (Hm' : m' = (Z.pos mx * 2 ^ s)%Z).
  { unfold m'. destruct s as [|p|p] eqn:Es; [simpl; lia| |lia].
    apply Z.shiftl_mul_pow2. lia. }
  pose proof (Z_div_mod m' (Z.pos my) ltac:(lia)) as Hdiv.
  destruct (Z.div_eucl m' (Z.pos my)) as [q r].
  destruct Hdiv as [Hdiv Hr].
  assert (HP : (0 < 2 ^ s)%Z) by (apply Z.pow_pos_nonneg; lia).
  assert (Hq : (0 <= q)%Z) by nia.
  pose proof (pow2_gt_0 ex) as Hpex. pose proof (pow2_gt_0 ey) as Hpey.
  pose proof (pow2_gt_0 e') as Hpe'.
  assert (Hmy : 0 < IZR (Z.pos my)) by (apply IZR_lt; lia).
  assert (Hmx : 0 < IZR (Z.pos mx)) by (apply IZR_lt; lia).
  assert (Hex : pow2 ex = IZR (2 ^ s) * (pow2 e' * pow2 ey)).
  { replace ex with ((e' + ey) + s)%Z at 1 by (unfold s; lia).
    rewrite pow2_shift by lia. rewrite pow2_add. ring. }
  assert (Ht : t = IZR m' * (pow2 e' / IZR (Z.pos my))).
  { unfold t. rewrite Hex, Hm', mult_IZR. field. split; lra. }
  assert (Ha : 0 < pow2 e' / IZR (Z.pos my)) by (apply Rdiv_lt_0_compat; lra).
  assert (Htpos : 0 < t).
  { unfold t. apply Rdiv_lt_0_compat; apply Rmult_lt_0_compat; lra. }
  assert (Hb : IZR q * pow2 e' <= t <= IZR (q + 1) * pow2 e').
  { rewrite Ht.
    replace (IZR q * pow2 e') with
      (IZR (Z.pos my * q) * (pow2 e' / IZR (Z.pos my)))
      by (rewrite mult_IZR; field; lra).
    replace (IZR (q + 1) * pow2 e') with
      (IZR (Z.pos my * (q + 1)) * (pow2 e' / IZR (Z.pos my)))
      by (rewrite mult_IZR; field; lra).
    split; apply Rmult_le_compat_r; try lra; apply IZR_le; lia. }
  destruct (binary_round_aux_value false q e' (new_location (Z.pos my) r) t Hq Hb)
    as (v & Hv0 & Hv & _ & Hres).
  set (E := Z.max e' (fexp prec emax (Zdigits2 q + e'))) in *.
  (* the size of the quotient *)
  assert (HtX : pow2 (X - 1) <= t).
  { unfold t, X.
    replace (d1 + ex - (d2 + ey) - 1)%Z with ((d1 - 1 + ex) - (d2 + ey))%Z by lia.
    rewrite pow2_sub.
    pose proof (mantissa_ge mx ex) as H1. pose proof (mantissa_lt my ey) as H2.
    fold d1 in H1. fold d2 in H2.
    pose proof (pow2_gt_0 (d1 - 1 + ex)) as H3.
    pose proof (pow2_gt_0 (d2 + ey)) as H4.
    assert (H5 : 0 < IZR (Z.pos my) * pow2 ey) by (apply Rmult_lt_0_compat; lra).
    apply Rle_trans with (pow2 (d1 - 1 + ex) / (IZR (Z.pos my) * pow2 ey)).
    - unfold Rdiv. apply Rmult_le_compat_l; [lra|].
      apply Rinv_le_contravar; lra.
    - unfold Rdiv. apply Rmult_le_compat_r; [|exact H1].
      apply Rlt_le, Rinv_0_lt_compat. lra. }
  assert (Htq : (0 < q)%Z -> pow2 (Zdigits2 q - 1 + e') <= t).
  { intros Hq0. eapply Rle_trans; [|apply Hb].
    destruct q as [|p|p]; try lia. apply mantissa_ge. }
  assert (Hq0 : q = 0%Z -> Zdigits2 q = 0%Z) by (intros ->; reflexivity).
  pose proof (Zdigits2_nonneg q Hq) as Hdq.
  assert (Hcase : E = (-1074)%Z \/ (E <= X - 53)%Z \/
                  ((0 < q)%Z /\ E = (Zdigits2 q + e' - 53)%Z)).
  { unfold E, e', fexp, emin, SpecFloat.emin, prec, emax in *.
    destruct (Z.eq_dec q 0) as [Hz|Hz]; [rewrite (Hq0 Hz) in *|]; lia. }
  assert (Hu : 0 < u) by apply pow2_gt_0.
  assert (HE : pow2 E <= u * t + eta).
  { destruct Hcase as [->|[Hc|[Hc ->]]].
    - unfold eta. nra.
    - apply Rle_trans with (u * pow2 (X - 1)).
      + unfold u. rewrite <- pow2_add. apply pow2_le. lia.
      + pose proof (pow2_gt_0 (-1074)). unfold eta. nra.
    - apply Rle_trans with (u * pow2 (Zdigits2 q - 1 + e')).
      + unfold u. rewrite <- pow2_add. apply pow2_le. lia.
      + specialize (Htq Hc). pose proof (pow2_gt_0 (-1074)). unfold eta. nra. }
  destruct Hres as [[Hres Hinf]|[Hf Hvv]].
  - left. split; [exact Hres|].
    unfold emax, prec in Hinf.
    destruct Hcase as [Hc|[Hc|[Hc Hc']]].
    + lia.
    + eapply Rle_trans; [|exact HtX]. apply pow2_le. lia.
    + eapply Rle_trans; [|exact (Htq Hc)]. apply pow2_le. lia.
  - right. split; [exact Hf|]. rewrite Hvv. cbn [sgn]. rewrite Rmult_1_l.
    split; [apply Rabs_le; lra | exact Hv0].
Qed.

(** ** The same on doubles *)

Lemma is_finite_sf (x : float) : is_finite x = finite_sf (Prim2SF x).
Proof.
  unfold is_finite, is_infinity. rewrite eqb_spec, abs_spec.
  change (Prim2SF infinity) with (S754_infinity false).
  destruct (is_nan x) eqn:E.
  - apply is_nan_spec in E. rewrite E. reflexivity.
  - apply is_nan_false_spec in E.
    destruct (Prim2SF x) as [s|s| |s m e]; try reflexivity. congruence.
Qed.

Lemma val_zero : val 0 = 0.
Proof. reflexivity. Qed.

Lemma add_value (a b : float) :
  is_finite a = true -> is_finite b = true ->
  (is_finite (a + b) = false /\ pow2 1023 <= Rabs (val a + val b)) \/
  (is_finite (a + b) = true /\
   Rabs (val (a + b) - (val a + val b)) <= u * Rabs (val a + val b)).
Proof.
  rewrite !is_finite_sf. unfold val. rewrite add_spec.
  apply SFadd_value; apply Prim2SF_valid.
Qed.

Lemma sub_value (a b : float) :
  is_finite a = true -> is_finite b = true ->
  (is_finite (a - b) = false /\ pow2 1023 <= Rabs (val a - val b)) \/
  (is_finite (a - b) = true /\
   Rabs (val (a - b) - (val a - val b)) <= u * Rabs (val a - val b)).
Proof.
  rewrite !is_finite_sf. unfold val. rewrite sub_spec.
  apply SFsub_value; apply Prim2SF_valid.
Qed.

Lemma SF2R_negative m e : SF2R (S754_finite true m e) < 0.
Proof.
  rewrite SF2R_finite. cbn [sgn].
  assert (0 < IZR (Z.pos m) * pow2 e).
  { apply Rmult_lt_0_compat; [apply IZR_lt; lia | apply pow2_gt_0]. }
  lra.
Qed.

Lemma SF2R_positive m e : 0 < SF2R (S754_finite false m e).
Proof.
  rewrite SF2R_finite. cbn [sgn].
  assert (0 < IZR (Z.pos m) * pow2 e).
  { apply Rmult_lt_0_compat; [apply IZR_lt; lia | apply pow2_gt_0]. }
  lra.
Qed.

Lemma div_value (a b : float) :
  is_finite a = true -> is_finite b = true ->
  0 <= val a -> 0 < val b ->
  (is_finite (a / b) = false /\ pow2 1023 <= val a / val b) \/
  (is_finite (a / b) = true /\
   Rabs (val (a / b) - val a / val b) <= u * (val a / val b) + eta /\
   0 <= val (a / b)).
Proof.
  rewrite !is_finite_sf. unfold val. rewrite div_spec.
  pose proof (Prim2SF_valid a) as Va. pose proof (Prim2SF_valid b) as Vb.
  destruct (Prim2SF a) as [sa|sa| |sa ma ea]; try discriminate;
    destruct (Prim2SF b) as [sb|sb| |sb mb eb]; try discriminate;
    intros _ _ Ha Hb.
  - cbn [SF2R] in Hb. lra.
  - right. split; [reflexivity|]. cbn [SF64div SFdiv SF2R].
    unfold Rdiv. rewrite Rmult_0_l, Rminus_0_r, Rabs_R0, Rmult_0_r.
    pose proof (pow2_gt_0 (-1074)). unfold eta. lra.
  - cbn [SF2R] in Hb. lra.
  - destruct sb; [pose proof (SF2R_negative mb eb); lra|].
    destruct sa; [pose proof (SF2R_negative ma ea); lra|].
    cbn [valid_binary] in Va, Vb.
    destruct (SFdiv_value ma ea mb eb Va Vb) as [[Hr Hinf]|[Hf Hv]].
    + left. rewrite Hr. split; [reflexivity | exact Hinf].
    + right. split; assumption.
Qed.

Lemma val_abs (x : float) : val (abs x) = Rabs (val x).
Proof.
  unfold val. rewrite abs_spec.
  destruct (Prim2SF x) as [s|s| |s m e]; cbn [SFabs]; try (cbn [SF2R]; rewrite Rabs_R0; reflexivity).
  destruct s.
  - pose proof (SF2R_negative m e) as H. rewrite Rabs_left by exact H.
    rewrite !SF2R_finite. cbn [sgn]. ring.
  - pose proof (SF2R_positive m e) as H. rewrite Rabs_pos_eq by lra. reflexivity.
Qed.

Lemma is_finite_abs (x : float) : is_finite (abs x) = is_finite x.
Proof.
  rewrite !is_finite_sf, abs_spec. destruct (Prim2SF x); reflexivity.
Qed.

(** The value of a finite double is its rank, scaled. *)
Lemma val_key (x : float) :
  is_finite x = true -> val x = IZR (order_key x) * pow2 (-1074).
Proof.
  rewrite is_finite_sf. unfold val, order_key.
  pose proof (Prim2SF_valid x) as V.
  destruct (Prim2SF x) as [s|s| |s m e]; try discriminate; intros _;
    cbn [rank]; try (cbn [SF2R]; ring).
  cbn [valid_binary] in V. destruct (bounded_facts _ _ V) as [He _].
  rewrite SF2R_finite.
  change emin with (-1074)%Z in *.
  replace e with (-1074 + (e - -1074))%Z at 1 by lia.
  rewrite pow2_shift by lia.
  destruct s; cbn [cond_Zopp sgn].
  - rewrite opp_IZR, mult_IZR. ring.
  - rewrite mult_IZR. ring.
Qed.

Lemma is_finite_not_nan (x : float) : is_finite x = true -> is_nan x = false.
Proof. intros H. apply (is_finite_facts x H). Qed.

Lemma ltb_val (x y : float) :
  is_finite x = true -> is_finite y = true ->
  (x <? y) = true <-> val x < val y.
Proof.
  intros Hx Hy.
  rewrite ltb_key by (apply is_finite_not_nan; assumption).
  rewrite (val_key x Hx), (val_key y Hy).
  pose proof (pow2_gt_0 (-1074)) as Hp.
  rewrite Z.ltb_lt. split.
  - intros H. apply IZR_lt in H. nra.
  - intros H. apply lt_IZR. nra.
Qed.

Lemma leb_val (x y : float) :
  is_finite x = true -> is_finite y = true ->
  (x <=? y) = true <-> val x <= val y.
Proof.
  intros Hx Hy.
  rewrite leb_key by (apply is_finite_not_nan; assumption).
  rewrite (val_key x Hx), (val_key y Hy).
  pose proof (pow2_gt_0 (-1074)) as Hp.
  rewrite Z.leb_le. split.
  - intros H. apply IZR_le in H. nra.
  - intros H. apply le_IZR. nra.
Qed.

Lemma ltb_false_val (x y : float) :
  is_finite x = true -> is_finite y = true ->
  (x <? y) = false -> val y <= val x.
Proof.
  intros Hx Hy H.
  destruct (Rle_or_lt (val y) (val x)) as [|Hlt]; [assumption|].
  apply (ltb_val x y Hx Hy) in Hlt. congruence.
Qed.

(** ** Running sums *)

Lemma Rabs_le_both (x a : R) : Rabs x <= a -> - a <= x <= a.
Proof. unfold Rabs. destruct (Rcase_abs x); lra. Qed.

Lemma add_finite_inv (a b : float) :
  is_finite (a + b) = true -> is_finite a = true /\ is_finite b = true.
Proof.
  rewrite !is_finite_sf, add_spec.
  destruct (Prim2SF a) as [sa|sa| |sa ma ea], (Prim2SF b) as [sb|sb| |sb mb eb];
    try (intros _; split; reflexivity);
    try (destruct sa, sb; discriminate); try discriminate.
Qed.

Lemma fold_add_finite_inv (l : list float) : forall s,
  is_finite (fold_left add l s) = true ->
  is_finite s = true /\ forall x, In x l -> is_finite x = true.
Proof.
  induction l as [|y l IH]; intros s H.
  - split; [exact H | intros x []].
  - cbn [fold_left] in H. destruct (IH _ H) as [Hs Hl].
    destruct (add_finite_inv _ _ Hs) as [Hs' Hy].
    split; [exact Hs'|]. intros x [<-|Hin]; [exact Hy | apply Hl, Hin].
Qed.

Lemma rsum_app (l : list float) (x : float) : rsum (l ++ [x]) = rsum l + val x.
Proof.
  induction l as [|y l IH]; cbn [app rsum fold_right].
  - ring.
  - fold (rsum (l ++ [x])). fold (rsum l). rewrite IH. ring.
Qed.

Lemma rsum_cons (l : list float) (x : float) : rsum (x :: l) = val x + rsum l.
Proof. reflexivity. Qed.

Lemma rsum_nonneg (l : list float) :
  (forall x, In x l -> 0 <= val x) -> 0 <= rsum l.
Proof.
  induction l as [|y l IH]; intros H.
  - cbn. lra.
  - rewrite rsum_cons.
    assert (0 <= val y) by (apply H; left; reflexivity).
    assert (0 <= rsum l) by (apply IH; intros x Hx; apply H; right; exact Hx).
    lra.
Qed.

Lemma rsum_ge (l : list float) :
  (forall x, In x l -> 0 <= val x) ->
  forall x, In x l -> val x <= rsum l.
Proof.
  induction l as [|y l IH]; intros H x Hin; [destruct Hin|].
  rewrite rsum_cons.
  assert (0 <= val y) by (apply H; left; reflexivity).
  assert (Hl : forall z, In z l -> 0 <= val z) by (intros z Hz; apply H; right; exact Hz).
  pose proof (rsum_nonneg l Hl).
  destruct Hin as [<-|Hin]; [lra|].
  specialize (IH Hl x Hin). lra.
Qed.

Lemma pow2_1023 : pow2 1023 = 8388608 * pow2 1000.
Proof. change 1023%Z with (1000 + 23)%Z. rewrite pow2_shift by lia. reflexivity. Qed.

(** The running sum of finite values, none negative, against their exact
    sum: each addition adds a relative error of at most [u]. *)
Lemma accumulate_value (l : list float) :
  (forall x, In x l -> is_finite x = true /\ 0 <= val x) ->
  INR (length l) * u <= 1 / 4 ->
  is_finite (fold_left add l 0%float) = true \/ rsum l <= pow2 1000 ->
  is_finite (fold_left add l 0%float) = true /\
  (1 - INR (length l) * u) * rsum l <= val (fold_left add l 0%float)
    <= (1 + 2 * INR (length l) * u) * rsum l.
Proof.
  assert (Hu : 0 < u) by apply pow2_gt_0.
  induction l as [|x l IH] using rev_ind; intros Hl Hn Hcase.
  - cbn [fold_left length rsum fold_right INR]. split; [reflexivity|].
    rewrite val_zero. lra.
  - rewrite fold_left_app. cbn [fold_left].
    rewrite length_app, Nat.add_comm in *. cbn [length Nat.add] in *.
    rewrite S_INR in *. rewrite rsum_app in *.
    set (k := INR (length l)) in *.
    assert (Hk : 0 <= k) by apply pos_INR.
    assert (Hl' : forall y, In y l -> is_finite y = true /\ 0 <= val y).
    { intros y Hy. apply Hl, in_or_app. left. exact Hy. }
    destruct (Hl x) as [Fx Vx]; [apply in_or_app; right; left; reflexivity|].
    assert (HW : 0 <= rsum l) by (apply rsum_nonneg; intros y Hy; apply Hl', Hy).
    destruct IH as [FS [Hlo Hhi]]; [exact Hl' | nra | |].
    { destruct Hcase as [Hf|Hb].
      - left. rewrite fold_left_app in Hf. cbn [fold_left] in Hf.
        apply (add_finite_inv _ _ Hf).
      - right. lra. }
    set (S := fold_left add l 0%float) in *.
    set (A := val S) in *. set (W := rsum l) in *. set (vx := val x) in *.
    assert (Hku : k * u <= 1 / 4) by nra.
    assert (HkuW : 0 <= k * u * W).
    { apply Rmult_le_pos; [apply Rmult_le_pos; lra | exact HW]. }
    assert (Hkuv : 0 <= k * u * vx).
    { apply Rmult_le_pos; [apply Rmult_le_pos; lra | exact Vx]. }
    assert (HA : 0 <= A) by nra.
    assert (Hsum : 0 <= A + vx) by lra.
    destruct (add_value S x FS Fx) as [[Hinf Hbig]|[Hfin Herr]].
    + exfalso. fold A vx in Hbig. rewrite Rabs_pos_eq in Hbig by exact Hsum.
      destruct Hcase as [Hf|Hb].
      * rewrite fold_left_app in Hf. cbn [fold_left] in Hf. fold S in Hf. congruence.
      * rewrite pow2_1023 in Hbig. pose proof (pow2_gt_0 1000). nra.
    + split; [exact Hfin|]. fold A vx in Herr.
      rewrite (Rabs_pos_eq (A + vx)) in Herr by exact Hsum.
      apply Rabs_le_both in Herr. destruct Herr as [Hel Heh].
      set (A' := val (S + x)%float) in *.
      assert (Hs1 : (1 - k * u) * (W + vx) <= A + vx) by nra.
      assert (Hs2 : A + vx <= (1 + 2 * k * u) * (W + vx)) by nra.
      assert (HWv : 0 <= W + vx) by lra.
      split.
      * apply Rle_trans with ((1 - u) * ((1 - k * u) * (W + vx))); [|nra].
        assert (Hf : 1 - (k + 1) * u <= (1 - u) * (1 - k * u)) by nra.
        replace ((1 - u) * ((1 - k * u) * (W + vx)))
          with ((1 - u) * (1 - k * u) * (W + vx)) by ring.
        apply Rmult_le_compat_r; [exact HWv | exact Hf].
      * apply Rle_trans with ((1 + u) * ((1 + 2 * k * u) * (W + vx))); [nra|].
        assert (Hf : (1 + u) * (1 + 2 * k * u) <= 1 + 2 * (k + 1) * u) by nra.
        replace ((1 + u) * ((1 + 2 * k * u) * (W + vx)))
          with ((1 + u) * (1 + 2 * k * u) * (W + vx)) by ring.
        apply Rmult_le_compat_r; [exact HWv | exact Hf].
Qed.

(** ** The constants *)

Lemma pow2_opp k : pow2 (- k) = / pow2 k.
Proof.
  pose proof (pow2_gt_0 k) as H.
  apply Rmult_eq_reg_l with (pow2 k); [|lra].
  rewrite <- pow2_add, Z.add_opp_diag_r, Rinv_r by lra. reflexivity.
Qed.

Lemma u_value : u = / 4503599627370496.
Proof.
  unfold u. change (-52)%Z with (Z.opp 52). rewrite pow2_opp, <- pow2_IZR by lia.
  reflexivity.
Qed.

Lemma eta_small : 1048576 * eta <= u.
Proof.
  unfold eta, u. change 1048576 with (IZR (2 ^ 20)).
  rewrite <- pow2_shift by lia. apply pow2_le. lia.
Qed.

Lemma val_one : val 1 = 1.
Proof.
  unfold val. rewrite Prim2SF_one, SF2R_finite. cbn [sgn].
  change 4503599627370496%Z with (2 ^ 52)%Z.
  change (-52)%Z with (Z.opp 52).
  rewrite pow2_opp, pow2_IZR by lia. pose proof (pow2_gt_0 52). field. lra.
Qed.

(** The value of a power of two. *)
Lemma val_pow2_float (x : float) (k : Z) :
  Prim2SF x = S754_finite false 4503599627370496 (Z.opp k - 52) ->
  val x = pow2 (Z.opp k).
Proof.
  intros E. unfold val. rewrite E, SF2R_finite. cbn [sgn].
  change 4503599627370496%Z with (2 ^ 52)%Z.
  rewrite pow2_IZR by lia. rewrite Rmult_1_l, <- pow2_add. f_equal. lia.
Qed.

(** [1e-12] lies between [2^-50] and [2^-10], and [1e-9] is at least
    [2^-30]. *)
Lemma val_tiny : 0 < val 1e-12 <= / 1024.
Proof.
  assert (H1 : val 0x1p-50%float = pow2 (Z.opp 50)) by (apply val_pow2_float; reflexivity).
  assert (H2 : val 0x1p-10%float = pow2 (Z.opp 10)) by (apply val_pow2_float; reflexivity).
  assert (L1 : (0x1p-50 <? 1e-12)%float = true) by reflexivity.
  assert (L2 : (1e-12 <=? 0x1p-10)%float = true) by reflexivity.
  apply ltb_val in L1; [|reflexivity|reflexivity].
  apply leb_val in L2; [|reflexivity|reflexivity].
  rewrite H1 in L1. rewrite H2 in L2.
  pose proof (pow2_gt_0 (Z.opp 50)). rewrite pow2_opp, <- pow2_IZR in L2 by lia.
  change (IZR (2 ^ 10)) with 1024 in L2. lra.
Qed.

Lemma val_tolerance : / 1073741824 <= val 1e-9.
Proof.
  assert (H1 : val 0x1p-30%float = pow2 (Z.opp 30)) by (apply val_pow2_float; reflexivity).
  assert (L1 : (0x1p-30 <=? 1e-9)%float = true) by reflexivity.
  apply leb_val in L1; [|reflexivity|reflexivity].
  rewrite H1, pow2_opp, <- pow2_IZR in L1 by lia.
  change (IZR (2 ^ 30)) with 1073741824 in L1. exact L1.
Qed.

(** ** Normalised weights *)

(** A quotient of a value that is not negative by a positive one, the
    quotient at most 2. *)
Lemma quotient_value (x S : float) :
  is_finite x = true -> is_finite S = true ->
  0 <= val x -> 0 < val S -> val x <= 2 * val S ->
  is_finite (x / S) = true /\ 0 <= val (x / S) /\
  - (u * (val x / val S) + eta) <= val (x / S) - val x / val S
    <= u * (val x / val S) + eta.
Proof.
  intros Fx FS Vx VS Hle.
  assert (Hq : val x / val S * val S = val x) by (field; lra).
  assert (Hq0 : 0 <= val x / val S).
  { apply Rmult_le_pos; [exact Vx | apply Rlt_le, Rinv_0_lt_compat, VS]. }
  assert (Hq2 : val x / val S <= 2) by nra.
  destruct (div_value x S Fx FS Vx VS) as [[_ Hbig]|(Hf & Herr & Hpos)].
  - exfalso. rewrite pow2_1023 in Hbig.
    assert (4 <= pow2 1000).
    { change 4 with (IZR (2 ^ 2)). rewrite pow2_IZR by lia. apply pow2_le. lia. }
    lra.
  - split; [exact Hf|]. split; [exact Hpos|]. apply Rabs_le_both, Herr.
Qed.

Lemma quotients_sum (l : list float) (S : float) :
  is_finite S = true -> 0 < val S ->
  (forall x, In x l -> is_finite x = true /\ 0 <= val x /\ val x <= 2 * val S) ->
  (1 - u) * (rsum l / val S) - INR (length l) * eta
    <= rsum (map (fun x => x / S)%float l)
    <= (1 + u) * (rsum l / val S) + INR (length l) * eta.
Proof.
  intros FS VS. induction l as [|x l IH]; intros Hl.
  - cbn [map rsum fold_right length INR]. unfold Rdiv. lra.
  - cbn [map]. rewrite !rsum_cons.
    change (length (x :: l)) with (Datatypes.S (length l)). rewrite S_INR.
    destruct (Hl x (or_introl eq_refl)) as (Fx & Vx & Hx).
    destruct (quotient_value x S Fx FS Vx VS Hx) as (_ & _ & Hlo & Hhi).
    destruct IH as [IHlo IHhi]; [intros y Hy; apply Hl; right; exact Hy|].
    replace ((val x + rsum l) / val S) with (val x / val S + rsum l / val S)
      by (field; lra).
    split; lra.
Qed.

(** The once-normalised vector: its elements and its running sum. *)
Lemma normalized_values (w : list float) :
  (Z.of_nat (length w) <= 1000000)%Z ->
  (forall x, In x w -> is_finite x = true /\ 0 <= val x) ->
  is_finite (fold_left add w 0%float) = true ->
  0 < val (fold_left add w 0%float) ->
  (forall y, In y (map (fun x => x / fold_left add w 0)%float w) ->
     is_finite y = true /\ 0 <= val y <= 1 + delta) /\
  is_finite (fold_left add (map (fun x => x / fold_left add w 0)%float w) 0%float)
    = true /\
  1 - delta
    <= val (fold_left add (map (fun x => x / fold_left add w 0)%float w) 0%float)
    <= 1 + delta.
Proof.
  intros Hn Hw FS VS.
  set (S := fold_left add w 0%float) in *.
  set (v := map (fun x => (x / S)%float) w).
  set (k := INR (length w)).
  assert (Hk : 0 <= k <= 1000000).
  { split; [apply pos_INR|]. unfold k. rewrite INR_IZR_INZ.
    apply IZR_le, Hn. }
  pose proof u_value as Hu. pose proof eta_small as Heta.
  assert (Heta0 : 0 < eta) by apply pow2_gt_0.
  assert (Hku : k * u <= / 4000000000) by (rewrite Hu; lra).
  assert (Hketa : k * eta <= u) by nra.
  assert (Hu0 : 0 < u) by (rewrite Hu; lra).
  destruct (accumulate_value w Hw ltac:(fold k; lra) (or_introl FS))
    as [_ [Alo Ahi]].
  fold S k in Alo, Ahi.
  set (A := val S) in *. set (W := rsum w) in *.
  assert (HW : 0 <= W) by (apply rsum_nonneg; intros x Hx; apply Hw, Hx).
  assert (H1 : 0 <= (/ 4000000000 - k * u) * W) by (apply Rmult_le_pos; lra).
  assert (Alo' : (1 - / 4000000000) * W <= A) by lra.
  assert (H2 : 0 <= k * u * W).
  { apply Rmult_le_pos; [apply Rmult_le_pos; lra | exact HW]. }
  assert (Ahi' : A <= (1 + 2 * / 4000000000) * W) by lra.
  assert (HW2 : W <= 2 * A) by lra.
  set (rho := W / A).
  assert (Hrho : rho * A = W) by (unfold rho; field; lra).
  assert (Hrho0 : 0 <= rho).
  { apply Rmult_le_pos; [exact HW | apply Rlt_le, Rinv_0_lt_compat, VS]. }
  assert (Hrlo : 1 <= (1 + 2 * / 4000000000) * rho).
  { apply Rmult_le_reg_r with A; [exact VS|].
    replace ((1 + 2 * / 4000000000) * rho * A)
      with ((1 + 2 * / 4000000000) * (rho * A)) by ring.
    rewrite Hrho. lra. }
  assert (Hrhi : (1 - / 4000000000) * rho <= 1).
  { apply Rmult_le_reg_r with A; [exact VS|].
    replace ((1 - / 4000000000) * rho * A)
      with ((1 - / 4000000000) * (rho * A)) by ring.
    rewrite Hrho. lra. }
  assert (Hel : forall x, In x w ->
            is_finite x = true /\ 0 <= val x /\ val x <= 2 * A).
  { intros x Hx. destruct (Hw x Hx) as [Fx Vx]. split; [exact Fx|].
    split; [exact Vx|].
    pose proof (rsum_ge w (fun z Hz => proj2 (Hw z Hz)) x Hx). fold W in H. lra. }
  assert (Hv : forall y, In y v -> is_finite y = true /\ 0 <= val y <= 1 + delta).
  { intros y Hy. apply in_map_iff in Hy. destruct Hy as (x & <- & Hx).
    destruct (Hel x Hx) as (Fx & Vx & Hx2).
    destruct (quotient_value x S Fx FS Vx VS Hx2) as (Fy & Vy & Hlo & Hhi).
    fold A in Hlo, Hhi.
    split; [exact Fy|]. split; [exact Vy|].
    assert (Hq : val x / A <= rho).
    { unfold rho, Rdiv. apply Rmult_le_compat_r;
        [apply Rlt_le, Rinv_0_lt_compat, VS|].
      apply (rsum_ge w (fun z Hz => proj2 (Hw z Hz)) x Hx). }
    assert (Hq0 : 0 <= val x / A).
    { apply Rmult_le_pos; [exact Vx | apply Rlt_le, Rinv_0_lt_compat, VS]. }
    assert (0 <= u * (val x / A) <= u * rho).
    { split; [apply Rmult_le_pos; lra | apply Rmult_le_compat_l; lra]. }
    unfold delta. rewrite Hu in *. lra. }
  pose proof (quotients_sum w S FS VS Hel) as [Vlo Vhi].
  fold v W A k rho in Vlo, Vhi.
  assert (HWv : 0 <= rsum v) by (apply rsum_nonneg; intros y Hy; apply Hv, Hy).
  assert (Hlen : length v = length w) by apply length_map.
  destruct (accumulate_value v (fun y Hy => conj (proj1 (Hv y Hy)) (proj1 (proj2 (Hv y Hy)))))
    as [FT [Tlo Thi]].
  { rewrite Hlen. fold k. lra. }
  { right. apply Rle_trans with 4.
    - rewrite Hu in *. lra.
    - change 4 with (IZR (2 ^ 2)). rewrite pow2_IZR by lia. apply pow2_le. lia. }
  rewrite Hlen in Tlo, Thi. fold k in Tlo, Thi.
  set (T := val (fold_left add v 0%float)) in *.
  assert (H3 : 0 <= (/ 4000000000 - k * u) * rsum v) by (apply Rmult_le_pos; lra).
  assert (H4 : 0 <= k * u * rsum v).
  { apply Rmult_le_pos; [apply Rmult_le_pos; lra | exact HWv]. }
  split; [exact Hv|]. split; [exact FT|].
  unfold delta. rewrite Hu in *. split; lra.
Qed.

(** Two finite doubles whose values differ by at most 1/1100000000 are
    within 1e-9 of each other in double arithmetic. *)
Lemma within_tolerance (a b : float) :
  is_finite a = true -> is_finite b = true ->
  Rabs (val a - val b) <= / 1100000000 ->
  (abs (a - b) <=? 1e-9)%float = true.
Proof.
  intros Fa Fb Hd.
  pose proof u_value as Hu.
  destruct (sub_value a b Fa Fb) as [[_ Hbig]|[Hf Herr]].
  - exfalso. rewrite pow2_1023 in Hbig.
    assert (4 <= pow2 1000).
    { change 4 with (IZR (2 ^ 2)). rewrite pow2_IZR by lia. apply pow2_le. lia. }
    lra.
  - apply leb_val; [rewrite is_finite_abs; exact Hf | reflexivity|].
    rewrite val_abs. pose proof val_tolerance as Htol.
    apply Rabs_le_both in Herr.
    pose proof (Rabs_pos (val a - val b)) as Hr.
    set (r := Rabs (val a - val b)) in *.
    assert (Hd' : - r <= val a - val b <= r).
    { unfold r. apply Rabs_le_both. lra. }
    apply Rabs_le. rewrite Hu in *. lra.
Qed.

Lemma sums_to_one (T : float) :
  is_finite T = true -> 1 - delta <= val T <= 1 + delta ->
  (abs (T - 1) <=? 1e-9)%float = true.
Proof.
  intros FT HT. apply within_tolerance; [exact FT | reflexivity|].
  rewrite val_one. unfold delta in HT. apply Rabs_le. lra.
Qed.

Lemma second_pass (y T : float) :
  is_finite y = true -> 0 <= val y <= 1 + delta ->
  is_finite T = true -> 1 - delta <= val T <= 1 + delta ->
  (abs (y / T - y) <=? 1e-9)%float = true.
Proof.
  intros Fy Hy FT HT. unfold delta in *.
  pose proof u_value as Hu. pose proof eta_small as Heta.
  assert (Heta0 : 0 < eta) by apply pow2_gt_0.
  assert (VT : 0 < val T) by lra.
  destruct (quotient_value y T Fy FT (proj1 Hy) VT ltac:(lra))
    as (Fz & Vz & Hlo & Hhi).
  set (q := val y / val T) in *.
  assert (Hq : q * val T = val y) by (unfold q; field; lra).
  assert (Hq0 : 0 <= q).
  { apply Rmult_le_pos; [lra | apply Rlt_le, Rinv_0_lt_compat, VT]. }
  assert (Hq1 : (1 - / 1250000000) * q <= val y) by nra.
  assert (Hq2 : val y <= (1 + / 1250000000) * q) by nra.
  apply within_tolerance; [exact Fz | exact Fy|].
  apply Rabs_le. rewrite Hu in *. lra.
Qed.

End RealFacts.

Module NormalizeFacts.

Import Reals Lra Exact RealFacts.
Local Open Scope float_scope.

Lemma nonneg_values (w : list float) :
  forallb (fun x => 0 <=? x) w = true ->
  (forall x, In x w -> is_finite x = true) ->
  forall x, In x w -> is_finite x = true /\ (0 <= val x)%R.
Proof.
  intros Hw Hf x Hx. split; [apply Hf, Hx|].
  rewrite forallb_forall in Hw. specialize (Hw x Hx).
  apply leb_val in Hw; [|reflexivity|apply Hf, Hx].
  rewrite val_zero in Hw. exact Hw.
Qed.

(** Normalising weights twice, in double arithmetic. *)
Lemma normalized_twice (w : list float) :
  (Z.of_nat (length w) <= 1000000)%Z ->
  forallb (fun x => 0 <=? x) w = true ->
  is_finite (accumulate w 0) = true ->
  (accumulate w 0 <? 1e-12) = false ->
  (abs (accumulate (map (fun x => x / accumulate w 0) w) 0 - 1) <=? 1e-9) = true /\
  (accumulate (map (fun x => x / accumulate w 0) w) 0 <? 1e-12) = false /\
  forall y, In y (map (fun x => x / accumulate w 0) w) ->
    (abs (y / accumulate (map (fun x => x / accumulate w 0) w) 0 - y) <=? 1e-9)
    = true.
Proof.
  intros Hn Hw FS Hsum. unfold accumulate in *.
  destruct (fold_add_finite_inv w 0 FS) as [_ Hfin].
  pose proof (nonneg_values w Hw Hfin) as Hel.
  assert (VS : (0 < val (fold_left add w 0%float))%R).
  { apply ltb_false_val in Hsum; [|exact FS|reflexivity].
    pose proof val_tiny. lra. }
  destruct (normalized_values w Hn Hel FS VS) as (Hv & FT & HT).
  set (v := map (fun x => x / fold_left add w 0) w) in *.
  split; [apply sums_to_one; assumption|]. split.
  - destruct (fold_left add v 0 <? 1e-12) eqn:E; [|reflexivity].
    apply ltb_val in E; [|exact FT|reflexivity].
    pose proof val_tiny. unfold delta in HT. lra.
  - intros y Hy. destruct (Hv y Hy) as [Fy Vy].
    apply second_pass; assumption.
Qed.

End NormalizeFacts.

Lemma Forall2_map_self {A : Type} (P : A -> A -> Prop) (f : A -> A) (l : list A) :
  (forall x, In x l -> P x (f x)) -> Forall2 P l (map f l).
Proof.
  induction l as [|x l IH]; intros H; cbn [map]; constructor.
  - apply H. left. reflexivity.
  - apply IH. intros y Hy. apply H. right. exact Hy.
Qed.

Lemma map_div_one (v : list double) : map (fun x => x / 1) v = v.
Proof.
  induction v as [|x v IH]; [reflexivity|].
  cbn [map]. rewrite div_one, IH. reflexivity.
Qed.

(** C8 fails as stated.  Normalising [0.1, 0.2, 0.3] twice changes the last
    bits of every element: the sum of the once-normalised vector is
    0.99999999999999989, not 1.  The running sum of
    [1e308, 1e308] overflows, the normalised vector is [0, 0] and sums to 0.
    Without overflow, weights of both signs cancel: the running sum of
    [1e16, 5, -1e16, 1] is 5 and the normalised vector sums to 1.2. *)
Lemma normalize_claims_fail :
  ~ normalize_idempotent /\ ~ normalize_sums_to_one /\
  ~ normalize_sums_to_one_finite.
Proof.
  split; [|split]; intros H.
  - assert (Hv : exists v, Utils.normalize [0.1; 0.2; 0.3] = Ok v)
      by (eexists; vm_compute; reflexivity).
    destruct Hv as [v Hv].
    specialize (H [0.1; 0.2; 0.3] v eq_refl Hv).
    apply (f_equal (fun r => match r with Ok v => v | _ => [] end)) in Hv.
    cbv beta iota in Hv. subst v.
    apply (f_equal (fun r => match r with
                             | Ok (x :: _) => x =? 0.16666666666666666
                             | _ => true
                             end)) in H.
    vm_compute in H. discriminate H.
  - specialize (H [1e308; 1e308] [0; 0] eq_refl eq_refl).
    vm_compute in H. discriminate H.
  - specialize (H [1e16; 5; -1e16; 1] [2e15; 1; -2e15; 0.2] eq_refl eq_refl
                  eq_refl).
    vm_compute in H. discriminate H.
Qed.

(** C8, as amended.  [normalize] throws exactly when the running sum of its
    input is below 1e-12; otherwise it returns the elements divided by that
    sum.  Of at most 1000000 weights, none negative or a NaN, whose running
    sum is finite and not below 1e-12: the running sum of the normalised
    vector is within 1e-9 of 1, and normalising again succeeds and moves no
    element by more than 1e-9.  Normalising again returns the very same
    vector when the running sum of the normalised vector is exactly 1. *)
Theorem normalize_cases (w : list double) :
  (Utils.normalize w = Throw (invalid_argument NormalizeZeroSum) <->
   (accumulate w 0 <? 1e-12) = true) /\
  ((accumulate w 0 <? 1e-12) = false ->
   Utils.normalize w = Ok (map (fun x => x / accumulate w 0) w)) /\
  ((Z.of_nat (length w) <= 1000000)%Z ->
   forallb (fun x => 0 <=? x) w = true ->
   is_finite (accumulate w 0) = true ->
   (accumulate w 0 <? 1e-12) = false ->
   exists v v',
     Utils.normalize w = Ok v /\
     (abs (accumulate v 0 - 1) <=? 1e-9) = true /\
     Utils.normalize v = Ok v' /\
     Forall2 (fun x x' => (abs (x' - x) <=? 1e-9) = true) v v') /\
  (forall v, Utils.normalize w = Ok v ->
     length v = length w /\
     (accumulate v 0 = 1 -> Utils.normalize v = Ok v)).
Proof.
  split; [|split; [|split]].
  - unfold Utils.normalize. destruct (accumulate w 0 <? 1e-12); split;
      congruence || reflexivity || discriminate.
  - unfold Utils.normalize. intros ->. reflexivity.
  - intros Hn Hw FS Hsum.
    destruct (NormalizeFacts.normalized_twice w Hn Hw FS Hsum)
      as (Hone & HT & Hel).
    exists (map (fun x => x / accumulate w 0) w),
      (map (fun y => y / accumulate (map (fun x => x / accumulate w 0) w) 0)
         (map (fun x => x / accumulate w 0) w)).
    split; [unfold Utils.normalize; rewrite Hsum; reflexivity|].
    split; [exact Hone|].
    split; [unfold Utils.normalize; rewrite HT; reflexivity|].
    apply Forall2_map_self. exact Hel.
  - unfold Utils.normalize.
    destruct (accumulate w 0 <? 1e-12) eqn:Hsum; [discriminate|].
    intros v Hv. injection Hv as <-. split; [apply length_map|].
    intros ->. change (1 <? 1e-12) with false. cbv iota.
    rewrite map_div_one. reflexivity.
Qed.

Lemma normalize_cases_witness :
  (Z.of_nat (length [0.1; 0.2; 0.3]%float) <= 1000000)%Z /\
  forallb (fun x => 0 <=? x) [0.1; 0.2; 0.3] = true /\
  is_finite (accumulate [0.1; 0.2; 0.3] 0) = true /\
  (accumulate [0.1; 0.2; 0.3] 0 <? 1e-12) = false /\
  exists v v',
    Utils.normalize [0.1; 0.2; 0.3] = Ok v /\
    (abs (accumulate v 0 - 1) <=? 1e-9) = true /\
    Utils.normalize v = Ok v' /\
    Forall2 (fun x x' => (abs (x' - x) <=? 1e-9) = true) v v'.
Proof.
  split; [cbn; lia|]. split; [reflexivity|]. split; [reflexivity|].
  split; [reflexivity|].
  destruct (normalize_cases [0.1; 0.2; 0.3]) as (_ & _ & H & _).
  apply H; [cbn; lia | reflexivity | reflexivity | reflexivity].
Defined.
